(** * Massilia: a shallow embedding of the simulation core

    The development follows the TypeScript sources module by module:
    [types.ts]/[constants.ts], [world/Tile.ts], [world/Grid.ts],
    [world/Pathfinding.ts], [systems/BuildingSystem.ts],
    [systems/WalkerSystem.ts], [systems/InvasionSystem.ts],
    [systems/CombatSystem.ts], [systems/SaveSystem.ts] and [Game.ts].

    Conventions.
    - Grid coordinates, hit points, gold and tick counters are integers in
      the program and are modelled in [Z]; food (which moves in halves,
      [FOOD_PER_POP = 0.5]) and the fractional scaling constants are
      rationals in [Q].
    - The string keys ["x,z"] of the JavaScript [Map]s and [Set]s are
      modelled by the pair [(x, z)] itself.
    - Meshes, the scene, sounds and the HUD are rendering side effects and
      are left out; every field that the simulation reads is kept.
    - In-place mutation of tiles, walkers and invaders is written as
      explicit state passing. *)

From Stdlib Require Import ZArith QArith Qround Lia.
From stdpp Require Import base option list gmap sorting.

Local Open Scope Z_scope.

(** ** types.ts and constants.ts *)

Inductive BuildingType :=
  | road | house | farm | well | market | barracks | wall | tower | forum.

#[global] Instance BuildingType_eq_dec : EqDecision BuildingType.
Proof. solve_decision. Defined.

(** [BuildingDef] without the rendering fields [color] and [label]. *)
Record BuildingDef := mkDef { def_cost : Z; def_size : Z; def_hp : Z }.

Definition BUILDINGS (t : BuildingType) : BuildingDef :=
  match t with
  | road     => mkDef 5 1 10
  | house    => mkDef 30 1 20
  | farm     => mkDef 50 2 15
  | well     => mkDef 20 1 15
  | market   => mkDef 80 1 25
  | barracks => mkDef 100 2 40
  | wall     => mkDef 10 1 50
  | tower    => mkDef 60 1 30
  | forum    => mkDef 0 2 100
  end.

Definition GRID_SIZE : Z := 32.
Definition STARTING_GOLD : Z := 500.
Definition FARM_FOOD_RATE : Z := 4.
Definition FOOD_PER_POP : Q := 1 # 2.
Definition TAX_RATE : Z := 2.
Definition MAX_POP_PER_HOUSE : Z := 10.
Definition GROWTH_RATE : Z := 3.
Definition TOWER_RANGE : Z := 6.
Definition TOWER_DAMAGE : Z := 3.

(** A grid cell [{x, z}]. *)
Definition Cell : Type := Z * Z.

(** The cells visited by
    [for (dx = 0; dx < size; dx++) for (dz = 0; dz < size; dz++)]
    around the origin [(x, z)], in loop order. *)
Definition footprint (x z size : Z) : list Cell :=
  dx ← seqZ 0 size; dz ← seqZ 0 size; [(x + dx, z + dz)].

(** ** world/Tile.ts *)

Record Tile := mkTile {
  tile_x : Z;
  tile_z : Z;
  building : option BuildingType;
  buildingHp : Z;
  hasWater : bool;
  hasFood : bool;
  waterTimer : Z;
  foodTimer : Z
}.

(** [new Tile(x, z)] *)
Definition newTile (x z : Z) : Tile := mkTile x z None 0 false false 0 0.

(** [TileData] is the plain-object form written to the save file. *)
Record TileData := mkTileData {
  td_x : Z;
  td_z : Z;
  td_building : option BuildingType;
  td_buildingHp : Z;
  td_hasWater : bool;
  td_hasFood : bool;
  td_waterTimer : Z;
  td_foodTimer : Z
}.

Definition Tile_toJSON (t : Tile) : TileData :=
  mkTileData (tile_x t) (tile_z t) (building t) (buildingHp t)
             (hasWater t) (hasFood t) (waterTimer t) (foodTimer t).

Definition Tile_fromJSON (d : TileData) : Tile :=
  let tile := newTile (td_x d) (td_z d) in
  mkTile (tile_x tile) (tile_z tile) (td_building d) (td_buildingHp d)
         (td_hasWater d) (td_hasFood d) (td_waterTimer d) (td_foodTimer d).

(** The two assignments [tile.building = b; tile.buildingHp = h]. *)
Definition setBuilding (b : option BuildingType) (h : Z) (t : Tile) : Tile :=
  mkTile (tile_x t) (tile_z t) b h
         (hasWater t) (hasFood t) (waterTimer t) (foodTimer t).

(** ** world/Grid.ts *)

Record Grid := mkGrid { grid_size : Z; tiles : list (list Tile) }.

(** [new Grid(size)] *)
Definition newGrid (size : Z) : Grid :=
  mkGrid size ((λ x, (λ z, newTile x z) <$> seqZ 0 size) <$> seqZ 0 size).

Definition isInBounds (g : Grid) (x z : Z) : bool :=
  (0 <=? x) && (x <? grid_size g) && (0 <=? z) && (z <? grid_size g).

(** [getTile]: [null] out of bounds.  A missing array slot (which a grid
    built by the constructor never has) is read as [None] too. *)
Definition getTile (g : Grid) (x z : Z) : option Tile :=
  if isInBounds g x z
  then tiles g !! Z.to_nat x ≫= (λ row, row !! Z.to_nat z)
  else None.

(** Mutation of the tile object that [getTile (x, z)] returns:
    [const tile = grid.getTile(x, z); if (tile) { ...f... }]. *)
Definition modifyTile (g : Grid) (x z : Z) (f : Tile → Tile) : Grid :=
  if isInBounds g x z
  then mkGrid (grid_size g)
              (alter (alter f (Z.to_nat z)) (Z.to_nat x) (tiles g))
  else g.

(** A sweep that applies the same mutation [f] to a list of cells. *)
Definition sweep (f : Tile → Tile) (g : Grid) (cs : list Cell) : Grid :=
  foldl (λ g c, modifyTile g c.1 c.2 f) g cs.

Definition isRoad (g : Grid) (x z : Z) : bool :=
  match getTile g x z with
  | Some tile => bool_decide (building tile = Some road)
  | None => false
  end.

Definition Grid_toJSON (g : Grid) : list (list TileData) :=
  (λ row : list Tile, Tile_toJSON <$> row) <$> tiles g.

(** [Grid.fromJSON]: a fresh [size]-by-[size] grid, [size = data.length],
    whose slots [z < data[x].length] of row [x] are overwritten (a row of
    [data] longer than [size] extends the JavaScript array). *)
Definition Grid_fromJSON (data : list (list TileData)) : Grid :=
  let size := Z.of_nat (length data) in
  mkGrid size
    (imap (λ (x : nat) (drow : list TileData),
             (Tile_fromJSON <$> drow)
             ++ ((λ z, newTile (Z.of_nat x) z)
                   <$> seqZ (Z.of_nat (length drow))
                            (size - Z.of_nat (length drow))))
          data).

(** ** systems/BuildingSystem.ts *)

(** [PlacedBuilding] without its mesh. *)
Record PlacedBuilding := mkPlaced {
  pb_type : BuildingType;
  pb_x : Z;
  pb_z : Z
}.

(** The predicate shared by [findBuildingAt], [removeBuildingAt],
    [tintDamage] and [cleanGhostTiles]:
    [x >= b.x && x < b.x + def.size && z >= b.z && z < b.z + def.size]. *)
Definition covers (b : PlacedBuilding) (x z : Z) : bool :=
  let def := BUILDINGS (pb_type b) in
  (pb_x b <=? x) && (x <? pb_x b + def_size def)
  && (pb_z b <=? z) && (z <? pb_z b + def_size def).

Definition cellFree (g : Grid) (c : Cell) : bool :=
  if negb (isInBounds g c.1 c.2) then false
  else match getTile g c.1 c.2 with
       | Some tile => bool_decide (building tile = None)
       | None => false
       end.

Definition canPlace (g : Grid) (type : BuildingType) (x z : Z) : bool :=
  let def := BUILDINGS type in
  forallb (cellFree g) (footprint x z (def_size def)).

(** [place] returns the boolean together with the (possibly updated)
    building records, grid and the [gold.value] cell.  The neighbouring
    fortification rebuild only replaces meshes. *)
Definition place (bs : list PlacedBuilding) (g : Grid) (type : BuildingType)
    (x z : Z) (gold : Z) : bool * (list PlacedBuilding * Grid * Z) :=
  let def := BUILDINGS type in
  if gold <? def_cost def then (false, (bs, g, gold))
  else if negb (canPlace g type x z) then (false, (bs, g, gold))
  else
    let gold' := gold - def_cost def in
    let g' := sweep (setBuilding (Some type) (def_hp def))
                    g (footprint x z (def_size def)) in
    (true, (bs ++ [mkPlaced type x z], g', gold')).

(** [placeFromSave]: record only, the grid is already set. *)
Definition placeFromSave (bs : list PlacedBuilding) (type : BuildingType)
    (x z : Z) : list PlacedBuilding :=
  bs ++ [mkPlaced type x z].

Definition findBuildingAt (bs : list PlacedBuilding) (x z : Z)
    : option PlacedBuilding :=
  snd <$> list_find (λ b, covers b x z = true) bs.

Definition removeBuildingAt (bs : list PlacedBuilding) (g : Grid) (x z : Z)
    : list PlacedBuilding * Grid :=
  match list_find (λ b, covers b x z = true) bs with
  | None => (bs, g)
  | Some (idx, b) =>
      let def := BUILDINGS (pb_type b) in
      let g' := sweep (setBuilding None 0)
                      g (footprint (pb_x b) (pb_z b) (def_size def)) in
      (delete idx bs, g')
  end.


(** ** world/Pathfinding.ts *)

Definition NEIGHBORS : list (Z * Z) := [(1, 0); (-1, 0); (0, 1); (0, -1)].

(** [tile.building === 'road' || tile.building === 'forum'] *)
Definition isRoadOrForum (tile : Tile) : bool :=
  bool_decide (building tile = Some road)
  || bool_decide (building tile = Some forum).

(** The [while (queue.length > 0)] loop of [floodFillRoads]; [None] when
    the fuel runs out before the queue is empty. *)
Fixpoint floodFill_loop (fuel : nat) (g : Grid) (queue : list Cell)
    (visited : gset Cell) : option (gset Cell) :=
  match queue with
  | [] => Some visited
  | (x, z) :: queue =>
      match fuel with
      | O => None
      | S fuel =>
          if bool_decide ((x, z) ∈ visited) then floodFill_loop fuel g queue visited
          else if negb (isInBounds g x z) then floodFill_loop fuel g queue visited
          else match getTile g x z with
               | None => floodFill_loop fuel g queue visited
               | Some tile =>
                   if negb (isRoadOrForum tile)
                   then floodFill_loop fuel g queue visited
                   else floodFill_loop fuel g
                          (queue ++ ((λ d, (x + d.1, z + d.2)) <$> NEIGHBORS))
                          ({[(x, z)]} ∪ visited)
               end
      end
  end.

(** Every visited cell pushes four cells, so the loop body runs at most
    [4 * size * size + 1] times. *)
Definition floodFill_fuel (g : Grid) : nat :=
  Z.to_nat (4 * (grid_size g * grid_size g) + 2).

Definition floodFillRoads (g : Grid) (startX startZ : Z) : option (gset Cell) :=
  floodFill_loop (floodFill_fuel g) g [(startX, startZ)] ∅.

Definition isBuildingConnected (g : Grid) (bx bz size : Z)
    (reachableRoads : gset Cell) : bool :=
  existsb (λ c : Cell,
             existsb (λ d : Z * Z,
                        bool_decide ((c.1 + d.1, c.2 + d.2) ∈ reachableRoads))
                     NEIGHBORS)
          (footprint bx bz size).

(** The cells [(x + dx + ndx, z + dz + ndz)] in the order the three nested
    loops of [getAdjacentRoadTiles] meet them. *)
Definition neighbourCandidates (x z size : Z) : list Cell :=
  c ← footprint x z size; d ← NEIGHBORS; [(c.1 + d.1, c.2 + d.2)].

(** One iteration of the innermost loop of [getAdjacentRoadTiles], on the
    [seen] set and the [result] array. *)
Definition adjacentRoadStep (g : Grid) (x z size : Z)
    (st : gset Cell * list Cell) (n : Cell) : gset Cell * list Cell :=
  if bool_decide (n ∈ st.1) then st
  else
    let seen : gset Cell := {[n]} ∪ st.1 in
    if (x <=? n.1) && (n.1 <? x + size) && (z <=? n.2) && (n.2 <? z + size)
    then (seen, st.2)
    else match getTile g n.1 n.2 with
         | Some tile =>
             if isRoadOrForum tile then (seen, st.2 ++ [n]) else (seen, st.2)
         | None => (seen, st.2)
         end.

Definition getAdjacentRoadTiles (g : Grid) (x z size : Z) : list Cell :=
  (foldl (adjacentRoadStep g x z size) (∅, []) (neighbourCandidates x z size)).2.

Definition isRoadOrForumAt (g : Grid) (c : Cell) : bool :=
  match getTile g c.1 c.2 with
  | Some tile => isRoadOrForum tile
  | None => false
  end.

(** [getRoadNeighbors]: the road/forum cells among the four neighbours,
    in [NEIGHBORS] order. *)
Definition getRoadNeighbors (g : Grid) (x z : Z) : list Cell :=
  filter (λ c, isRoadOrForumAt g c = true)
         ((λ d : Z * Z, (x + d.1, z + d.2)) <$> NEIGHBORS).

(** ** Random draws

    [Math.random()] is an external source: the [k]-th draw of a run is
    [rng k], a rational in [[0, 1)].  Code that draws threads the index of
    the next draw. *)
Definition Rng : Type := nat → Q.

Definition rng_ok (rng : Rng) : Prop := ∀ k, (0 <= rng k)%Q ∧ (rng k < 1)%Q.

(** The source whose every draw is 0, used to run the model. *)
Definition rng_zero : Rng := λ _, 0%Q.

(** The source whose every draw is one half. *)
Definition rng_half : Rng := λ _, (1 # 2)%Q.

(** [Math.floor(Math.random() * n)] *)
Definition randomBelow (rng : Rng) (k : nat) (n : Z) : Z :=
  Qfloor (rng k * inject_Z n).

(** [arr[i]] for an integer [i]: [undefined] outside the array. *)
Definition nthZ {A} (l : list A) (i : Z) : option A :=
  if i <? 0 then None else l !! Z.to_nat i.

(** [arr[Math.floor(Math.random() * arr.length)]]; [None] stands for the
    [undefined] whose field access would throw. *)
Definition randomPick {A} (rng : Rng) (k : nat) (l : list A) : option A :=
  nthZ l (randomBelow rng k (Z.of_nat (length l))).

(** ** systems/InvasionSystem.ts *)

Inductive InvaderState := moving | attacking | dead.

#[global] Instance InvaderState_eq_dec : EqDecision InvaderState.
Proof. solve_decision. Defined.

(** [Invader] without its mesh. *)
Record Invader := mkInvader {
  inv_x : Z;
  inv_z : Z;
  inv_targetX : Z;
  inv_targetZ : Z;
  inv_progress : Q;
  inv_hp : Z;
  maxHp : Z;
  damage : Z;
  inv_state : InvaderState;
  attackCooldown : Z;
  path : list Cell;
  pathIndex : Z
}.

Definition FIRST_WAVE_DELAY : Z := 30.
Definition BASE_WAVE_INTERVAL : Z := 25.
Definition WAVE_ACCELERATION : Z := 1.
Definition MIN_WAVE_INTERVAL : Z := 12.
Definition BASE_INVADERS : Z := 1.
Definition INVADER_SCALING : Q := 3 # 2.
Definition BARBARIAN_BASE_HP : Z := 8.
Definition BARBARIAN_HP_SCALING : Z := 3.
Definition BARBARIAN_BASE_DAMAGE : Z := 2.
Definition BARBARIAN_DAMAGE_SCALING : Q := 1 # 2.
Definition INVADER_SPEED : Q := 12 # 10.
Definition ATTACK_COOLDOWN : Z := 3.

Record InvasionSystem := mkInvasion {
  invaders : list Invader;
  waveNumber : Z;
  ticksUntilNextWave : Z;
  inv_forumPos : Cell;
  warningActive : bool;
  activeWave : bool
}.

(** [new InvasionSystem(scene, forumPos)] *)
Definition newInvasionSystem (forumPos : Cell) : InvasionSystem :=
  mkInvasion [] 0 FIRST_WAVE_DELAY forumPos false false.

Definition setInvaders (sys : InvasionSystem) (invs : list Invader) : InvasionSystem :=
  mkInvasion invs (waveNumber sys) (ticksUntilNextWave sys) (inv_forumPos sys)
             (warningActive sys) (activeWave sys).

(** *** computePath *)

(** The [reachedForum] flag: [curr] is one of the forum's footprint cells. *)
Definition reachedForum (target curr : Cell) : bool :=
  existsb (λ c : Cell, bool_decide (curr.1 = c.1) && bool_decide (curr.2 = c.2))
          (footprint target.1 target.2 (def_size (BUILDINGS forum))).

(** The local array [dirs]. *)
Definition pathDirs (curr : Cell) : list Cell :=
  [(curr.1 + 1, curr.2); (curr.1 - 1, curr.2);
   (curr.1, curr.2 + 1); (curr.1, curr.2 - 1)].

(** One iteration of [for (const next of dirs)], on the queue and the
    [visited] map (cell to parent, [null] for the start).  The wall branch
    and the ordinary branch are both kept, as in the source. *)
Definition expand (g : Grid) (curr : Cell)
    (st : list Cell * gmap Cell (option Cell)) (next : Cell)
    : list Cell * gmap Cell (option Cell) :=
  if bool_decide (is_Some (st.2 !! next)) then st
  else if negb (isInBounds g next.1 next.2) then st
  else
    match getTile g next.1 next.2 with
    | Some tile =>
        if bool_decide (building tile = Some wall)
        then (st.1 ++ [next], <[next := Some curr]> st.2)
        else (st.1 ++ [next], <[next := Some curr]> st.2)
    | None => (st.1 ++ [next], <[next := Some curr]> st.2)
    end.

(** [while (node) { path.unshift(node); node = visited.get(key) || null }] *)
Fixpoint reconstruct (fuel : nat) (visited : gmap Cell (option Cell))
    (node : Cell) (path : list Cell) : option (list Cell) :=
  match fuel with
  | O => None
  | S fuel =>
      match visited !! node with
      | Some (Some parent) => reconstruct fuel visited parent (node :: path)
      | _ => Some (node :: path)
      end
  end.

Inductive SearchResult :=
  | OutOfFuel
  | NoPath
  | Found (path : list Cell).

(** The [while (queue.length > 0)] loop of [computePath]. *)
Fixpoint search (fuel : nat) (g : Grid) (target : Cell) (queue : list Cell)
    (visited : gmap Cell (option Cell)) : SearchResult :=
  match queue with
  | [] => NoPath
  | curr :: queue =>
      match fuel with
      | O => OutOfFuel
      | S fuel =>
          if reachedForum target curr
          then match reconstruct (size visited) visited curr [] with
               | Some path => Found path
               | None => OutOfFuel
               end
          else
            let st := foldl (expand g curr) (queue, visited) (pathDirs curr) in
            search fuel g target st.1 st.2
      end
  end.

(** Every cell enters the queue at most once, so the loop body runs at most
    [size * size + 1] times. *)
Definition computePath_fuel (g : Grid) : nat :=
  S (S (Z.to_nat (grid_size g) * Z.to_nat (grid_size g))).

Definition setPath (inv : Invader) (p : list Cell) (idx tx tz : Z) : Invader :=
  mkInvader (inv_x inv) (inv_z inv) tx tz (inv_progress inv) (inv_hp inv)
            (maxHp inv) (damage inv) (inv_state inv) (attackCooldown inv) p idx.

(** [computePath] mutates the invader; [None] only if the search ran out
    of fuel. *)
Definition computePath (forumPos : Cell) (invader : Invader) (g : Grid)
    : option Invader :=
  let start := (inv_x invader, inv_z invader) in
  match search (computePath_fuel g) g forumPos [start] {[start := None]} with
  | OutOfFuel => None
  | Found p =>
      Some (match p !! 1%nat with
            | Some c => setPath invader p 1 c.1 c.2
            | None => setPath invader p 1 (inv_targetX invader) (inv_targetZ invader)
            end)
  | NoPath =>
      Some (setPath invader [start; (forumPos.1, forumPos.2)] 1 forumPos.1 forumPos.2)
  end.

(** *** spawnWave *)

(** The [switch (edge)] of [spawnWave]. *)
Definition spawnCell (edge offset : Z) : Cell :=
  if edge =? 0 then (offset, 0)
  else if edge =? 1 then (offset, GRID_SIZE - 1)
  else if edge =? 2 then (GRID_SIZE - 1, offset)
  else if edge =? 3 then (0, offset)
  else (0, 0).

(** [Math.floor(BASE_INVADERS + waveNumber * INVADER_SCALING)] *)
Definition waveCount (w : Z) : Z :=
  Qfloor (inject_Z BASE_INVADERS + inject_Z w * INVADER_SCALING).

(** [BARBARIAN_BASE_HP + waveNumber * BARBARIAN_HP_SCALING] *)
Definition waveHp (w : Z) : Z := BARBARIAN_BASE_HP + w * BARBARIAN_HP_SCALING.

(** [Math.floor(BARBARIAN_BASE_DAMAGE + waveNumber * BARBARIAN_DAMAGE_SCALING)] *)
Definition waveDamage (w : Z) : Z :=
  Qfloor (inject_Z BARBARIAN_BASE_DAMAGE + inject_Z w * BARBARIAN_DAMAGE_SCALING).

(** One iteration of the spawn loop: a draw for the offset, the new
    invader, its path.  The state is the invader list and the index of the
    next random draw. *)
Definition spawnOne (rng : Rng) (forumPos : Cell) (g : Grid) (w edge : Z)
    (st : option (list Invader * nat)) (i : Z) : option (list Invader * nat) :=
  st ← st;
  let spread := GRID_SIZE / 4 in
  let center := GRID_SIZE / 2 in
  let offset := center - spread / 2 + randomBelow rng st.2 spread in
  let s := spawnCell edge offset in
  let hp := waveHp w in
  let invader :=
    mkInvader s.1 s.2 s.1 s.2 0 hp hp (waveDamage w) moving 0 [] 0 in
  invader ← computePath forumPos invader g;
  Some (st.1 ++ [invader], S st.2).

(** [spawnWave]: returns the invader list and the next draw index. *)
Definition spawnWave (rng : Rng) (sys : InvasionSystem) (g : Grid) (k : nat)
    : option (list Invader * nat) :=
  let count := waveCount (waveNumber sys) in
  let edge := randomBelow rng k 4 in
  foldl (spawnOne rng (inv_forumPos sys) g (waveNumber sys) edge)
        (Some (invaders sys, S k)) (seqZ 0 count).

(** *** attackBuilding and tick *)

Inductive AttackResult :=
  | ForumDestroyed
  | BuildingDestroyed (x z : Z) (type : BuildingType)
  | BuildingDamaged (x z : Z) (hpRatio : Q).

(** [attackBuilding]: the tile under the invader loses [inv.damage] hit
    points. *)
Definition attackBuilding (inv : Invader) (g : Grid)
    : Grid * option AttackResult :=
  match getTile g (inv_x inv) (inv_z inv) with
  | None => (g, None)
  | Some tile =>
      match building tile with
      | None => (g, None)
      | Some type =>
          let def := BUILDINGS type in
          let hp := buildingHp tile - damage inv in
          let g := modifyTile g (inv_x inv) (inv_z inv)
                     (λ t, setBuilding (building t) (buildingHp t - damage inv) t) in
          if hp <=? 0 then
            if bool_decide (type = forum) then (g, Some ForumDestroyed)
            else (g, Some (BuildingDestroyed (inv_x inv) (inv_z inv) type))
          else
            (g, Some (BuildingDamaged (inv_x inv) (inv_z inv)
                        (inject_Z hp / inject_Z (def_hp def))))
      end
  end.

(** The object returned by [tick]; [forumDestroyed] is [false] when the
    optional field is absent. *)
Record TickResult := mkResult {
  buildingsDestroyed : list (Z * Z * BuildingType);
  forumDestroyed : bool;
  damages : list (Z * Z * Q)
}.

Definition setCooldown (inv : Invader) (cd : Z) : Invader :=
  mkInvader (inv_x inv) (inv_z inv) (inv_targetX inv) (inv_targetZ inv)
            (inv_progress inv) (inv_hp inv) (maxHp inv) (damage inv)
            (inv_state inv) cd (path inv) (pathIndex inv).

Definition setState (inv : Invader) (s : InvaderState) : Invader :=
  mkInvader (inv_x inv) (inv_z inv) (inv_targetX inv) (inv_targetZ inv)
            (inv_progress inv) (inv_hp inv) (maxHp inv) (damage inv)
            s (attackCooldown inv) (path inv) (pathIndex inv).

Definition setHp (inv : Invader) (h : Z) : Invader :=
  mkInvader (inv_x inv) (inv_z inv) (inv_targetX inv) (inv_targetZ inv)
            (inv_progress inv) h (maxHp inv) (damage inv)
            (inv_state inv) (attackCooldown inv) (path inv) (pathIndex inv).

(** The state of the attack loop: the grid, the result object so far and
    the invaders already handled. *)
Record AttackLoop := mkLoop {
  loop_grid : Grid;
  loop_result : option TickResult;
  loop_invaders : list Invader
}.

(** One iteration of [for (const inv of this.invaders)] in [tick]. *)
Definition attackStep (forumPos : Cell) (st : option AttackLoop) (inv : Invader)
    : option AttackLoop :=
  st ← st;
  let g := loop_grid st in
  let result := loop_result st in
  let handled := loop_invaders st in
  if bool_decide (inv_state inv = attacking) then
    let cd := attackCooldown inv - 1 in
    if cd <=? 0 then
      let inv := setCooldown inv ATTACK_COOLDOWN in
      match attackBuilding inv g with
      | (g, None) => Some (mkLoop g result (handled ++ [inv]))
      | (g, Some dmg) =>
          let r := default (mkResult [] false []) result in
          match dmg with
          | ForumDestroyed =>
              Some (mkLoop g
                      (Some (mkResult (buildingsDestroyed r) true (damages r)))
                      (handled ++ [inv]))
          | BuildingDestroyed x z type =>
              inv ← computePath forumPos (setState inv moving) g;
              Some (mkLoop g
                      (Some (mkResult (buildingsDestroyed r ++ [(x, z, type)])
                                      (forumDestroyed r) (damages r)))
                      (handled ++ [inv]))
          | BuildingDamaged x z ratio =>
              Some (mkLoop g
                      (Some (mkResult (buildingsDestroyed r) (forumDestroyed r)
                                      (damages r ++ [(x, z, ratio)])))
                      (handled ++ [inv]))
          end
      end
    else Some (mkLoop g result (handled ++ [setCooldown inv cd]))
  else Some (mkLoop g result (handled ++ [inv])).

(** [InvasionSystem.tick]: the new system, the grid, the next draw index
    and the returned object. *)
Definition Invasion_tick (rng : Rng) (sys : InvasionSystem) (g : Grid) (k : nat)
    : option (InvasionSystem * Grid * nat * option TickResult) :=
  let ticks := ticksUntilNextWave sys - 1 in
  let warning := (ticks <=? 5) && (0 <? ticks) in
  '(invs, wave, ticks, k) ←
    (if ticks <=? 0 then
       '(invs, k) ← spawnWave rng sys g k;
       let wave := waveNumber sys + 1 in
       Some (invs, wave,
             Z.max MIN_WAVE_INTERVAL (BASE_WAVE_INTERVAL - wave * WAVE_ACCELERATION),
             k)
     else Some (invaders sys, waveNumber sys, ticks, k));
  st ← foldl (attackStep (inv_forumPos sys)) (Some (mkLoop g None [])) invs;
  let invs := filter (λ inv, inv_state inv ≠ dead) (loop_invaders st) in
  Some (mkInvasion invs wave ticks (inv_forumPos sys) warning
                   (bool_decide (invs ≠ [])),
        loop_grid st, k, loop_result st).

(** [findNearestInvader]: [range] is a number or [Infinity]. *)
Inductive Range := Finite (r : Z) | Infinity.

Definition withinRange (dist : Z) (range : Range) : bool :=
  match range with
  | Finite r => dist <=? r
  | Infinity => true
  end.

(** The result carries the index of the invader in [invaders], which stands
    for the object reference that callers mutate. *)
Definition findNearestInvader (invs : list Invader) (x z : Z) (range : Range)
    : option (nat * Invader) :=
  snd <$>
  foldl (λ (nearest : option (Z * (nat * Invader))) (e : nat * Invader),
           if bool_decide (inv_state e.2 = dead) then nearest
           else
             let dist := Z.abs (inv_x e.2 - x) + Z.abs (inv_z e.2 - z) in
             if withinRange dist range
                && match nearest with
                   | Some (nearestDist, _) => dist <? nearestDist
                   | None => true
                   end
             then Some (dist, e)
             else nearest)
        None (imap (λ i inv, (i, inv)) invs).

(** [damageInvader] *)
Definition damageInvader (invader : Invader) (dmg : Z) : Invader :=
  let invader := setHp invader (inv_hp invader - dmg) in
  if inv_hp invader <=? 0 then setState invader dead else invader.

(** [InvasionSystem.update] for one invader: a frame of [dt] seconds. *)
Definition Invader_update (dt : Q) (g : Grid) (inv : Invader) : Invader :=
  if bool_decide (inv_state inv ≠ moving) then inv
  else
    let progress := (inv_progress inv + dt * INVADER_SPEED)%Q in
    if Qle_bool 1 progress then
      let x := inv_targetX inv in
      let z := inv_targetZ inv in
      let arrived :=
        mkInvader x z x z 0 (inv_hp inv) (maxHp inv) (damage inv)
                  (inv_state inv) (attackCooldown inv) (path inv) (pathIndex inv) in
      let blocked :=
        match getTile g x z with
        | Some tile =>
            match building tile with
            | Some b => bool_decide (b ≠ road)
            | None => false
            end
        | None => false
        end in
      if blocked then setCooldown (setState arrived attacking) 1
      else
        let idx := pathIndex inv + 1 in
        match nthZ (path inv) idx with
        | Some c => setPath arrived (path inv) idx c.1 c.2
        | None => setPath arrived (path inv) idx x z
        end
    else
      mkInvader (inv_x inv) (inv_z inv) (inv_targetX inv) (inv_targetZ inv)
                progress (inv_hp inv) (maxHp inv) (damage inv)
                (inv_state inv) (attackCooldown inv) (path inv) (pathIndex inv).

(** ** systems/WalkerSystem.ts *)

Inductive WalkerType := water | food | soldier | farmer.

#[global] Instance WalkerType_eq_dec : EqDecision WalkerType.
Proof. solve_decision. Defined.

(** [Walker] without its mesh. *)
Record Walker := mkWalker {
  w_type : WalkerType;
  gridX : Z;
  gridZ : Z;
  w_targetX : Z;
  w_targetZ : Z;
  prevX : Z;
  prevZ : Z;
  w_progress : Q;
  lifespan : Z;
  w_hp : Z;
  homeX : Z;
  homeZ : Z
}.

Definition WALKER_SPEED : Q := 2.
Definition WALKER_LIFESPAN : Z := 30.
Definition SOLDIER_PATROL_RADIUS : Z := 4.
Definition DIRECTIONS : list (Z * Z) := [(1, 0); (-1, 0); (0, 1); (0, -1)].
Definition SERVICE_DURATION : Z := 10.

Definition setTarget (w : Walker) (tx tz : Z) : Walker :=
  mkWalker (w_type w) (gridX w) (gridZ w) tx tz (prevX w) (prevZ w)
           (w_progress w) (lifespan w) (w_hp w) (homeX w) (homeZ w).

(** [findAdjacentEmptyTile]: the perimeter candidates, then a random pick
    or the building origin. *)
Definition isEmptyAt (g : Grid) (c : Cell) : bool :=
  isInBounds g c.1 c.2
  && match getTile g c.1 c.2 with
     | Some tile => bool_decide (building tile = None)
     | None => false
     end.

Definition emptyPerimeter (g : Grid) (x z size : Z) : list Cell :=
  filter (λ c : Cell, isEmptyAt g c = true)
         (dx ← seqZ (-1) (size + 2);
          dz ← seqZ (-1) (size + 2);
          if (0 <=? dx) && (dx <? size) && (0 <=? dz) && (dz <? size)
          then [] else [(x + dx, z + dz)]).

Definition findAdjacentEmptyTile (rng : Rng) (k : nat) (g : Grid) (x z size : Z)
    : option (Cell * nat) :=
  let candidates := emptyPerimeter g x z size in
  if bool_decide (candidates ≠ [])
  then c ← randomPick rng k candidates; Some (c, S k)
  else Some ((x, z), k).

(** [spawn]: the walker list and the next draw index. *)
Definition Walker_spawn (rng : Rng) (k : nat) (walkers : list Walker)
    (type : WalkerType) (x z : Z) (g : Grid) (buildingSize : Z)
    : option (list Walker * nat) :=
  let roads := getAdjacentRoadTiles g x z buildingSize in
  let push (startPos : Cell) :=
    walkers ++ [mkWalker type startPos.1 startPos.2 startPos.1 startPos.2 x z 0
                         WALKER_LIFESPAN
                         (if bool_decide (type = soldier) then 20 else 15) x z] in
  if bool_decide (roads ≠ []) then
    startPos ← randomPick rng k roads; Some (push startPos, S k)
  else if bool_decide (type = soldier) then
    '(startPos, k) ← findAdjacentEmptyTile rng k g x z buildingSize;
    Some (push startPos, k)
  else Some (walkers, k).

(** [walkers.filter(w => w.type === t)] *)
Definition ofType (t : WalkerType) (ws : list Walker) : list Walker :=
  filter (λ w : Walker, w_type w = t) ws.

(** [WalkerSystem.tick]: age every walker, drop the expired ones. *)
Definition Walker_tick (walkers : list Walker) : list Walker :=
  filter (λ w, 0 < lifespan w)
         ((λ w, mkWalker (w_type w) (gridX w) (gridZ w) (w_targetX w) (w_targetZ w)
                         (prevX w) (prevZ w) (w_progress w) (lifespan w - 1)
                         (w_hp w) (homeX w) (homeZ w)) <$> walkers).

Definition isSoldierWalkable (g : Grid) (x z : Z) : bool :=
  if negb (isInBounds g x z) then false
  else match getTile g x z with
       | None => false
       | Some tile =>
           bool_decide (building tile = None)
           || bool_decide (building tile = Some road)
           || bool_decide (building tile = Some forum)
       end.

Definition moveSoldierToward (walker : Walker) (tx tz : Z) (g : Grid) : Walker :=
  let dx := Z.sgn (tx - gridX walker) in
  let dz := Z.sgn (tz - gridZ walker) in
  let optX := if bool_decide (dx ≠ 0) then [(gridX walker + dx, gridZ walker)] else [] in
  let optZ := if bool_decide (dz ≠ 0) then [(gridX walker, gridZ walker + dz)] else [] in
  let options : list Cell :=
    if Z.abs (tz - gridZ walker) <=? Z.abs (tx - gridX walker)
    then optX ++ optZ else optZ ++ optX in
  match list_find (λ opt : Cell, isSoldierWalkable g opt.1 opt.2 = true) options with
  | Some (_, opt) => setTarget walker opt.1 opt.2
  | None => setTarget walker (gridX walker) (gridZ walker)
  end.

Definition soldierPatrol (rng : Rng) (k : nat) (walker : Walker) (g : Grid)
    : option (Walker * nat) :=
  let candidates : list Cell :=
    filter (λ n : Cell,
              ¬ (n.1 = prevX walker ∧ n.2 = prevZ walker) ∧
              isSoldierWalkable g n.1 n.2 = true ∧
              Z.abs (n.1 - homeX walker) + Z.abs (n.2 - homeZ walker)
                ≤ SOLDIER_PATROL_RADIUS)
           ((λ d : Z * Z, (gridX walker + d.1, gridZ walker + d.2)) <$> DIRECTIONS) in
  if bool_decide (candidates ≠ []) then
    pick ← randomPick rng k candidates;
    Some (setTarget walker pick.1 pick.2, S k)
  else if isSoldierWalkable g (prevX walker) (prevZ walker)
  then Some (setTarget walker (prevX walker) (prevZ walker), k)
  else Some (setTarget walker (gridX walker) (gridZ walker), k).

(** [chooseNextTile]: the walker with its new target and the next draw
    index. *)
Definition chooseNextTile (rng : Rng) (k : nat) (walker : Walker) (g : Grid)
    (invasionSystem : option InvasionSystem) : option (Walker * nat) :=
  if bool_decide (w_type walker = soldier) then
    let target :=
      match invasionSystem with
      | Some sys =>
          if bool_decide (invaders sys ≠ [])
          then findNearestInvader (invaders sys) (gridX walker) (gridZ walker) Infinity
          else None
      | None => None
      end in
    match target with
    | Some (_, t) => Some (moveSoldierToward walker (inv_x t) (inv_z t) g, k)
    | None => soldierPatrol rng k walker g
    end
  else
    let neighbors :=
      filter (λ n : Cell, ¬ (n.1 = prevX walker ∧ n.2 = prevZ walker))
             (getRoadNeighbors g (gridX walker) (gridZ walker)) in
    if bool_decide (neighbors = []) then
      let allNeighbors := getRoadNeighbors g (gridX walker) (gridZ walker) in
      if bool_decide (allNeighbors ≠ [])
      then Some (setTarget walker (prevX walker) (prevZ walker), k)
      else Some (setTarget walker (gridX walker) (gridZ walker), k)
    else
      pick ← randomPick rng k neighbors;
      Some (setTarget walker pick.1 pick.2, S k).

(** [serviceNearbyHouses]: refresh the matching countdown of every house
    on the walker's cell or next to it. *)
Definition serviceTile (type : WalkerType) (tile : Tile) : Tile :=
  if bool_decide (building tile = Some house) then
    match type with
    | water =>
        mkTile (tile_x tile) (tile_z tile) (building tile) (buildingHp tile)
               (hasWater tile) (hasFood tile) SERVICE_DURATION (foodTimer tile)
    | food =>
        mkTile (tile_x tile) (tile_z tile) (building tile) (buildingHp tile)
               (hasWater tile) (hasFood tile) (waterTimer tile) SERVICE_DURATION
    | _ => tile
    end
  else tile.

Definition serviceNearbyHouses (walker : Walker) (g : Grid) : Grid :=
  sweep (serviceTile (w_type walker)) g
        ((λ d : Z * Z, (gridX walker + d.1, gridZ walker + d.2))
           <$> [(0, 0); (1, 0); (-1, 0); (0, 1); (0, -1)]).

(** [WalkerSystem.update] for one walker: a frame of [dt] seconds.  Only an
    arrival ([progress >= 1]) touches the grid or draws. *)
Definition Walker_update1 (rng : Rng) (dt : Q)
    (invasionSystem : option InvasionSystem)
    (st : option (Grid * list Walker * nat)) (w : Walker)
    : option (Grid * list Walker * nat) :=
  '(g, handled, k) ← st;
  let progress := (w_progress w + dt * WALKER_SPEED)%Q in
  if Qle_bool 1 progress then
    let w := mkWalker (w_type w) (w_targetX w) (w_targetZ w)
                      (w_targetX w) (w_targetZ w) (gridX w) (gridZ w) 0
                      (lifespan w) (w_hp w) (homeX w) (homeZ w) in
    let g := serviceNearbyHouses w g in
    '(w, k) ← chooseNextTile rng k w g invasionSystem;
    Some (g, handled ++ [w], k)
  else
    Some (g,
          handled ++ [mkWalker (w_type w) (gridX w) (gridZ w) (w_targetX w)
                               (w_targetZ w) (prevX w) (prevZ w) progress
                               (lifespan w) (w_hp w) (homeX w) (homeZ w)],
          k).

Definition Walker_update (rng : Rng) (k : nat) (dt : Q) (walkers : list Walker)
    (g : Grid) (invasionSystem : option InvasionSystem)
    : option (Grid * list Walker * nat) :=
  foldl (Walker_update1 rng dt invasionSystem) (Some (g, [], k)) walkers.

(** ** systems/CombatSystem.ts *)

Definition SOLDIER_DAMAGE : Z := 4.
Definition SOLDIER_ENGAGE_RANGE : Z := 5.

Definition setWalkerHp (w : Walker) (h : Z) : Walker :=
  mkWalker (w_type w) (gridX w) (gridZ w) (w_targetX w) (w_targetZ w)
           (prevX w) (prevZ w) (w_progress w) (lifespan w) h (homeX w) (homeZ w).

(** One soldier of [CombatSystem.update].  The walkers are rebuilt in
    order: a soldier whose hit points run out is the one spliced out, every
    other walker is kept. *)
Definition combatStep (st : list Invader * list Walker) (w : Walker)
    : list Invader * list Walker :=
  if bool_decide (w_type w ≠ soldier) then (st.1, st.2 ++ [w])
  else
    match findNearestInvader st.1 (gridX w) (gridZ w) (Finite SOLDIER_ENGAGE_RANGE) with
    | None => (st.1, st.2 ++ [w])
    | Some (i, target) =>
        let dist := Z.abs (gridX w - inv_x target) + Z.abs (gridZ w - inv_z target) in
        if dist <=? 1 then
          let target := setHp target (inv_hp target - SOLDIER_DAMAGE) in
          let w := setWalkerHp w (w_hp w - damage target) in
          let target := if inv_hp target <=? 0 then setState target dead else target in
          (<[i := target]> st.1, if w_hp w <=? 0 then st.2 else st.2 ++ [w])
        else (st.1, st.2 ++ [w])
    end.

Definition Combat_update (walkers : list Walker) (invs : list Invader)
    : list Invader * list Walker :=
  foldl combatStep (invs, []) walkers.

(** ** Game.ts *)

Definition WELL_SPAWN_INTERVAL : Z := 4.
Definition MARKET_SPAWN_INTERVAL : Z := 4.
Definition BARRACKS_SPAWN_INTERVAL : Z := 6.
Definition FARM_SPAWN_INTERVAL : Z := 5.

Record ResourceState := mkRes {
  res_gold : Z;
  res_food : Q;
  population : Z;
  maxPopulation : Z
}.

Record ScoreState := mkScore {
  peakPopulation : Z;
  wavesSurvived : Z;
  totalGoldEarned : Z
}.

(** The simulation fields of [Game].  [draws] is the index of the next
    [Math.random()] draw. *)
Record Game := mkGame {
  grid : Grid;
  placedBuildings : list PlacedBuilding;
  walkers : list Walker;
  invasionSystem : InvasionSystem;
  resources : ResourceState;
  score : ScoreState;
  tickCount : Z;
  reachableRoads : gset Cell;
  roadsDirty : bool;
  forumPos : Cell;
  gameOver : bool;
  draws : nat
}.

(** The two nested loops [for (x = 0; x < GRID_SIZE; x++)
    for (z = 0; z < GRID_SIZE; z++)]. *)
Definition allCells : list Cell := footprint 0 0 GRID_SIZE.

#[global] Arguments allCells : simpl never.

(** [cleanGhostTiles] *)
Definition cleanGhostTiles (bs : list PlacedBuilding) (g : Grid) : Grid :=
  foldl (λ (g : Grid) (c : Cell),
           match getTile g c.1 c.2 with
           | None => g
           | Some tile =>
               if bool_decide (building tile = None) then g
               else if existsb (λ b, covers b c.1 c.2) bs then g
               else modifyTile g c.1 c.2 (setBuilding None 0)
           end)
        g allCells.

(** [rebuildRoadNetwork]: the cleaned grid and the reachable set. *)
Definition rebuildRoadNetwork (bs : list PlacedBuilding) (g : Grid)
    (forumPos : Cell) : option (Grid * gset Cell) :=
  let g := cleanGhostTiles bs g in
  reachable ←
    foldl (λ (acc : option (gset Cell)) (c : Cell),
             acc ← acc;
             roads ← floodFillRoads g c.1 c.2;
             Some (acc ∪ roads))
          (Some ∅)
          (footprint forumPos.1 forumPos.2 (def_size (BUILDINGS forum)));
  Some (g, reachable).

(** *** simulationTick *)

(** [grid.getTile(x, z)?.building !== type] *)
Definition buildingDiffers (g : Grid) (x z : Z) (type : BuildingType) : bool :=
  match getTile g x z with
  | Some tile => bool_decide (building tile ≠ Some type)
  | None => true
  end.

(** The [isOrigin] test: no tile of the same kind to the left or above. *)
Definition isOrigin (g : Grid) (type : BuildingType) (x z : Z) : bool :=
  ((x =? 0) || buildingDiffers g (x - 1) z type)
  && ((z =? 0) || buildingDiffers g x (z - 1) type).

(** The countdown ageing at the head of the scan loop. *)
Definition ageTile (tile : Tile) : Tile :=
  let wt := if 0 <? waterTimer tile then waterTimer tile - 1 else waterTimer tile in
  let ft := if 0 <? foodTimer tile then foodTimer tile - 1 else foodTimer tile in
  mkTile (tile_x tile) (tile_z tile) (building tile) (buildingHp tile)
         (0 <? wt) (0 <? ft) wt ft.

Record Scan := mkScan {
  sc_grid : Grid;
  sc_foodProduction : Z;
  sc_wells : list Cell;
  sc_markets : list Cell;
  sc_barracks : list Cell;
  sc_farms : list Cell;
  sc_towers : list Cell
}.

(** One iteration of the scan loop at cell [c]. *)
Definition scanStep (reachable : gset Cell) (sc : Scan) (c : Cell) : Scan :=
  match getTile (sc_grid sc) c.1 c.2 with
  | None => sc
  | Some tile =>
      let g := modifyTile (sc_grid sc) c.1 c.2 ageTile in
      let isKind (type : BuildingType) := bool_decide (building tile = Some type) in
      let activeFarm :=
        isKind farm && isOrigin g farm c.1 c.2
        && isBuildingConnected g c.1 c.2 (def_size (BUILDINGS farm)) reachable in
      mkScan g
        (if activeFarm then sc_foodProduction sc + FARM_FOOD_RATE
         else sc_foodProduction sc)
        (if isKind well && isBuildingConnected g c.1 c.2 1 reachable
         then sc_wells sc ++ [c] else sc_wells sc)
        (if isKind market && isBuildingConnected g c.1 c.2 1 reachable
         then sc_markets sc ++ [c] else sc_markets sc)
        (if isKind barracks && isOrigin g barracks c.1 c.2
         then sc_barracks sc ++ [c] else sc_barracks sc)
        (if activeFarm then sc_farms sc ++ [c] else sc_farms sc)
        (if isKind tower then sc_towers sc ++ [c] else sc_towers sc)
  end.

(** One spawn loop: [for (const b of cells) if (fire) spawn(type, b.x, b.z,
    grid, size)]. *)
Definition spawnFrom (rng : Rng) (type : WalkerType) (size : Z) (fire : bool)
    (g : Grid) (cells : list Cell) (st : option (list Walker * nat))
    : option (list Walker * nat) :=
  foldl (λ (st : option (list Walker * nat)) (c : Cell),
           st ← st;
           if fire then Walker_spawn rng st.2 st.1 type c.1 c.2 g size
           else Some st)
        st cells.

(** [food > 0] *)
Definition Qpositive (q : Q) : bool := negb (Qle_bool q 0).

(** The four spawn loops, in source order.  [tick] is the tick counter
    after its increment, [foodStock] the food after this tick's production
    and consumption. *)
Definition spawnPhase (rng : Rng) (tick : Z) (foodStock : Q) (sc : Scan)
    (g : Grid) (ws : list Walker) (k : nat) : option (list Walker * nat) :=
  let st := Some (ws, k) in
  let st := spawnFrom rng water 1
              (Z.rem tick WELL_SPAWN_INTERVAL =? 0) g (sc_wells sc) st in
  let st := spawnFrom rng food 1
              ((Z.rem tick MARKET_SPAWN_INTERVAL =? 0) && Qpositive foodStock)
              g (sc_markets sc) st in
  let st := spawnFrom rng soldier (def_size (BUILDINGS barracks))
              (Z.rem tick BARRACKS_SPAWN_INTERVAL =? 0) g (sc_barracks sc) st in
  spawnFrom rng farmer (def_size (BUILDINGS farm))
            (Z.rem tick FARM_SPAWN_INTERVAL =? 0) g (sc_farms sc) st.

(** The tower loop: each tower damages its nearest invader in range. *)
Definition towersFire (towers : list Cell) (invs : list Invader) : list Invader :=
  foldl (λ (invs : list Invader) (t : Cell),
           match findNearestInvader invs t.1 t.2 (Finite TOWER_RANGE) with
           | Some (i, target) => <[i := damageInvader target TOWER_DAMAGE]> invs
           | None => invs
           end)
        invs towers.

(** The capacity loop: [MAX_POP_PER_HOUSE] per house with both services. *)
Definition countMaxPop (g : Grid) : Z :=
  foldl (λ (maxPop : Z) (c : Cell),
           match getTile g c.1 c.2 with
           | Some tile =>
               if bool_decide (building tile = Some house)
                  && hasWater tile && hasFood tile
               then maxPop + MAX_POP_PER_HOUSE else maxPop
           | None => maxPop
           end)
        0 allCells.

(** The population adjustment. *)
Definition adjustPopulation (pop maxPop : Z) (foodStock : Q) : Z :=
  if maxPop <? pop then Z.max maxPop (pop - GROWTH_RATE)
  else if Qle_bool foodStock 0 && (0 <? pop) then Z.max 0 (pop - GROWTH_RATE)
  else if Qpositive foodStock && (pop <? maxPop) then Z.min (pop + GROWTH_RATE) maxPop
  else pop.

(** The loop over [invasionResult.buildingsDestroyed]. *)
Definition removeDestroyed (bs : list PlacedBuilding) (g : Grid)
    (destroyed : list (Z * Z * BuildingType)) : list PlacedBuilding * Grid :=
  foldl (λ (st : list PlacedBuilding * Grid) (d : Z * Z * BuildingType),
           removeBuildingAt st.1 st.2 d.1.1 d.1.2)
        (bs, g) destroyed.

(** The scan loop over the whole grid. *)
Definition scanGrid (reachable : gset Cell) (g : Grid) : Scan :=
  foldl (scanStep reachable) (mkScan g 0 [] [] [] [] []) allCells.

#[global] Arguments scanGrid : simpl never.

(** [this.resources.food += foodProduction - foodConsumption] *)
Definition foodAfter (res : ResourceState) (sc : Scan) : Q :=
  (res_food res
   + (inject_Z (sc_foodProduction sc) - inject_Z (population res) * FOOD_PER_POP))%Q.

(** [if (this.roadsDirty) this.rebuildRoadNetwork()] *)
Definition tickPrepare (gm : Game) : option (Grid * gset Cell) :=
  if roadsDirty gm
  then rebuildRoadNetwork (placedBuildings gm) (grid gm) (forumPos gm)
  else Some (grid gm, reachableRoads gm).

(** The part of [simulationTick] after the invasion tick: game over on a
    destroyed forum, otherwise removal of destroyed buildings, combat,
    towers, capacity, population, tax and score.  [ws] are the walkers
    after [walkerSystem.tick()], [g] the grid after the invasion tick. *)
Definition tickResolve (gm : Game) (reachable : gset Cell) (sc : Scan)
    (foodStock : Q) (ws : list Walker) (sys : InvasionSystem) (g : Grid)
    (k : nat) (result : option TickResult) : Game :=
  let tick := tickCount gm + 1 in
  let res := resources gm in
  if match result with Some r => forumDestroyed r | None => false end then
    (* handleGameOver(); return; *)
    mkGame g (placedBuildings gm) ws sys
           (mkRes (res_gold res) foodStock (population res) (maxPopulation res))
           (score gm) tick reachable false (forumPos gm) true k
  else
    let destroyed :=
      match result with Some r => buildingsDestroyed r | None => [] end in
    let removed := removeDestroyed (placedBuildings gm) g destroyed in
    let bs := removed.1 in
    let g := removed.2 in
    let dirty := bool_decide (destroyed ≠ []) in
    let fought := Combat_update ws (invaders sys) in
    let invs := towersFire (sc_towers sc) fought.1 in
    let ws := fought.2 in
    let sys := setInvaders sys invs in
    let maxPop := countMaxPop g in
    let pop := adjustPopulation (population res) maxPop foodStock in
    let taxIncome := pop * TAX_RATE in
    mkGame g bs ws sys
           (mkRes (res_gold res + taxIncome) foodStock pop maxPop)
           (mkScore (Z.max (peakPopulation (score gm)) pop)
                    (waveNumber sys)
                    (totalGoldEarned (score gm) + taxIncome))
           tick reachable dirty (forumPos gm) false k.

Definition simulationTick (rng : Rng) (gm : Game) : option Game :=
  if gameOver gm then Some gm
  else
    '(g, reachable) ← tickPrepare gm;
    let sc := scanGrid reachable g in
    let foodStock := foodAfter (resources gm) sc in
    '(ws, k) ← spawnPhase rng (tickCount gm + 1) foodStock sc (sc_grid sc)
                          (walkers gm) (draws gm);
    let ws := Walker_tick ws in
    '(sys, g, k, result) ← Invasion_tick rng (invasionSystem gm) (sc_grid sc) k;
    Some (tickResolve gm reachable sc foodStock ws sys g k result).

(** [n] simulation ticks in a row. *)
Fixpoint run (rng : Rng) (n : nat) (gm : Game) : option Game :=
  match n with
  | O => Some gm
  | S n => gm ← simulationTick rng gm; run rng n gm
  end.

(** *** Construction, start, restart and the build commands *)

(** The fields set by the [Game] constructor and its initialisers. *)
Definition newGame : Game :=
  mkGame (newGrid GRID_SIZE) [] [] (newInvasionSystem (0, 0))
         (mkRes STARTING_GOLD 0 0 0) (mkScore 0 0 0)
         0 ∅ true (0, 0) false 0%nat.

(** The common tail of [start] and [restart]: the forum is placed at the
    centre (its cost is 0, so the funds passed do not matter), the invasion
    system is recreated and the road network rebuilt. *)
Definition placeForum (gm : Game) : option Game :=
  let center := GRID_SIZE / 2 - 1 in
  let '(_, (bs, g, _)) :=
    place (placedBuildings gm) (grid gm) forum center center 0 in
  '(g, reachable) ← rebuildRoadNetwork bs g (center, center);
  Some (mkGame g bs (walkers gm) (newInvasionSystem (center, center))
               (mkRes STARTING_GOLD (res_food (resources gm))
                      (population (resources gm)) (maxPopulation (resources gm)))
               (score gm) (tickCount gm) reachable false (center, center)
               (gameOver gm) (draws gm)).

Definition start (gm : Game) : option Game := placeForum gm.

Definition restart (gm : Game) : option Game :=
  placeForum
    (mkGame (newGrid GRID_SIZE) [] [] (setInvaders (invasionSystem gm) [])
            (mkRes STARTING_GOLD 0 0 0) (mkScore 0 0 0)
            0 (reachableRoads gm) (roadsDirty gm) (forumPos gm) false (draws gm)).

(** [tryPlace] with [selectedBuilding = Some type]. *)
Definition tryPlace (gm : Game) (type : BuildingType) (x z : Z) : bool * Game :=
  let '(placed, (bs, g, gold)) :=
    place (placedBuildings gm) (grid gm) type x z (res_gold (resources gm)) in
  if placed then
    (true,
     mkGame g bs (walkers gm) (invasionSystem gm)
            (mkRes gold (res_food (resources gm)) (population (resources gm))
                   (maxPopulation (resources gm)))
            (score gm) (tickCount gm) (reachableRoads gm)
            (roadsDirty gm || bool_decide (type = road))
            (forumPos gm) (gameOver gm) (draws gm))
  else (false, gm).

(** [demolishAt] *)
Definition demolishAt (gm : Game) (x z : Z) : Game :=
  match getTile (grid gm) x z with
  | None => gm
  | Some tile =>
      if bool_decide (building tile = None) then gm
      else
        let '(bs, g) := removeBuildingAt (placedBuildings gm) (grid gm) x z in
        mkGame g bs (walkers gm) (invasionSystem gm) (resources gm) (score gm)
               (tickCount gm) (reachableRoads gm) true (forumPos gm)
               (gameOver gm) (draws gm)
  end.

(** [TICK_INTERVAL], the seconds between two simulation ticks. *)
Definition TICK_INTERVAL : Q := 2.

(** [loop]: one animation frame of [dt] seconds of a game that is not
    paused.  The private field [tickAccumulator] is carried next to the
    game.  A tick runs when two seconds have accumulated; then, unless the
    game is over, the walkers and the invaders move. *)
Definition loop (rng : Rng) (dt : Q) (st : Game * Q) : option (Game * Q) :=
  let acc := (st.2 + dt)%Q in
  '(gm, acc) ←
    (if Qle_bool TICK_INTERVAL acc
     then gm ← simulationTick rng st.1; Some (gm, (acc - TICK_INTERVAL)%Q)
     else Some (st.1, acc));
  if gameOver gm then Some (gm, acc)
  else
    '(g, ws, k) ← Walker_update rng (draws gm) dt (walkers gm) (grid gm)
                                (Some (invasionSystem gm));
    let invs := Invader_update dt g <$> invaders (invasionSystem gm) in
    Some (mkGame g (placedBuildings gm) ws (setInvaders (invasionSystem gm) invs)
                 (resources gm) (score gm) (tickCount gm) (reachableRoads gm)
                 (roadsDirty gm) (forumPos gm) (gameOver gm) k,
          acc).

(** [n] frames of [dt] seconds in a row, from a zero accumulator. *)
Definition frames (rng : Rng) (dt : Q) (n : nat) (gm : Game) : option Game :=
  fst <$> Nat.iter n (λ st, st ≫= loop rng dt) (Some (gm, 0%Q)).

(** ** systems/SaveSystem.ts and the save/load methods of Game.ts *)

Definition SAVE_VERSION : Z := 1.

Record SaveData := mkSave {
  sv_version : Z;
  sv_timestamp : Z;
  sv_grid : list (list TileData);
  sv_resources : ResourceState;
  sv_score : ScoreState;
  sv_tickCount : Z;
  sv_waveNumber : Z;
  sv_ticksUntilNextWave : Z
}.

(** [SaveSystem.save]: the object handed to [JSON.stringify]; [now] is
    [Date.now()]. *)
Definition SaveSystem_save (now : Z) (g : Grid) (res : ResourceState)
    (sc : ScoreState) (tick : Z) (waveNumber ticksUntilNextWave : Z) : SaveData :=
  mkSave SAVE_VERSION now (Grid_toJSON g) res sc tick waveNumber ticksUntilNextWave.

(** [SaveSystem.load] on the stored object, if any. *)
Definition SaveSystem_load (stored : option SaveData) : option SaveData :=
  data ← stored;
  if bool_decide (sv_version data ≠ SAVE_VERSION) then None else Some data.

(** [Game.doSave] *)
Definition doSave (now : Z) (gm : Game) : SaveData :=
  SaveSystem_save now (grid gm) (resources gm) (score gm) (tickCount gm)
                  (waveNumber (invasionSystem gm))
                  (ticksUntilNextWave (invasionSystem gm)).

(** The forum search of [loadFromSave]: the last origin tile found wins. *)
Definition findForum (g : Grid) (forumPos : Cell) : Cell :=
  foldl (λ (pos : Cell) (c : Cell),
           match getTile g c.1 c.2 with
           | Some tile =>
               if bool_decide (building tile = Some forum) && isOrigin g forum c.1 c.2
               then c else pos
           | None => pos
           end)
        forumPos allCells.

(** One iteration of the record rebuild of [loadFromSave], on the [visited]
    set and the records. *)
Definition rebuildStep (g : Grid) (st : gset Cell * list PlacedBuilding) (c : Cell)
    : gset Cell * list PlacedBuilding :=
  match getTile g c.1 c.2 with
  | None => st
  | Some tile =>
      match building tile with
      | None => st
      | Some type =>
          if bool_decide (c ∈ st.1) then st
          else
            let def := BUILDINGS type in
            if 1 <? def_size def then
              if negb (isOrigin g type c.1 c.2) then st
              else (list_to_set (footprint c.1 c.2 (def_size def)) ∪ st.1,
                    placeFromSave st.2 type c.1 c.2)
            else (st.1, placeFromSave st.2 type c.1 c.2)
      end
  end.

(** The record rebuild loop of [loadFromSave] on a new [BuildingSystem]. *)
Definition rebuiltRecords (g : Grid) : list PlacedBuilding :=
  (foldl (rebuildStep g) (∅, []) allCells).2.

(** [Game.loadFromSave], called on the game object [gm]. *)
Definition loadFromSave (gm : Game) (saveData : SaveData) : option Game :=
  let g := Grid_fromJSON (sv_grid saveData) in
  let forumPos := findForum g (forumPos gm) in
  let bs := rebuiltRecords g in
  let sys0 := newInvasionSystem forumPos in
  let sys := mkInvasion (invaders sys0) (sv_waveNumber saveData)
                        (sv_ticksUntilNextWave saveData) forumPos
                        (warningActive sys0) (activeWave sys0) in
  '(g, reachable) ← rebuildRoadNetwork bs g forumPos;
  Some (mkGame g bs (walkers gm) sys (sv_resources saveData) (sv_score saveData)
               (sv_tickCount saveData) reachable false forumPos
               (gameOver gm) (draws gm)).

(** * Specification vocabulary *)

(** [c] is a cell of the grid. *)
Definition inGrid (g : Grid) (c : Cell) : Prop := isInBounds g c.1 c.2 = true.

(** [b] is one of the four neighbours of [a]. *)
Definition adjacent (a b : Cell) : Prop := b ∈ pathDirs a.

(** Consecutive cells of [p] are 4-directional neighbours. *)
Definition walk (p : list Cell) : Prop :=
  ∀ (i : nat) (a b : Cell), p !! i = Some a → p !! S i = Some b → adjacent a b.

(** [p] is a 4-directional route from [s] to the forum footprint at
    [target] whose cells after the first all lie on the grid. *)
Definition route (g : Grid) (target s : Cell) (p : list Cell) : Prop :=
  p !! 0%nat = Some s ∧
  walk p ∧
  (∀ (i : nat) (c : Cell), p !! S i = Some c → inGrid g c) ∧
  ∃ e, last p = Some e ∧ reachedForum target e = true.

(** The Manhattan distance between two cells. *)
Definition manhattan (a b : Cell) : Z := Z.abs (a.1 - b.1) + Z.abs (a.2 - b.2).

(** [c] lies on the [size]-by-[size] board of [g]. *)
Definition onGrid (g : Grid) (c : Cell) : Prop :=
  0 ≤ c.1 < grid_size g ∧ 0 ≤ c.2 < grid_size g.

(** [c] is one of the four cells of the 2-by-2 forum whose origin is
    [forumPos]. *)
Definition inForum (forumPos c : Cell) : Prop :=
  forumPos.1 ≤ c.1 ≤ forumPos.1 + 1 ∧ forumPos.2 ≤ c.2 ≤ forumPos.2 + 1.

(** [p] is a 4-directional path from [s] to the forum footprint: it starts
    at [s], consecutive cells are at Manhattan distance 1, every cell after
    the first lies on the board, and the last cell is a forum cell.
    Buildings play no part. *)
Definition forumRoute (g : Grid) (forumPos s : Cell) (p : list Cell) : Prop :=
  p !! 0%nat = Some s ∧
  (∀ (i : nat) (a b : Cell), p !! i = Some a → p !! S i = Some b → manhattan a b = 1) ∧
  (∀ (i : nat) (c : Cell), p !! S i = Some c → onGrid g c) ∧
  ∃ e, last p = Some e ∧ inForum forumPos e.

(** The invariant of the search loop of [computePath].  [dep] is the depth
    at which each cell was discovered; it is not program state. *)
Record bfs_inv (g : Grid) (target s : Cell) (dep : Cell → nat)
    (queue : list Cell) (visited : gmap Cell (option Cell)) : Prop := mkBfsInv {
  bi_nodup : NoDup queue;
  bi_queue : ∀ c, c ∈ queue → is_Some (visited !! c);
  bi_start : visited !! s = Some None ∧ dep s = 0%nat;
  bi_parent : ∀ c, is_Some (visited !! c) → c ≠ s →
    ∃ p, visited !! c = Some (Some p) ∧ is_Some (visited !! p) ∧
         adjacent p c ∧ inGrid g c ∧ dep c = S (dep p);
  bi_levels : ∃ (k : nat) (A B : list Cell),
    queue = A ++ B ∧
    (∀ c, c ∈ A → dep c = k) ∧ (∀ c, c ∈ B → dep c = S k) ∧
    (∀ c, is_Some (visited !! c) → c ∉ queue → (dep c ≤ k)%nat);
  bi_closed : ∀ p c, is_Some (visited !! p) → p ∉ queue →
    adjacent p c → inGrid g c → is_Some (visited !! c);
  bi_nogoal : ∀ p, is_Some (visited !! p) → p ∉ queue →
    reachedForum target p = false;
  bi_lip : ∀ p c, is_Some (visited !! p) → p ∉ queue →
    is_Some (visited !! c) → adjacent p c → (dep c ≤ S (dep p))%nat;
  bi_small : ∀ c, is_Some (visited !! c) → (dep c < size visited)%nat
}.

(** The cells of the grid as a finite set. *)
Definition gridCells (g : Grid) : gset Cell :=
  list_to_set (footprint 0 0 (grid_size g)).

(** The cells of [cells] that have a road or forum tile next to them, where
    a walker of a 1x1 building can start. *)
Definition roadside (g : Grid) (cells : list Cell) : nat :=
  length (filter (λ c : Cell, getAdjacentRoadTiles g c.1 c.2 1 ≠ []) cells).

(** Every forum tile of the grid has hit points left. *)
Definition forumAlive (g : Grid) : Prop :=
  ∀ (x z : Z) (tile : Tile),
    getTile g x z = Some tile → building tile = Some forum → 0 < buildingHp tile.

(** Every forum tile of [g'] is a forum tile of [g] with the same hit
    points. *)
Definition forumKept (g g' : Grid) : Prop :=
  ∀ (x z : Z) (tile' : Tile),
    getTile g' x z = Some tile' → building tile' = Some forum →
    ∃ tile, getTile g x z = Some tile ∧ building tile = Some forum ∧
            buildingHp tile = buildingHp tile'.

(** The [forumDestroyed] flag of the object returned by the invasion tick. *)
Definition signalsForumDestroyed (result : option TickResult) : bool :=
  match result with
  | Some r => forumDestroyed r
  | None => false
  end.

(** The tile at [c] holds a building of kind [type]. *)
Definition isKindAt (g : Grid) (type : BuildingType) (c : Cell) : bool :=
  match getTile g c.1 c.2 with
  | Some tile => bool_decide (building tile = Some type)
  | None => false
  end.

(** [g'] has the size of [g] and the same building kind and hit points on
    every tile. *)
Definition sameBuildings (g g' : Grid) : Prop :=
  grid_size g' = grid_size g ∧
  ∀ x z : Z,
    (λ t, (building t, buildingHp t)) <$> getTile g' x z
    = (λ t, (building t, buildingHp t)) <$> getTile g x z.

(** The cells whose tile holds a 1x1 building of kind [type] that
    [isBuildingConnected] accepts, in the order of the scan loop. *)
Definition connectedCells (g : Grid) (reachable : gset Cell)
    (type : BuildingType) : list Cell :=
  filter (λ c : Cell,
            isKindAt g type c && isBuildingConnected g c.1 c.2 1 reachable)
         allCells.

(** The grid is square: [size] rows of [size] tiles, as the constructor
    builds it. *)
Definition squareGrid (g : Grid) : Prop :=
  grid_size g = Z.of_nat (length (tiles g)) ∧
  Forall (λ row : list Tile, length row = length (tiles g)) (tiles g).

#[global] Instance squareGrid_dec g : Decision (squareGrid g).
Proof. unfold squareGrid. apply _. Defined.

(** What [cleanGhostTiles] does to the tile at [(x, z)]. *)
Definition cleanTile (bs : list PlacedBuilding) (x z : Z) (tile : Tile) : Tile :=
  if bool_decide (building tile = None) then tile
  else if existsb (λ b, covers b x z) bs then tile
  else setBuilding None 0 tile.

(** The cells linked to [s] by a chain of neighbouring road or forum
    tiles; [s] itself when it is such a tile. *)
Inductive roadLinked (g : Grid) (s : Cell) : Cell → Prop :=
  | linked_start : isRoadOrForumAt g s = true → roadLinked g s s
  | linked_step (c d : Cell) :
      roadLinked g s c → adjacent c d → isRoadOrForumAt g d = true →
      roadLinked g s d.

(** The Manhattan distance from an invader to the cell [(x, z)]. *)
Definition distTo (inv : Invader) (x z : Z) : Z :=
  Z.abs (inv_x inv - x) + Z.abs (inv_z inv - z).

(** The walker [w] with [n] ticks less to live. *)
Definition ageWalker (n : Z) (w : Walker) : Walker :=
  mkWalker (w_type w) (gridX w) (gridZ w) (w_targetX w) (w_targetZ w)
           (prevX w) (prevZ w) (w_progress w) (lifespan w - n)
           (w_hp w) (homeX w) (homeZ w).

(** [n] scan loops in a row, as [n] ticks run them when nothing else
    touches the grid. *)
Definition scans (reachable : gset Cell) (n : nat) (g : Grid) : Grid :=
  Nat.iter n (λ g, sc_grid (scanGrid reachable g)) g.

(** [inv'] is [inv] after some blows: it is where it was, with no more
    hit points than before, and its state is the same unless it died. *)
Definition hurt (inv inv' : Invader) : Prop :=
  inv_x inv' = inv_x inv ∧ inv_z inv' = inv_z inv ∧
  inv_targetX inv' = inv_targetX inv ∧ inv_targetZ inv' = inv_targetZ inv ∧
  maxHp inv' = maxHp inv ∧ damage inv' = damage inv ∧
  path inv' = path inv ∧ pathIndex inv' = pathIndex inv ∧
  inv_hp inv' ≤ inv_hp inv ∧
  (inv_state inv' = inv_state inv ∨ inv_state inv' = dead ∧ inv_hp inv' ≤ 0).

(** The hit points of all invaders together. *)
Definition totalHp (invs : list Invader) : Z :=
  foldr (λ inv s, inv_hp inv + s) 0 invs.

(** [g'] has the size of [g] and the same building kind on every tile. *)
Definition sameKinds (g g' : Grid) : Prop :=
  grid_size g' = grid_size g ∧
  ∀ x z : Z, building <$> getTile g' x z = building <$> getTile g x z.

(** An invader that steps onto [c] stops there to attack: the tile holds
    a building other than a road. *)
Definition blocksInvader (g : Grid) (c : Cell) : bool :=
  match getTile g c.1 c.2 with
  | Some tile =>
      match building tile with
      | Some b => bool_decide (b ≠ road)
      | None => false
      end
  | None => false
  end.

(** The tile at [c] is a house supplied with both water and food. *)
Definition isServedHouse (g : Grid) (c : Cell) : bool :=
  match getTile g c.1 c.2 with
  | Some tile =>
      bool_decide (building tile = Some house) && hasWater tile && hasFood tile
  | None => false
  end.

(** The served houses of the 32 by 32 area. *)
Definition servedHouses (g : Grid) : list Cell :=
  filter (λ c : Cell, isServedHouse g c) allCells.

(** The tile at [c] holds a building of kind [type]. *)
Definition holds (g : Grid) (type : BuildingType) (c : Cell) : Prop :=
  ∃ tile, getTile g c.1 c.2 = Some tile ∧ building tile = Some type.

(** The tile at [c] is a road tile or a forum tile. *)
Definition roadAt (g : Grid) (c : Cell) : Prop := holds g road c ∨ holds g forum c.

(** A connected building of a 1x1 kind: [c] lies in the 32 by 32 area,
    its tile holds the kind, and one of the four cells at Manhattan
    distance 1 belongs to the reachable road set. *)
Definition connectedSite (g : Grid) (reachable : gset Cell) (type : BuildingType)
    (c : Cell) : Prop :=
  (0 ≤ c.1 < GRID_SIZE ∧ 0 ≤ c.2 < GRID_SIZE) ∧ holds g type c ∧
  ∃ d : Cell, manhattan c d = 1 ∧ d ∈ reachable.

(** A connected building from which a walker can set out: one of the four
    cells at Manhattan distance 1 holds a road or forum tile. *)
Definition spawnSite (g : Grid) (reachable : gset Cell) (type : BuildingType)
    (c : Cell) : Prop :=
  connectedSite g reachable type c ∧ ∃ d : Cell, manhattan c d = 1 ∧ roadAt g d.

(** The kind of building on the tile at [c], if any. *)
Definition tileKind (g : Grid) (c : Cell) : option BuildingType :=
  getTile g c.1 c.2 ≫= building.

(** The cells of the building record [b]: the square of its kind's size at
    its origin. *)
Definition cellsOf (b : PlacedBuilding) : list Cell :=
  footprint (pb_x b) (pb_z b) (def_size (BUILDINGS (pb_type b))).

#[global] Instance PlacedBuilding_eq_dec : EqDecision PlacedBuilding.
Proof. solve_decision. Defined.

(** The building records describe the grid: no record occurs twice; the
    cells of every record lie in the 32 by 32 area and hold its kind;
    every tile of the area that holds a building is a cell of some record;
    and two different records share no cell. *)
Definition recordsMatch (bs : list PlacedBuilding) (g : Grid) : Prop :=
  NoDup bs ∧
  Forall (λ b, Forall (λ c, c ∈ allCells ∧ tileKind g c = Some (pb_type b))
                      (cellsOf b)) bs ∧
  Forall (λ c, tileKind g c = None ∨ Exists (λ b, c ∈ cellsOf b) bs) allCells ∧
  Forall (λ b1, Forall (λ b2, b1 = b2 ∨ Forall (λ c, c ∉ cellsOf b2) (cellsOf b1))
                       bs) bs.

#[global] Instance recordsMatch_dec bs g : Decision (recordsMatch bs g).
Proof. unfold recordsMatch. apply _. Defined.

(** No building larger than one tile has a tile of its own kind directly
    west or directly north of its origin tile. *)
Definition originsClear (bs : list PlacedBuilding) (g : Grid) : Prop :=
  Forall (λ b, 1 < def_size (BUILDINGS (pb_type b)) →
               tileKind g (pb_x b - 1, pb_z b) ≠ Some (pb_type b) ∧
               tileKind g (pb_x b, pb_z b - 1) ≠ Some (pb_type b)) bs.

#[global] Instance originsClear_dec bs g : Decision (originsClear bs g).
Proof. unfold originsClear. apply _. Defined.

(** The order in which the two nested loops over the grid meet the cells. *)
Definition scannedBefore (a b : Cell) : Prop :=
  a.1 < b.1 ∨ (a.1 = b.1 ∧ a.2 < b.2).

#[global] Instance scannedBefore_dec a b : Decision (scannedBefore a b).
Proof. unfold scannedBefore. apply _. Defined.




(** No cell is covered by two records of [bs], none of which occurs
    twice. *)
Definition separate (bs : list PlacedBuilding) : Prop :=
  NoDup bs ∧
  ∀ (b1 b2 : PlacedBuilding) (x z : Z), b1 ∈ bs → b2 ∈ bs →
    covers b1 x z = true → covers b2 x z = true → b1 = b2.



(** The game [gm] with another resource state. *)
Definition withResources (gm : Game) (res : ResourceState) : Game :=
  mkGame (grid gm) (placedBuildings gm) (walkers gm) (invasionSystem gm) res
         (score gm) (tickCount gm) (reachableRoads gm) (roadsDirty gm)
         (forumPos gm) (gameOver gm) (draws gm).

(** The origin cells of the farms that [isBuildingConnected] accepts, in
    the order of the scan loop. *)
Definition activeFarms (g : Grid) (reachable : gset Cell) : list Cell :=
  filter (λ c : Cell,
            isKindAt g farm c && isOrigin g farm c.1 c.2
            && isBuildingConnected g c.1 c.2 (def_size (BUILDINGS farm)) reachable)
         allCells.

(** [forumAlive] as a check over the stored rows. *)
Definition forumAliveb (g : Grid) : bool :=
  forallb (forallb (λ tile : Tile,
                      if bool_decide (building tile = Some forum)
                      then 0 <? buildingHp tile else true))
          (tiles g).

(** * Example states *)

(** A 3-by-3 grid whose only building is a road tile at (1, 0). *)
Definition roadGrid : Grid :=
  modifyTile (newGrid 3) 1 0 (setBuilding (Some road) 10).

(** [roadGrid] with a house at (0, 1). *)
Definition houseGrid : Grid :=
  modifyTile roadGrid 0 1 (setBuilding (Some house) 20).

(** A water walker standing at (0, 0), where it also came from. *)
Definition arrivedWalker : Walker :=
  mkWalker water 0 0 0 0 0 0 0 WALKER_LIFESPAN 15 0 1.

(** The game right after [start]: the forum at the centre of an empty
    grid. *)
Definition startedGame : Game := default newGame (start newGame).

(** The started game late in a siege: the forum's origin tile is down to
    2 hit points and a first-wave barbarian (damage 2) stands on it, due
    to strike. *)
Definition besiegedGame : Game :=
  let gm := startedGame in
  mkGame (modifyTile (grid gm) 15 15 (setBuilding (Some forum) 2))
         (placedBuildings gm) (walkers gm)
         (setInvaders (invasionSystem gm)
            [mkInvader 15 15 15 15 0 8 8 2 attacking 1 [] 0])
         (resources gm) (score gm) (tickCount gm) (reachableRoads gm)
         (roadsDirty gm) (forumPos gm) (gameOver gm) (draws gm).

(** The started game after two farms were placed side by side, at (0, 0)
    and (2, 0). *)
Definition twoFarmsGame : Game :=
  (tryPlace (tryPlace startedGame farm 0 0).2 farm 2 0).2.

(** A 3-by-3 grid with a cross of road tiles: the centre (1, 1) and its
    four neighbours. *)
Definition crossGrid : Grid :=
  sweep (setBuilding (Some road) 10) (newGrid 3)
        [(1, 1); (1, 0); (0, 1); (2, 1); (1, 2)].

(** A food walker that has just arrived at the centre of the cross, coming
    from (1, 0). *)
Definition crossWalker : Walker :=
  mkWalker food 1 1 1 1 1 0 0 WALKER_LIFESPAN 15 1 0.

(** A food walker that has just arrived at the end (1, 0) of an arm of the
    cross, coming from the centre. *)
Definition deadEndWalker : Walker :=
  mkWalker food 1 0 1 0 1 1 0 WALKER_LIFESPAN 15 1 0.

(** A food walker that has just arrived at the corner (0, 0), which has no
    road next to it, coming from (1, 0). *)
Definition cornerWalker : Walker :=
  mkWalker food 0 0 0 0 1 0 0 WALKER_LIFESPAN 15 1 0.

(** A soldier that has just arrived at the centre of the cross, coming
    from (1, 0), where its barracks is. *)
Definition crossSoldier : Walker :=
  mkWalker soldier 1 1 1 1 1 0 0 WALKER_LIFESPAN 20 1 0.

(** An invasion system with one barbarian, on the cell (2, 2). *)
Definition raid : InvasionSystem :=
  mkInvasion [mkInvader 2 2 2 2 0 8 8 2 moving 0 [] 0] 1 24 (0, 0) false true.

(** The player's clicks: the buildings of [plan] placed one after the
    other with [tryPlace]. *)
Definition placeAll (gm : Game) (plan : list (BuildingType * Z * Z)) : Game :=
  foldl (λ gm '(type, x, z), (tryPlace gm type x z).2) gm plan.

(** The game [gm] after [n] frames of two seconds each (one tick and one
    step of every walker and invader per frame), with draws that are all
    zero. *)
Definition after (n : nat) (gm : Game) : Game :=
  default gm (frames rng_zero 2 n gm).

(** A hamlet built right after the start: two road tiles west of the
    forum, a well and a market north of them and a house south of them. *)
Definition hamlet : Game :=
  placeAll startedGame
    [(road, 14, 15); (road, 13, 15); (well, 14, 14); (market, 13, 14);
     (house, 14, 16)].

(** The hamlet with a farm at the end of the road. *)
Definition town : Game := (tryPlace hamlet farm 11 15).2.

(** The town nine ticks on, when its ten inhabitants fill the house, with
    the house demolished. *)
Definition razedTown : Game := demolishAt (after 9 town) 14 16.

(** The same town with the farm demolished instead. *)
Definition fallowTown : Game := demolishAt (after 9 town) 11 15.


(** The started game with a road along the north side of the forum and two
    farms side by side on that road, at (11, 13) and (13, 13). *)
Definition twoFarmsTown : Game :=
  placeAll startedGame
    [(road, 14, 15); (road, 13, 15); (road, 12, 15); (road, 11, 15);
     (farm, 11, 13); (farm, 13, 13)].

(** * Verification *)

(** ** Grid access *)

Lemma elem_of_footprint (c : Cell) (x z size : Z) :
  c ∈ footprint x z size ↔
  ∃ dx dz, 0 ≤ dx < size ∧ 0 ≤ dz < size ∧ c = (x + dx, z + dz).
Proof.
  unfold footprint. rewrite list_elem_of_bind. split.
  - intros (dx & Hc & Hdx). apply list_elem_of_bind in Hc as (dz & Hc & Hdz).
    apply list_elem_of_singleton in Hc. apply elem_of_seqZ in Hdx, Hdz.
    exists dx, dz. repeat split; try lia; done.
  - intros (dx & dz & Hdx & Hdz & ->). exists dx. split.
    + apply list_elem_of_bind. exists dz. split; [by apply list_elem_of_singleton|].
      apply elem_of_seqZ. lia.
    + apply elem_of_seqZ. lia.
Qed.

Lemma isInBounds_spec (g : Grid) (x z : Z) :
  isInBounds g x z = true ↔ 0 ≤ x < grid_size g ∧ 0 ≤ z < grid_size g.
Proof. unfold isInBounds. rewrite !andb_true_iff. lia. Qed.

Lemma grid_size_modifyTile g x z f :
  grid_size (modifyTile g x z f) = grid_size g.
Proof. unfold modifyTile. by destruct (isInBounds g x z). Qed.

Lemma isInBounds_modifyTile g x z f x' z' :
  isInBounds (modifyTile g x z f) x' z' = isInBounds g x' z'.
Proof. unfold isInBounds. by rewrite grid_size_modifyTile. Qed.

Lemma getTile_out g x z : isInBounds g x z = false → getTile g x z = None.
Proof. unfold getTile. by intros ->. Qed.

(** Reading a tile after a mutation through [getTile]. *)
Lemma getTile_modifyTile g x z f x' z' :
  getTile (modifyTile g x z f) x' z' =
  if decide ((x, z) = (x', z')) then f <$> getTile g x' z' else getTile g x' z'.
Proof.
  unfold getTile at 1. rewrite isInBounds_modifyTile.
  destruct (isInBounds g x' z') eqn:Hin'.
  2:{ rewrite getTile_out by done. by case_decide. }
  unfold modifyTile. destruct (isInBounds g x z) eqn:Hin.
  2:{ case_decide as Heq; [|by unfold getTile; rewrite Hin'].
      injection Heq as -> ->. congruence. }
  apply isInBounds_spec in Hin, Hin'. unfold getTile.
  replace (isInBounds g x' z') with true by (symmetry; by apply isInBounds_spec).
  simpl. rewrite list_lookup_alter.
  destruct (decide (Z.to_nat x = Z.to_nat x')) as [Hx|Hx].
  - assert (x = x') as <- by lia.
    destruct (tiles g !! Z.to_nat x) as [row|] eqn:Hrow; simpl.
    2:{ by case_decide. }
    rewrite list_lookup_alter.
    destruct (decide (Z.to_nat z = Z.to_nat z')) as [Hz|Hz].
    + assert (z = z') as <- by lia. by rewrite decide_True.
    + rewrite decide_False; [done|]. intros [= ?]. lia.
  - rewrite decide_False; [done|]. intros [= ? ?]. lia.
Qed.

Lemma getTile_modifyTile_eq g x z f :
  getTile (modifyTile g x z f) x z = f <$> getTile g x z.
Proof. rewrite getTile_modifyTile. by rewrite decide_True. Qed.

Lemma sweep_cons f g c cs :
  sweep f g (c :: cs) = sweep f (modifyTile g c.1 c.2 f) cs.
Proof. reflexivity. Qed.

Lemma grid_size_sweep f cs g : grid_size (sweep f g cs) = grid_size g.
Proof.
  revert g. induction cs as [|c cs IH]; intros g; [done|].
  rewrite sweep_cons, IH. apply grid_size_modifyTile.
Qed.

Lemma getTile_sweep_notin f cs g x z :
  (x, z) ∉ cs → getTile (sweep f g cs) x z = getTile g x z.
Proof.
  revert g. induction cs as [|[cx cz] cs IH]; intros g Hnot; [done|].
  apply not_elem_of_cons in Hnot as [Hne Hnot].
  rewrite sweep_cons, IH by done. simpl.
  rewrite getTile_modifyTile. by rewrite decide_False by congruence.
Qed.

(** With an idempotent mutation, every swept cell reads [f] of the
    original tile, however often the sweep meets it. *)
Lemma getTile_sweep_in f cs g x z :
  (∀ t, f (f t) = f t) →
  (x, z) ∈ cs → getTile (sweep f g cs) x z = f <$> getTile g x z.
Proof.
  intros Hidem. revert g. induction cs as [|[cx cz] cs IH]; intros g Hin.
  { by apply elem_of_nil in Hin. }
  rewrite sweep_cons. simpl. destruct (decide ((x, z) ∈ cs)) as [Hcs|Hcs].
  - rewrite IH by done. rewrite getTile_modifyTile.
    case_decide; [|done].
    destruct (getTile g x z); simpl; [|done]. by rewrite Hidem.
  - apply elem_of_cons in Hin as [[= <- <-]|?]; [|done].
    rewrite getTile_sweep_notin by done. apply getTile_modifyTile_eq.
Qed.

(** ** BuildingSystem.canPlace and BuildingSystem.place *)

Lemma setBuilding_idem b h t : setBuilding b h (setBuilding b h t) = setBuilding b h t.
Proof. reflexivity. Qed.

Lemma cellFree_spec g (c : Cell) :
  cellFree g c = true ↔
  isInBounds g c.1 c.2 = true ∧ ∃ t, getTile g c.1 c.2 = Some t ∧ building t = None.
Proof.
  unfold cellFree. destruct (isInBounds g c.1 c.2); simpl.
  2:{ split; [done|]. by intros [? _]. }
  destruct (getTile g c.1 c.2) as [t|].
  - rewrite bool_decide_eq_true. split; [eauto|]. by intros [_ (? & [= <-] & ?)].
  - split; [done|]. by intros [_ (? & ? & _)].
Qed.

Lemma canPlace_spec g type x z :
  canPlace g type x z = true ↔
  ∀ dx dz, 0 ≤ dx < def_size (BUILDINGS type) →
           0 ≤ dz < def_size (BUILDINGS type) →
    isInBounds g (x + dx) (z + dz) = true ∧
    ∃ t, getTile g (x + dx) (z + dz) = Some t ∧ building t = None.
Proof.
  unfold canPlace. rewrite List.forallb_forall. split.
  - intros H dx dz Hdx Hdz.
    apply (cellFree_spec g (x + dx, z + dz)), H, list_elem_of_In, elem_of_footprint.
    eauto.
  - intros H c (dx & dz & Hdx & Hdz & ->)%list_elem_of_In%elem_of_footprint.
    apply cellFree_spec. simpl. eauto.
Qed.

(** C1. [place] succeeds exactly when the funds cover the catalog cost and
    every footprint cell is in bounds and unoccupied; on success it takes
    exactly the cost from the funds, writes the kind and its catalog hit
    points on every footprint cell (leaving all other cells as they were)
    and records the building; on failure funds, grid and records are
    returned unchanged. *)
Theorem place_spec (bs : list PlacedBuilding) (g : Grid)
    (type : BuildingType) (x z gold : Z) :
  let def := BUILDINGS type in
  let inFootprint := λ cx cz : Z,
    x ≤ cx < x + def_size def ∧ z ≤ cz < z + def_size def in
  let ok := (place bs g type x z gold).1 in
  let bs' := (place bs g type x z gold).2.1.1 in
  let g' := (place bs g type x z gold).2.1.2 in
  let gold' := (place bs g type x z gold).2.2 in
  (ok = true ↔
     def_cost def ≤ gold ∧
     ∀ cx cz, inFootprint cx cz →
       isInBounds g cx cz = true ∧
       ∃ t, getTile g cx cz = Some t ∧ building t = None) ∧
  (ok = true →
     gold' = gold - def_cost def ∧
     (∀ cx cz, inFootprint cx cz →
        ∃ t, getTile g cx cz = Some t ∧
             getTile g' cx cz = Some (setBuilding (Some type) (def_hp def) t)) ∧
     (∀ cx cz, inFootprint cx cz →
        ∃ t', getTile g' cx cz = Some t' ∧
              building t' = Some type ∧ buildingHp t' = def_hp def) ∧
     (∀ cx cz, ¬ inFootprint cx cz → getTile g' cx cz = getTile g cx cz) ∧
     bs' = bs ++ [mkPlaced type x z]) ∧
  (ok = false → gold' = gold ∧ g' = g ∧ bs' = bs).
Proof.
  intros def inFootprint.
  assert (Hfp : ∀ cx cz, inFootprint cx cz ↔ (cx, cz) ∈ footprint x z (def_size def)).
  { intros cx cz. rewrite elem_of_footprint. unfold inFootprint. split.
    - intros [Hx Hz]. exists (cx - x), (cz - z). repeat split; try lia. f_equal; lia.
    - intros (dx & dz & Hdx & Hdz & [= -> ->]). lia. }
  assert (Hcan : canPlace g type x z = true ↔
            ∀ cx cz, inFootprint cx cz →
              isInBounds g cx cz = true ∧
              ∃ t, getTile g cx cz = Some t ∧ building t = None).
  { rewrite canPlace_spec. split.
    - intros H cx cz [Hx Hz].
      specialize (H (cx - x) (cz - z)).
      replace (x + (cx - x)) with cx in H by lia.
      replace (z + (cz - z)) with cz in H by lia. apply H; fold def; lia.
    - intros H dx dz Hdx Hdz. apply H. unfold inFootprint, def. lia. }
  unfold place. fold def.
  destruct (gold <? def_cost def) eqn:Hgold; simpl.
  { apply Z.ltb_lt in Hgold. split; [|done]. split; [done|]. intros [? _]. lia. }
  apply Z.ltb_ge in Hgold.
  destruct (canPlace g type x z) eqn:Hc; simpl.
  2:{ split; [|done]. split; [done|]. intros [_ H]. apply Hcan in H. done. }
  assert (Hall := proj1 Hcan eq_refl).
  split; [|split]; [| |done].
  { split; [|done]. intros _. split; [done|]. apply Hall. }
  intros _. split; [done|]. split; [|split; [|split]]; [| | |done].
  - intros cx cz Hin. destruct (Hall cx cz Hin) as [_ (t & Ht & _)].
    exists t. split; [done|].
    rewrite getTile_sweep_in; [by rewrite Ht| apply setBuilding_idem | by apply Hfp].
  - intros cx cz Hin. destruct (Hall cx cz Hin) as [_ (t & Ht & _)].
    exists (setBuilding (Some type) (def_hp def) t). split; [|done].
    rewrite getTile_sweep_in; [by rewrite Ht| apply setBuilding_idem | by apply Hfp].
  - intros cx cz Hout. apply getTile_sweep_notin. by rewrite <- Hfp.
Qed.

(** ** BuildingSystem.removeBuildingAt *)

Lemma covers_spec b x z :
  covers b x z = true ↔
  pb_x b ≤ x < pb_x b + def_size (BUILDINGS (pb_type b)) ∧
  pb_z b ≤ z < pb_z b + def_size (BUILDINGS (pb_type b)).
Proof. unfold covers. rewrite !andb_true_iff. lia. Qed.

Lemma elem_of_footprint_box (cx cz x z size : Z) :
  (cx, cz) ∈ footprint x z size ↔ x ≤ cx < x + size ∧ z ≤ cz < z + size.
Proof.
  rewrite elem_of_footprint. split.
  - intros (dx & dz & Hdx & Hdz & [= -> ->]). lia.
  - intros [Hx Hz]. exists (cx - x), (cz - z). repeat split; try lia. f_equal; lia.
Qed.

(** C2. [removeBuildingAt] picks the first record whose footprint contains
    the cell (containment, not origin equality), empties building kind and
    hit points on every cell of that record's footprint, touches no other
    cell and drops the record; when no record's footprint contains the
    cell, grid and records come back unchanged. *)
Theorem removeBuildingAt_spec (bs : list PlacedBuilding) (g : Grid) (x z : Z) :
  let contains := λ b : PlacedBuilding,
    pb_x b ≤ x < pb_x b + def_size (BUILDINGS (pb_type b)) ∧
    pb_z b ≤ z < pb_z b + def_size (BUILDINGS (pb_type b)) in
  let inFootprint := λ (b : PlacedBuilding) (cx cz : Z),
    pb_x b ≤ cx < pb_x b + def_size (BUILDINGS (pb_type b)) ∧
    pb_z b ≤ cz < pb_z b + def_size (BUILDINGS (pb_type b)) in
  let bs' := (removeBuildingAt bs g x z).1 in
  let g' := (removeBuildingAt bs g x z).2 in
  (∀ (idx : nat) (b : PlacedBuilding),
     bs !! idx = Some b → contains b →
     (∀ (j : nat) (b' : PlacedBuilding),
        bs !! j = Some b' → (j < idx)%nat → ¬ contains b') →
     bs' = delete idx bs ∧
     (∀ cx cz, inFootprint b cx cz →
        getTile g' cx cz = setBuilding None 0 <$> getTile g cx cz) ∧
     (∀ cx cz t', inFootprint b cx cz → getTile g' cx cz = Some t' →
        building t' = None ∧ buildingHp t' = 0) ∧
     (∀ cx cz, ¬ inFootprint b cx cz → getTile g' cx cz = getTile g cx cz)) ∧
  ((∀ b, b ∈ bs → ¬ contains b) → bs' = bs ∧ g' = g).
Proof.
  intros contains inFootprint. simpl. unfold removeBuildingAt.
  assert (Hcov : ∀ b, covers b x z = true ↔ contains b).
  { intros b. apply covers_spec. }
  split.
  - intros idx b Hb Hc Hfirst.
    assert (list_find (λ b, covers b x z = true) bs = Some (idx, b)) as ->.
    { apply list_find_Some. split; [done|]. split; [by apply Hcov|].
      intros j y Hy Hj Hy'. apply (Hfirst j y Hy Hj). by apply Hcov. }
    simpl. split; [done|].
    assert (Hget : ∀ cx cz, inFootprint b cx cz →
       getTile (sweep (setBuilding None 0) g
                  (footprint (pb_x b) (pb_z b) (def_size (BUILDINGS (pb_type b)))))
               cx cz = setBuilding None 0 <$> getTile g cx cz).
    { intros cx cz Hin. apply getTile_sweep_in; [apply setBuilding_idem|].
      by apply elem_of_footprint_box. }
    split; [done|]. split.
    + intros cx cz t' Hin Ht'. rewrite Hget in Ht' by done.
      destruct (getTile g cx cz); simplify_eq/=. done.
    + intros cx cz Hout. apply getTile_sweep_notin.
      by rewrite elem_of_footprint_box.
  - intros Hnone.
    assert (list_find (λ b, covers b x z = true) bs = None) as ->; [|done].
    apply list_find_None, Forall_forall. intros b Hb Hc.
    apply (Hnone b Hb). by apply Hcov.
Qed.

Lemma NoDup_footprint (x z size : Z) : NoDup (footprint x z size).
Proof.
  unfold footprint. apply NoDup_bind; [| |apply NoDup_seqZ].
  - intros dx1 dx2 c _ _ H1 H2.
    apply list_elem_of_bind in H1 as (dz1 & H1 & _), H2 as (dz2 & H2 & _).
    apply list_elem_of_singleton in H1, H2. subst c. injection H2. lia.
  - intros dx _. apply NoDup_bind; [| |apply NoDup_seqZ].
    + intros dz1 dz2 c _ _ H1 H2. apply list_elem_of_singleton in H1, H2.
      subst c. injection H2. lia.
    + intros dz _. apply NoDup_singleton.
Qed.

Lemma elem_of_allCells (c : Cell) :
  c ∈ allCells ↔ 0 ≤ c.1 < GRID_SIZE ∧ 0 ≤ c.2 < GRID_SIZE.
Proof.
  destruct c as [x z]. unfold allCells. rewrite elem_of_footprint_box.
  cbn [fst snd]. lia.
Qed.

Lemma NoDup_allCells : NoDup allCells.
Proof. apply NoDup_footprint. Qed.

(** ** Random draws *)

Lemma Qfloor_unique (x : Q) (i : Z) :
  (inject_Z i <= x)%Q → (x < inject_Z (i + 1))%Q → Qfloor x = i.
Proof.
  intros Hlo Hhi.
  pose proof (Qfloor_le x) as Hfl. pose proof (Qlt_floor x) as Hlt.
  assert (Qfloor x < i + 1).
  { rewrite Zlt_Qlt. eapply Qle_lt_trans; eauto. }
  assert (i < Qfloor x + 1).
  { rewrite Zlt_Qlt. eapply Qle_lt_trans; eauto. }
  lia.
Qed.

Lemma Qfloor_interval (x : Q) (i : Z) :
  Qfloor x = i ↔ (inject_Z i <= x)%Q ∧ (x < inject_Z (i + 1))%Q.
Proof.
  split.
  - intros <-. split; [apply Qfloor_le | apply Qlt_floor].
  - intros [? ?]. by apply Qfloor_unique.
Qed.

Lemma randomBelow_range (rng : Rng) (k : nat) (n : Z) :
  rng_ok rng → 0 < n → 0 ≤ randomBelow rng k n < n.
Proof.
  intros Hok Hn. destruct (Hok k) as [H0 H1]. unfold randomBelow.
  assert (Hn' : (0 < inject_Z n)%Q) by (unfold Qlt; simpl; lia).
  split.
  - change 0 with (Qfloor 0). apply Qfloor_resp_le.
    apply Qmult_le_0_compat; [done | by apply Qlt_le_weak].
  - rewrite Zlt_Qlt. eapply Qle_lt_trans; [apply Qfloor_le|].
    eapply Qlt_le_trans; [apply Qmult_lt_compat_r; eauto|].
    rewrite Qmult_1_l. apply Qle_refl.
Qed.

Lemma nthZ_Some {A} (l : list A) (i : Z) :
  0 ≤ i < Z.of_nat (length l) → ∃ x, nthZ l i = Some x ∧ l !! Z.to_nat i = Some x.
Proof.
  intros Hi. unfold nthZ. destruct (i <? 0) eqn:E; [lia|].
  destruct (lookup_lt_is_Some_2 l (Z.to_nat i)) as [x Hx]; [lia|]. eauto.
Qed.

(** With draws in [[0, 1)] a pick from a non-empty array is an element of
    the array, at the index [floor (r * length)]. *)
Lemma randomPick_Some {A} (rng : Rng) (k : nat) (l : list A) :
  rng_ok rng → l ≠ [] →
  ∃ x, randomPick rng k l = Some x ∧
       l !! Z.to_nat (randomBelow rng k (Z.of_nat (length l))) = Some x ∧
       0 ≤ randomBelow rng k (Z.of_nat (length l)) < Z.of_nat (length l).
Proof.
  intros Hok Hl. unfold randomPick.
  assert (0 < Z.of_nat (length l)) by (destruct l; [done | simpl; lia]).
  pose proof (randomBelow_range rng k _ Hok H) as Hr.
  destruct (nthZ_Some l _ Hr) as (x & Hx & Hx'). eauto.
Qed.

(** ** getRoadNeighbors and chooseNextTile *)

Lemma elem_of_getRoadNeighbors (g : Grid) (x z : Z) (c : Cell) :
  c ∈ getRoadNeighbors g x z ↔
  (c = (x + 1, z) ∨ c = (x - 1, z) ∨ c = (x, z + 1) ∨ c = (x, z - 1)) ∧
  ∃ tile, getTile g c.1 c.2 = Some tile ∧
          (building tile = Some road ∨ building tile = Some forum).
Proof.
  unfold getRoadNeighbors. rewrite list_elem_of_filter.
  assert (isRoadOrForumAt g c = true ↔
          ∃ tile, getTile g c.1 c.2 = Some tile ∧
                  (building tile = Some road ∨ building tile = Some forum)) as ->.
  { unfold isRoadOrForumAt, isRoadOrForum. destruct (getTile g c.1 c.2) as [t|].
    - rewrite orb_true_iff, !bool_decide_eq_true. split; [eauto|].
      by intros (? & [= <-] & ?).
    - split; [done|]. by intros (? & ? & _). }
  assert (c ∈ (λ d : Z * Z, (x + d.1, z + d.2)) <$> NEIGHBORS ↔
          (c = (x + 1, z) ∨ c = (x - 1, z) ∨ c = (x, z + 1) ∨ c = (x, z - 1))) as ->.
  { unfold NEIGHBORS. simpl.
    replace (x + -1) with (x - 1) by lia. replace (z + -1) with (z - 1) by lia.
    replace (x + 0) with x by lia. replace (z + 0) with z by lia.
    rewrite !elem_of_cons, elem_of_nil. tauto. }
  tauto.
Qed.

Lemma NoDup_getRoadNeighbors (g : Grid) (x z : Z) : NoDup (getRoadNeighbors g x z).
Proof.
  unfold getRoadNeighbors. apply NoDup_filter. unfold NEIGHBORS. simpl.
  repeat (apply NoDup_cons; split;
          [rewrite ?elem_of_cons, elem_of_nil; intros H;
           repeat destruct H as [H|H]; try done; injection H; lia|]).
  apply NoDup_nil_2.
Qed.

(** The choice of a non-soldier walker, with the new walker written as the
    update [setTarget] of the old one. *)
Lemma chooseNextTile_service_pick (rng : Rng) (k : nat) (walker : Walker)
    (g : Grid) (sys : option InvasionSystem) :
  rng_ok rng → w_type walker ≠ soldier →
  let here : Cell := (gridX walker, gridZ walker) in
  let prev : Cell := (prevX walker, prevZ walker) in
  let roads := getRoadNeighbors g (gridX walker) (gridZ walker) in
  let candidates := filter (λ c : Cell, c ≠ prev) roads in
  let n := Z.of_nat (length candidates) in
  ∃ (target : Cell) (k' : nat),
    chooseNextTile rng k walker g sys = Some (setTarget walker target.1 target.2, k') ∧
    (∀ c : Cell, c ∈ roads ↔
       (c = (here.1 + 1, here.2) ∨ c = (here.1 - 1, here.2) ∨
        c = (here.1, here.2 + 1) ∨ c = (here.1, here.2 - 1)) ∧
       ∃ tile, getTile g c.1 c.2 = Some tile ∧
               (building tile = Some road ∨ building tile = Some forum)) ∧
    (∀ c : Cell, c ∈ candidates ↔ c ∈ roads ∧ c ≠ prev) ∧
    (candidates ≠ [] →
       k' = S k ∧ target ∈ candidates ∧
       ∀ (i : nat) (c : Cell), candidates !! i = Some c →
         (target = c ↔
          (inject_Z (Z.of_nat i) <= rng k * inject_Z n)%Q ∧
          (rng k * inject_Z n < inject_Z (Z.of_nat i + 1))%Q)) ∧
    (candidates = [] → prev ∈ roads → target = prev ∧ k' = k) ∧
    (roads = [] → target = here ∧ k' = k).
Proof.
  intros Hok Hty here prev roads candidates n.
  assert (Hroads : ∀ c : Cell, c ∈ roads ↔
       (c = (here.1 + 1, here.2) ∨ c = (here.1 - 1, here.2) ∨
        c = (here.1, here.2 + 1) ∨ c = (here.1, here.2 - 1)) ∧
       ∃ tile, getTile g c.1 c.2 = Some tile ∧
               (building tile = Some road ∨ building tile = Some forum)).
  { intros c. apply elem_of_getRoadNeighbors. }
  assert (Hcands : ∀ c : Cell, c ∈ candidates ↔ c ∈ roads ∧ c ≠ prev).
  { intros c. unfold candidates. rewrite list_elem_of_filter. tauto. }
  assert (Hflt : filter (λ n : Cell, ¬ (n.1 = prevX walker ∧ n.2 = prevZ walker)) roads
                 = candidates).
  { unfold candidates. apply list_filter_iff. intros [cx cz]. unfold prev. simpl.
    split; intros H Hc; apply H; [injection Hc; auto | destruct Hc; congruence]. }
  unfold chooseNextTile. rewrite bool_decide_eq_false_2 by done.
  fold roads. rewrite Hflt.
  destruct (decide (candidates = [])) as [Hnil|Hne].
  - rewrite bool_decide_eq_true_2 by done.
    destruct (decide (roads = [])) as [Hr|Hr].
    + rewrite bool_decide_eq_false_2 by (intros H; by apply H).
      exists here, k. split; [done|]. split; [done|]. split; [done|].
      split; [done|]. split; [|done].
      intros _ Hin. rewrite Hr in Hin. by apply elem_of_nil in Hin.
    + rewrite bool_decide_eq_true_2 by done.
      exists prev, k. split; [done|]. split; [done|]. split; [done|].
      split; [done|]. split; [done|]. done.
  - rewrite bool_decide_eq_false_2 by done.
    destruct (randomPick_Some rng k candidates Hok Hne) as (pick & Hpick & Hidx & Hrange).
    rewrite Hpick. simpl. exists pick, (S k).
    split; [done|]. split; [done|]. split; [done|].
    split; [|split; [done|]].
    2:{ intros Hr. exfalso. apply Hne. unfold candidates. by rewrite Hr. }
    intros _. split; [done|]. split.
    { apply list_elem_of_lookup. eauto. }
    intros i c Hc. fold n in Hidx, Hrange.
    assert (Hnd : NoDup candidates).
    { unfold candidates. apply NoDup_filter, NoDup_getRoadNeighbors. }
    rewrite <- (Qfloor_interval (rng k * inject_Z n) (Z.of_nat i)).
    change (Qfloor (rng k * inject_Z n)) with (randomBelow rng k n).
    split.
    + intros ->.
      pose proof (NoDup_lookup _ _ _ _ Hnd Hidx Hc). lia.
    + intros Hi. rewrite Hi, Nat2Z.id in Hidx. congruence.
Qed.

(** C7. A non-soldier walker that arrives on a cell always gets a next
    target, read here from the fields [targetX], [targetZ] of the walker
    that [chooseNextTile] leaves; every other field of the walker is as
    before.  The road neighbours are the cells among the four neighbours
    of the current cell whose tile holds a road or the forum; the
    candidates are those other than the cell the walker came from.  With
    [n >= 1] candidates one draw is used and the candidate at index [i] is
    the target exactly when the draw [r] satisfies [i <= r * n < i + 1], an
    interval of width [1/n] for every candidate.  With no candidate the
    walker turns back to the previous cell when that cell is a road
    neighbour, and its target is the current cell when there is no road
    neighbour at all; neither case draws. *)
Theorem chooseNextTile_service (rng : Rng) (k : nat) (walker : Walker)
    (g : Grid) (sys : option InvasionSystem) :
  rng_ok rng → w_type walker ≠ soldier →
  let here : Cell := (gridX walker, gridZ walker) in
  let prev : Cell := (prevX walker, prevZ walker) in
  let roads := getRoadNeighbors g (gridX walker) (gridZ walker) in
  let candidates := filter (λ c : Cell, c ≠ prev) roads in
  let n := Z.of_nat (length candidates) in
  ∃ (walker' : Walker) (k' : nat),
    chooseNextTile rng k walker g sys = Some (walker', k') ∧
    let target : Cell := (w_targetX walker', w_targetZ walker') in
    (w_type walker' = w_type walker ∧
     gridX walker' = gridX walker ∧ gridZ walker' = gridZ walker ∧
     prevX walker' = prevX walker ∧ prevZ walker' = prevZ walker ∧
     w_progress walker' = w_progress walker ∧ lifespan walker' = lifespan walker ∧
     w_hp walker' = w_hp walker ∧
     homeX walker' = homeX walker ∧ homeZ walker' = homeZ walker) ∧
    (∀ c : Cell, c ∈ roads ↔
       (c = (here.1 + 1, here.2) ∨ c = (here.1 - 1, here.2) ∨
        c = (here.1, here.2 + 1) ∨ c = (here.1, here.2 - 1)) ∧
       ∃ tile, getTile g c.1 c.2 = Some tile ∧
               (building tile = Some road ∨ building tile = Some forum)) ∧
    (∀ c : Cell, c ∈ candidates ↔ c ∈ roads ∧ c ≠ prev) ∧
    (candidates ≠ [] →
       k' = S k ∧ target ∈ candidates ∧
       ∀ (i : nat) (c : Cell), candidates !! i = Some c →
         (target = c ↔
          (inject_Z (Z.of_nat i) <= rng k * inject_Z n)%Q ∧
          (rng k * inject_Z n < inject_Z (Z.of_nat i + 1))%Q)) ∧
    (candidates = [] → prev ∈ roads → target = prev ∧ k' = k) ∧
    (roads = [] → target = here ∧ k' = k).
Proof.
  intros Hok Hty here prev roads candidates n.
  destruct (chooseNextTile_service_pick rng k walker g sys Hok Hty)
    as ([tx tz] & k' & Heq & Hroads & Hcands & Hpick & Hback & Hstay).
  exists (setTarget walker tx tz), k'. split; [exact Heq|].
  cbn [setTarget w_type gridX gridZ w_targetX w_targetZ prevX prevZ w_progress
       lifespan w_hp homeX homeZ].
  split; [repeat split|]. split; [exact Hroads|]. split; [exact Hcands|].
  split; [exact Hpick|]. split; [exact Hback|exact Hstay].
Qed.

Lemma rng_zero_ok : rng_ok rng_zero.
Proof. intros k. split; [apply Qle_refl | reflexivity]. Qed.

Lemma rng_half_ok : rng_ok rng_half.
Proof. intros k. split; [discriminate | reflexivity]. Qed.

(** ** Wave scaling arithmetic *)

Lemma waveCount_eq (w : Z) : waveCount w = (2 + 3 * w) / 2.
Proof.
  unfold waveCount, BASE_INVADERS, INVADER_SCALING, Qfloor. simpl.
  f_equal. lia.
Qed.

Lemma waveHp_eq (w : Z) : waveHp w = 8 + 3 * w.
Proof. unfold waveHp, BARBARIAN_BASE_HP, BARBARIAN_HP_SCALING. lia. Qed.

Lemma waveDamage_eq (w : Z) : waveDamage w = (4 + w) / 2.
Proof.
  unfold waveDamage, BARBARIAN_BASE_DAMAGE, BARBARIAN_DAMAGE_SCALING, Qfloor. simpl.
  f_equal. lia.
Qed.

Lemma wave_scaling_mono (w w' : Z) :
  w ≤ w' →
  waveCount w ≤ waveCount w' ∧ waveHp w ≤ waveHp w' ∧ waveDamage w ≤ waveDamage w'.
Proof.
  intros Hw. rewrite !waveCount_eq, !waveHp_eq, !waveDamage_eq.
  repeat split; try lia; apply Z.div_le_mono; lia.
Qed.

(** ** Population arithmetic *)

Lemma adjustPopulation_bounds (pop maxPop : Z) (foodStock : Q) :
  0 ≤ pop → 0 ≤ maxPop →
  let pop' := adjustPopulation pop maxPop foodStock in
  0 ≤ pop' ∧ Z.abs (pop' - pop) ≤ GROWTH_RATE ∧
  (pop ≤ maxPop → pop' ≤ maxPop) ∧
  (maxPop < pop → maxPop ≤ pop' ≤ pop).
Proof.
  intros Hpop Hmax. unfold adjustPopulation, GROWTH_RATE.
  destruct (maxPop <? pop) eqn:E1.
  { apply Z.ltb_lt in E1. lia. }
  apply Z.ltb_ge in E1.
  destruct (Qle_bool foodStock 0 && (0 <? pop)) eqn:E2.
  { lia. }
  destruct (Qpositive foodStock && (pop <? maxPop)) eqn:E3.
  { apply andb_true_iff in E3 as [_ E3%Z.ltb_lt]. lia. }
  lia.
Qed.

(** ** InvasionSystem.computePath: breadth-first search *)

Lemma reachedForum_spec (target c : Cell) :
  reachedForum target c = true ↔
  target.1 ≤ c.1 < target.1 + 2 ∧ target.2 ≤ c.2 < target.2 + 2.
Proof.
  unfold reachedForum. rewrite List.existsb_exists. split.
  - intros ([fx fz] & Hin & Hc). apply list_elem_of_In, elem_of_footprint_box in Hin.
    apply andb_true_iff in Hc as [H1%bool_decide_eq_true H2%bool_decide_eq_true].
    simpl in *. lia.
  - intros [Hx Hz]. exists c. split.
    + apply list_elem_of_In. destruct c as [cx cz]. apply elem_of_footprint_box.
      simpl in *. lia.
    + by rewrite !bool_decide_eq_true_2.
Qed.

Lemma NoDup_pathDirs (c : Cell) : NoDup (pathDirs c).
Proof.
  unfold pathDirs.
  repeat (apply NoDup_cons; split;
          [rewrite ?elem_of_cons, elem_of_nil; intros H;
           repeat destruct H as [H|H]; try done; injection H; lia|]).
  apply NoDup_nil_2.
Qed.

Lemma elem_of_gridCells (g : Grid) (c : Cell) : c ∈ gridCells g ↔ inGrid g c.
Proof.
  unfold gridCells, inGrid. rewrite elem_of_list_to_set. destruct c as [x z].
  rewrite elem_of_footprint_box, isInBounds_spec. simpl. lia.
Qed.

(** Both branches of the wall test enqueue the cell. *)
Lemma expand_eq (g : Grid) (curr : Cell)
    (st : list Cell * gmap Cell (option Cell)) (next : Cell) :
  expand g curr st next =
  if bool_decide (is_Some (st.2 !! next)) then st
  else if negb (isInBounds g next.1 next.2) then st
  else (st.1 ++ [next], <[next := Some curr]> st.2).
Proof.
  unfold expand. repeat case_match; done.
Qed.

(** The walls of the grid never change the outcome of an expansion. *)
Lemma expand_tiles (g g' : Grid) curr st next :
  grid_size g' = grid_size g → expand g' curr st next = expand g curr st next.
Proof.
  intros Hsz. rewrite !expand_eq. unfold isInBounds. by rewrite Hsz.
Qed.

(** The four expansions of one loop iteration, taken together: the cells
    [new] that are on the grid and not yet visited are appended to the
    queue in order and get [h] as parent. *)
Lemma expand_fold (g : Grid) (h : Cell) (ds : list Cell) :
  ∀ (q : list Cell) (vis : gmap Cell (option Cell)),
  NoDup ds →
  ∃ (new : list Cell) (vis' : gmap Cell (option Cell)),
    foldl (expand g h) (q, vis) ds = (q ++ new, vis') ∧
    NoDup new ∧
    (∀ c, c ∈ new ↔ c ∈ ds ∧ vis !! c = None ∧ inGrid g c) ∧
    (∀ c, vis' !! c = if decide (c ∈ new) then Some (Some h) else vis !! c) ∧
    size vis' = (size vis + length new)%nat ∧
    dom vis' = dom vis ∪ list_to_set new.
Proof.
  induction ds as [|d ds IH]; intros q vis Hnd.
  { exists [], vis. split; [simpl; by rewrite app_nil_r|].
    split; [apply NoDup_nil_2|]. split.
    { intros c. rewrite !elem_of_nil. tauto. }
    split. { intros c. destruct (decide (c ∈ [])) as [H|]; [by apply elem_of_nil in H|done]. }
    split; [simpl; lia|]. set_solver. }
  apply NoDup_cons in Hnd as [Hd Hnd]. simpl. rewrite expand_eq. simpl.
  destruct (decide (is_Some (vis !! d))) as [Hvis|Hvis].
  { rewrite bool_decide_eq_true_2 by done.
    destruct (IH q vis Hnd) as (new & vis' & Hf & Hnew & Hin & Hl & Hs & Hdom).
    exists new, vis'. split; [done|]. split; [done|]. split; [|done].
    intros c. rewrite Hin, elem_of_cons. split; [tauto|].
    intros [[->|?] [Hn ?]]; [|tauto]. rewrite Hn in Hvis. by destruct Hvis. }
  rewrite bool_decide_eq_false_2 by done.
  destruct (isInBounds g d.1 d.2) eqn:Hb; simpl.
  2:{ destruct (IH q vis Hnd) as (new & vis' & Hf & Hnew & Hin & Hl & Hs & Hdom).
      exists new, vis'. split; [done|]. split; [done|]. split; [|done].
      intros c. rewrite Hin, elem_of_cons. split; [tauto|].
      intros [[->|?] [? Hg]]; [|tauto]. unfold inGrid in Hg. congruence. }
  apply eq_None_not_Some in Hvis.
  destruct (IH (q ++ [d]) (<[d := Some h]> vis) Hnd)
    as (new & vis' & Hf & Hnew & Hin & Hl & Hs & Hdom).
  assert (Hdnew : d ∉ new). { rewrite Hin. tauto. }
  exists (d :: new), vis'. split.
  { rewrite Hf. by rewrite <- app_assoc. }
  split. { by apply NoDup_cons. }
  split.
  { intros c. rewrite !elem_of_cons, Hin. split.
    - intros [->|(? & Hl' & ?)]; [tauto|].
      apply lookup_insert_None in Hl'. tauto.
    - intros [[->|?] [? ?]]; [tauto|]. right. split; [done|]. split; [|done].
      apply lookup_insert_None. split; [done|]. intros ->. done. }
  split.
  { intros c. rewrite Hl. destruct (decide (c = d)) as [->|Hne].
    - rewrite decide_False by done. rewrite decide_True by apply list_elem_of_here.
      by rewrite lookup_insert_eq.
    - rewrite lookup_insert_ne by done.
      destruct (decide (c ∈ new)).
      + by rewrite decide_True by (by apply list_elem_of_further).
      + rewrite decide_False; [done|]. rewrite elem_of_cons. tauto. }
  split.
  { rewrite Hs, map_size_insert_None by done. simpl. lia. }
  rewrite Hdom, dom_insert_L. simpl. set_solver.
Qed.

Section bfs.
Context (g : Grid) (target s : Cell).

Lemma bfs_inv_init : bfs_inv g target s (λ _, 0%nat) [s] {[s := None]}.
Proof.
  assert (Hs : ∀ c : Cell,
            is_Some (({[s := None]} : gmap Cell (option Cell)) !! c) → c = s).
  { intros c [x Hx]. apply lookup_singleton_Some in Hx. by destruct Hx. }
  split.
  - apply NoDup_singleton.
  - intros c ->%list_elem_of_singleton. rewrite lookup_singleton_eq. eauto.
  - by rewrite lookup_singleton_eq.
  - intros c Hc Hne. by apply Hs in Hc.
  - exists 0%nat, [s], []. split; [done|]. split; [done|]. split.
    { intros c Hc. by apply elem_of_nil in Hc. }
    intros c Hc Hq. apply Hs in Hc as ->. exfalso. apply Hq, list_elem_of_here.
  - intros p c Hp Hq. apply Hs in Hp as ->. exfalso. apply Hq, list_elem_of_here.
  - intros p Hp Hq. apply Hs in Hp as ->. exfalso. apply Hq, list_elem_of_here.
  - intros p c Hp Hq. apply Hs in Hp as ->. exfalso. apply Hq, list_elem_of_here.
  - intros c Hc. rewrite map_size_singleton. lia.
Qed.

Lemma bfs_inv_step (dep : Cell → nat) (h : Cell) (q new : list Cell)
    (vis vis' : gmap Cell (option Cell)) :
  bfs_inv g target s dep (h :: q) vis →
  reachedForum target h = false →
  NoDup new →
  (∀ c, c ∈ new ↔ c ∈ pathDirs h ∧ vis !! c = None ∧ inGrid g c) →
  (∀ c, vis' !! c = if decide (c ∈ new) then Some (Some h) else vis !! c) →
  size vis' = (size vis + length new)%nat →
  bfs_inv g target s (λ c, if decide (c ∈ new) then S (dep h) else dep c)
          (q ++ new) vis'.
Proof.
  intros [Hnd Hq [Hs Hs0] Hpar (k & A & B & HAB & HA & HB & Hproc) Hcl Hng Hlip Hsm]
         Hgoal Hndnew Hnew Hvis' Hsize.
  apply NoDup_cons in Hnd as [Hhq Hndq].
  assert (Hh : is_Some (vis !! h)) by apply Hq, list_elem_of_here.
  assert (Hfresh : ∀ c, c ∈ new → vis !! c = None).
  { intros c Hc. apply Hnew in Hc. tauto. }
  assert (Hold : ∀ c, is_Some (vis !! c) → c ∉ new).
  { intros c [x Hx] Hc. apply Hfresh in Hc. congruence. }
  assert (Hv : ∀ c, is_Some (vis' !! c) ↔ c ∈ new ∨ is_Some (vis !! c)).
  { intros c. rewrite Hvis'. destruct (decide (c ∈ new)) as [Hc|Hc].
    - split; [by left | eauto].
    - split; [by right | by intros [?|?]]. }
  assert (Hkeep : ∀ c, is_Some (vis !! c) → vis' !! c = vis !! c).
  { intros c Hc. rewrite Hvis'. by rewrite decide_False by by apply Hold. }
  assert (Hproc' : ∀ c, is_Some (vis' !! c) → c ∉ q ++ new →
            is_Some (vis !! c) ∧ (c = h ∨ c ∉ h :: q)).
  { intros c Hc Hnq. rewrite not_elem_of_app in Hnq. destruct Hnq as [Hnq Hnn].
    apply Hv in Hc as [?|Hc]; [done|]. split; [done|].
    destruct (decide (c = h)); [by left|right].
    rewrite not_elem_of_cons. done. }
  assert (Hdeph : (k ≤ dep h)%nat ∧ ∀ c, is_Some (vis !! c) → (dep c ≤ S (dep h))%nat).
  { assert (Hall : ∀ c, is_Some (vis !! c) → (dep c ≤ S k)%nat).
    { intros c Hc. destruct (decide (c ∈ h :: q)) as [Hin|Hin].
      - rewrite HAB in Hin. apply elem_of_app in Hin as [Hin|Hin].
        + rewrite (HA c Hin). lia.
        + rewrite (HB c Hin). lia.
      - specialize (Hproc c Hc Hin). lia. }
    assert (k ≤ dep h)%nat.
    { assert (Hin : h ∈ A ++ B) by (rewrite <- HAB; apply list_elem_of_here).
      apply elem_of_app in Hin as [Hin|Hin].
      - rewrite (HA h Hin). lia.
      - rewrite (HB h Hin). lia. }
    split; [done|]. intros c Hc. specialize (Hall c Hc). lia. }
  destruct Hdeph as [Hkh Hall].
  split.
  - (* the queue has no duplicates *)
    apply NoDup_app. split; [done|]. split; [|done].
    intros c Hc Hc'. apply Hfresh in Hc'.
    destruct (Hq c (list_elem_of_further _ _ _ Hc)). congruence.
  - (* queued cells are visited *)
    intros c Hc. apply Hv. apply elem_of_app in Hc as [Hc|Hc]; [|by left].
    right. by apply Hq, list_elem_of_further.
  - (* the start *)
    assert (is_Some (vis !! s)) by (rewrite Hs; eauto).
    rewrite Hkeep by done. split; [done|].
    by rewrite decide_False by by apply Hold.
  - (* parents *)
    intros c Hc Hne. destruct (decide (c ∈ new)) as [Hcn|Hcn].
    + exists h. rewrite Hvis', decide_True by done. split; [done|].
      split; [apply Hv; by right|].
      apply Hnew in Hcn as (Hadj & _ & Hin). split; [done|]. split; [done|].
      by rewrite decide_False by by apply Hold.
    + apply Hv in Hc as [?|Hc]; [done|].
      destruct (Hpar c Hc Hne) as (p & Hp1 & Hp2 & Hp3 & Hp4 & Hp5).
      exists p. rewrite Hkeep by done. split; [done|].
      split; [apply Hv; by right|]. split; [done|]. split; [done|].
      by rewrite decide_False by by apply Hold.
  - (* levels *)
    destruct A as [|a A].
    + (* the head opens level [k + 1] *)
      simpl in HAB. subst B.
      assert (Hdh : dep h = S k) by apply HB, list_elem_of_here.
      exists (S k), q, new. split; [done|]. split; [|split].
      * intros c Hc.
        rewrite decide_False
          by (apply Hold, Hq; by apply list_elem_of_further).
        apply HB. by apply list_elem_of_further.
      * intros c Hc. rewrite decide_True by done. by rewrite Hdh.
      * intros c Hc Hnq. destruct (Hproc' c Hc Hnq) as [Hc' Hcase].
        rewrite decide_False by by apply Hold.
        destruct Hcase as [->|Hcase]; [lia|].
        specialize (Hproc c Hc' Hcase). lia.
    + injection HAB as <- ->.
      assert (Hdh : dep h = k) by apply HA, list_elem_of_here.
      exists k, A, (B ++ new). split; [by rewrite app_assoc|]. split; [|split].
      * intros c Hc.
        rewrite decide_False
          by (apply Hold, Hq, list_elem_of_further, elem_of_app; by left).
        apply HA. by apply list_elem_of_further.
      * intros c Hc. apply elem_of_app in Hc as [Hc|Hc].
        -- rewrite decide_False
             by (apply Hold, Hq, list_elem_of_further, elem_of_app; by right).
           by apply HB.
        -- rewrite decide_True by done. by rewrite Hdh.
      * intros c Hc Hnq. destruct (Hproc' c Hc Hnq) as [Hc' Hcase].
        rewrite decide_False by by apply Hold.
        destruct Hcase as [->|Hcase]; [lia|].
        by apply Hproc.
  - (* closure *)
    intros p c Hp Hnq Hadj Hin. destruct (Hproc' p Hp Hnq) as [Hp' Hcase].
    apply Hv. destruct Hcase as [->|Hcase].
    + destruct (vis !! c) as [x|] eqn:Hc; [right; eauto|].
      left. apply Hnew. done.
    + right. by apply (Hcl p c).
  - (* no goal among the processed cells *)
    intros p Hp Hnq. destruct (Hproc' p Hp Hnq) as [Hp' [->|Hcase]]; [done|].
    by apply Hng.
  - (* depth grows by at most one along an edge out of a processed cell *)
    intros p c Hp Hnq Hc Hadj. destruct (Hproc' p Hp Hnq) as [Hp' Hcase].
    rewrite (decide_False (P := p ∈ new)) by by apply Hold.
    destruct (decide (c ∈ new)) as [Hcn|Hcn].
    + destruct Hcase as [->|Hcase]; [lia|].
      exfalso. apply Hnew in Hcn as (_ & Hnone & Hin).
      destruct (Hcl p c Hp' Hcase Hadj Hin). congruence.
    + apply Hv in Hc as [?|Hc]; [done|].
      destruct Hcase as [->|Hcase]; [by apply Hall|].
      by apply Hlip.
  - (* depths stay below the number of visited cells *)
    intros c Hc. rewrite Hsize. destruct (decide (c ∈ new)) as [Hcn|Hcn].
    + specialize (Hsm h Hh). destruct new; [by apply elem_of_nil in Hcn|].
      simpl. lia.
    + apply Hv in Hc as [?|Hc]; [done|]. specialize (Hsm c Hc). lia.
Qed.
End bfs.

Lemma length_bind_const {A B} (f : A → list B) (m : nat) (l : list A) :
  (∀ x, length (f x) = m) → length (l ≫= f) = (length l * m)%nat.
Proof.
  intros Hf. induction l as [|x l IH]; [done|].
  rewrite bind_cons, length_app, IH, Hf. simpl. lia.
Qed.

Lemma length_footprint (x z size : Z) :
  length (footprint x z size) = (Z.to_nat size * Z.to_nat size)%nat.
Proof.
  unfold footprint.
  rewrite (length_bind_const _ (Z.to_nat size)), length_seqZ; [done|].
  intros dx. rewrite (length_bind_const _ 1%nat), length_seqZ; [lia|done].
Qed.

Lemma size_list_to_set_le (l : list Cell) :
  (size (list_to_set l : gset Cell) ≤ length l)%nat.
Proof.
  induction l as [|c l IH].
  - rewrite list_to_set_nil, size_empty. done.
  - rewrite list_to_set_cons, size_union_alt, size_singleton. simpl.
    assert (Hsub : list_to_set l ∖ {[c]} ⊆ (list_to_set l : gset Cell)) by set_solver.
    apply subseteq_size in Hsub. lia.
Qed.

Lemma size_gridCells (g : Grid) :
  (size (gridCells g) ≤ Z.to_nat (grid_size g) * Z.to_nat (grid_size g))%nat.
Proof.
  unfold gridCells. rewrite <- (length_footprint 0 0). apply size_list_to_set_le.
Qed.

Section bfs_result.
Context (g : Grid) (target s : Cell).

(** Following the parents from a visited cell [c] reaches the start after
    [dep c] steps and yields a route prefix ending in [c]. *)
Lemma reconstruct_spec (dep : Cell → nat) (q : list Cell)
    (vis : gmap Cell (option Cell)) :
  bfs_inv g target s dep q vis →
  ∀ (n : nat) (c : Cell) (acc : list Cell) (fuel : nat),
    is_Some (vis !! c) → dep c = n → (n < fuel)%nat →
    ∃ chain,
      reconstruct fuel vis c acc = Some (chain ++ acc) ∧
      chain !! 0%nat = Some s ∧ last chain = Some c ∧ walk chain ∧
      (∀ (i : nat) (x : Cell), chain !! S i = Some x → inGrid g x) ∧
      length chain = S n.
Proof.
  intros Hinv. destruct (bi_start _ _ _ _ _ _ Hinv) as [Hs Hs0].
  induction n as [|n IH]; intros c acc fuel Hc Hdep Hfuel.
  - assert (c = s) as ->.
    { destruct (decide (c = s)); [done|].
      destruct (bi_parent _ _ _ _ _ _ Hinv c Hc) as (p & _ & _ & _ & _ & Hd); [done|lia]. }
    destruct fuel as [|fuel]; [lia|]. simpl. rewrite Hs.
    exists [s]. split; [done|]. split; [done|]. split; [done|]. split.
    { intros i a b Ha Hb. by destruct i. }
    split; [|done]. intros i x Hx. by destruct i.
  - assert (c ≠ s) by (intros ->; lia).
    destruct (bi_parent _ _ _ _ _ _ Hinv c Hc) as (p & Hp & Hpv & Hadj & Hin & Hd); [done|].
    destruct fuel as [|fuel]; [lia|]. simpl. rewrite Hp.
    destruct (IH p (c :: acc) fuel Hpv) as (chain & Hr & H0 & Hl & Hw & Hg & Hlen);
      [lia|lia|].
    exists (chain ++ [c]). split; [by rewrite Hr, <- app_assoc|].
    rewrite last_lookup in Hl. rewrite Hlen in Hl. simpl in Hl.
    split. { rewrite lookup_app_l by lia. done. }
    split. { by rewrite last_snoc. }
    split.
    { intros i a b Ha Hb.
      destruct (decide (S i < length chain)%nat) as [Hi|Hi].
      - rewrite lookup_app_l in Ha by lia. rewrite lookup_app_l in Hb by lia. eauto.
      - assert (S i = length chain) as Hi'.
        { apply lookup_lt_Some in Hb. rewrite length_app in Hb. simpl in Hb. lia. }
        rewrite lookup_app_l in Ha by lia.
        rewrite lookup_app_r in Hb by lia.
        rewrite Hi', Nat.sub_diag in Hb. simpl in Hb. injection Hb as <-.
        assert (i = n) as -> by lia. by simplify_eq. }
    split.
    { intros i x Hx.
      destruct (decide (S i < length chain)%nat) as [Hi|Hi].
      - rewrite lookup_app_l in Hx by lia. eauto.
      - assert (S i = length chain) as Hi'.
        { apply lookup_lt_Some in Hx. rewrite length_app in Hx. simpl in Hx. lia. }
        rewrite lookup_app_r in Hx by lia.
        rewrite Hi', Nat.sub_diag in Hx. simpl in Hx. by injection Hx as <-. }
    rewrite length_app. simpl. lia.
Qed.

(** The head of the queue is its shallowest cell. *)
Lemma queue_depth (dep : Cell → nat) (h : Cell) (q : list Cell)
    (vis : gmap Cell (option Cell)) :
  bfs_inv g target s dep (h :: q) vis →
  ∀ c, c ∈ h :: q → (dep h ≤ dep c)%nat.
Proof.
  intros Hinv c Hc.
  destruct (bi_levels _ _ _ _ _ _ Hinv) as (k & A & B & HAB & HA & HB & _).
  rewrite HAB in Hc. destruct A as [|a A].
  - simpl in HAB. subst B. rewrite (HB c Hc), (HB h); [lia|apply list_elem_of_here].
  - injection HAB as <- _. rewrite (HA h) by apply list_elem_of_here.
    apply elem_of_app in Hc as [Hc|Hc]; [rewrite (HA c Hc)|rewrite (HB c Hc)]; lia.
Qed.

(** Every cell of a route is visited at a depth no larger than its index
    until the route has as many steps as the head of the queue is deep. *)
Lemma route_prefix (dep : Cell → nat) (h : Cell) (q : list Cell)
    (vis : gmap Cell (option Cell)) (p : list Cell) :
  bfs_inv g target s dep (h :: q) vis →
  p !! 0%nat = Some s → walk p →
  (∀ (i : nat) (c : Cell), p !! S i = Some c → inGrid g c) →
  ∀ (i : nat) (c : Cell), p !! i = Some c →
    (is_Some (vis !! c) ∧ (dep c ≤ i)%nat) ∨ (dep h ≤ i)%nat.
Proof.
  intros Hinv H0 Hw Hg.
  destruct (bi_start _ _ _ _ _ _ Hinv) as [Hs Hs0].
  pose proof (queue_depth dep h q vis Hinv) as Hqd.
  induction i as [|i IH]; intros c Hc.
  - left. rewrite H0 in Hc. injection Hc as <-. rewrite Hs, Hs0. eauto.
  - destruct (decide (dep h ≤ S i)%nat) as [?|Hlt]; [by right|left].
    destruct (lookup_lt_is_Some_2 p i) as [b Hb].
    { apply lookup_lt_Some in Hc. lia. }
    destruct (IH b Hb) as [[Hbv Hbd]|?]; [|lia].
    assert (Hbq : b ∉ h :: q).
    { intros Hin. apply Hqd in Hin. lia. }
    assert (Hcv : is_Some (vis !! c)).
    { apply (bi_closed _ _ _ _ _ _ Hinv b c); eauto. }
    split; [done|].
    pose proof (bi_lip _ _ _ _ _ _ Hinv b c Hbv Hbq Hcv (Hw _ _ _ Hb Hc)). lia.
Qed.

(** No route to the forum has fewer cells than the depth of a goal cell
    at the head of the queue allows. *)
Lemma found_optimal (dep : Cell → nat) (h : Cell) (q : list Cell)
    (vis : gmap Cell (option Cell)) (p : list Cell) :
  bfs_inv g target s dep (h :: q) vis →
  route g target s p → (S (dep h) ≤ length p)%nat.
Proof.
  intros Hinv (H0 & Hw & Hg & e & He & Hgoal).
  rewrite last_lookup in He.
  pose proof (lookup_lt_Some _ _ _ He) as Hlen.
  destruct (route_prefix dep h q vis p Hinv H0 Hw Hg _ _ He) as [[Hev Hed]|Hd]; [|lia].
  destruct (decide (e ∈ h :: q)) as [Hin|Hout].
  - pose proof (queue_depth dep h q vis Hinv e Hin). lia.
  - pose proof (bi_nogoal _ _ _ _ _ _ Hinv e Hev Hout). congruence.
Qed.

(** With an empty queue every cell of a route is visited, so there is no
    route. *)
Lemma exhausted_no_route (dep : Cell → nat) (vis : gmap Cell (option Cell))
    (p : list Cell) :
  bfs_inv g target s dep [] vis → ¬ route g target s p.
Proof.
  intros Hinv (H0 & Hw & Hg & e & He & Hgoal).
  destruct (bi_start _ _ _ _ _ _ Hinv) as [Hs Hs0].
  assert (Hall : ∀ (i : nat) (c : Cell), p !! i = Some c → is_Some (vis !! c)).
  { induction i as [|i IH]; intros c Hc.
    - rewrite H0 in Hc. injection Hc as <-. rewrite Hs. eauto.
    - destruct (lookup_lt_is_Some_2 p i) as [b Hb].
      { apply lookup_lt_Some in Hc. lia. }
      apply (bi_closed _ _ _ _ _ _ Hinv b c); eauto using not_elem_of_nil. }
  rewrite last_lookup in He.
  pose proof (bi_nogoal _ _ _ _ _ _ Hinv e (Hall _ _ He) (not_elem_of_nil _)).
  congruence.
Qed.
End bfs_result.

Lemma search_cons (fuel : nat) (g : Grid) (target h : Cell) (q : list Cell)
    (vis : gmap Cell (option Cell)) :
  search (S fuel) g target (h :: q) vis =
  if reachedForum target h
  then match reconstruct (size vis) vis h [] with
       | Some path => Found path
       | None => OutOfFuel
       end
  else search fuel g target
         (foldl (expand g h) (q, vis) (pathDirs h)).1
         (foldl (expand g h) (q, vis) (pathDirs h)).2.
Proof. reflexivity. Qed.

Section search.
Context (g : Grid) (target s : Cell).

Lemma expand_measure (vis vis' : gmap Cell (option Cell)) (new : list Cell) :
  NoDup new →
  (∀ c, c ∈ new → vis !! c = None ∧ inGrid g c) →
  dom vis' = dom vis ∪ list_to_set new →
  (size (gridCells g ∖ dom vis') + length new ≤ size (gridCells g ∖ dom vis))%nat.
Proof.
  intros Hnd Hnew Hdom.
  rewrite <- (size_list_to_set (C := gset Cell) new) by done.
  rewrite <- size_union.
  - apply subseteq_size. rewrite Hdom. intros c.
    rewrite elem_of_union, !elem_of_difference, elem_of_union, elem_of_list_to_set.
    intros [[? ?]|Hc]; [tauto|].
    destruct (Hnew c Hc) as [Hn Hg]. split; [by apply elem_of_gridCells|].
    by apply not_elem_of_dom.
  - rewrite Hdom. intros c. rewrite elem_of_difference, elem_of_union. tauto.
Qed.

(** The search loop never runs out of fuel; it ends either on a shortest
    route or, when no route exists, with an empty queue. *)
Lemma search_spec :
  ∀ (fuel : nat) (dep : Cell → nat) (q : list Cell)
    (vis : gmap Cell (option Cell)),
  bfs_inv g target s dep q vis →
  (length q + size (gridCells g ∖ dom vis) < fuel)%nat →
  match search fuel g target q vis with
  | OutOfFuel => False
  | NoPath => ∀ p, ¬ route g target s p
  | Found p =>
      route g target s p ∧
      ∀ p', route g target s p' → (length p ≤ length p')%nat
  end.
Proof.
  induction fuel as [|fuel IH]; intros dep q vis Hinv Hm; [lia|].
  destruct q as [|h q].
  { simpl. intros p. by eapply exhausted_no_route. }
  rewrite search_cons. destruct (reachedForum target h) eqn:Hgoal.
  - assert (Hh : is_Some (vis !! h)).
    { apply (bi_queue _ _ _ _ _ _ Hinv), list_elem_of_here. }
    destruct (reconstruct_spec g target s dep _ vis Hinv (dep h) h [] (size vis))
      as (chain & Hr & H0 & Hl & Hw & Hg & Hlen);
      [done|done|by apply (bi_small _ _ _ _ _ _ Hinv)|].
    rewrite Hr, app_nil_r. split.
    + split; [done|]. split; [done|]. split; [done|]. eauto.
    + intros p' Hp'. rewrite Hlen. by eapply found_optimal.
  - destruct (expand_fold g h (pathDirs h) q vis (NoDup_pathDirs h))
      as (new & vis' & Hf & Hnd & Hnew & Hl & Hs & Hdom).
    rewrite Hf. cbn [fst snd].
    apply (IH (λ c, if decide (c ∈ new) then S (dep h) else dep c)).
    + by apply bfs_inv_step with vis.
    + pose proof (expand_measure vis vis' new Hnd) as Hdec.
      rewrite length_app. simpl in Hm.
      assert (size (gridCells g ∖ dom vis') + length new
              ≤ size (gridCells g ∖ dom vis))%nat; [|lia].
      apply Hdec; [|done]. intros c Hc. apply Hnew in Hc. tauto.
Qed.

Lemma search_from_start :
  match search (computePath_fuel g) g target [s] {[s := None]} with
  | OutOfFuel => False
  | NoPath => ∀ p, ¬ route g target s p
  | Found p =>
      route g target s p ∧
      ∀ p', route g target s p' → (length p ≤ length p')%nat
  end.
Proof.
  apply (search_spec _ (λ _, 0%nat)); [apply bfs_inv_init|].
  unfold computePath_fuel. simpl.
  pose proof (size_gridCells g).
  assert (size (gridCells g ∖ dom ({[s := None]} : gmap Cell (option Cell)))
          ≤ size (gridCells g))%nat.
  { apply subseteq_size. set_solver. }
  lia.
Qed.
End search.

(** The search reads the grid only through its size. *)
Lemma search_tiles (g g' : Grid) (target : Cell) :
  grid_size g' = grid_size g →
  ∀ (fuel : nat) (q : list Cell) (vis : gmap Cell (option Cell)),
    search fuel g' target q vis = search fuel g target q vis.
Proof.
  intros Hsz fuel. induction fuel as [|fuel IH]; intros q vis; [done|].
  destruct q as [|h q]; [done|]. rewrite !search_cons.
  destruct (reachedForum target h); [done|].
  assert (foldl (expand g' h) (q, vis) (pathDirs h)
          = foldl (expand g h) (q, vis) (pathDirs h)) as ->; [|apply IH].
  simpl. by rewrite !(expand_tiles g g').
Qed.

(** [computePath] always returns, and changes only the path, the path
    index and the target of the invader. *)
Lemma computePath_fields (fp : Cell) (inv : Invader) (g : Grid) :
  ∃ inv', computePath fp inv g = Some inv' ∧
    inv_x inv' = inv_x inv ∧ inv_z inv' = inv_z inv ∧
    inv_hp inv' = inv_hp inv ∧ maxHp inv' = maxHp inv ∧
    damage inv' = damage inv ∧ inv_state inv' = inv_state inv ∧
    attackCooldown inv' = attackCooldown inv ∧ pathIndex inv' = 1.
Proof.
  set (start := (inv_x inv, inv_z inv) : Cell).
  pose proof (search_from_start g fp start) as Hsearch.
  assert (Hc : computePath fp inv g =
     match search (computePath_fuel g) g fp [start] {[start := None]} with
     | OutOfFuel => None
     | Found p =>
         Some (match p !! 1%nat with
               | Some c => setPath inv p 1 c.1 c.2
               | None => setPath inv p 1 (inv_targetX inv) (inv_targetZ inv)
               end)
     | NoPath => Some (setPath inv [start; (fp.1, fp.2)] 1 fp.1 fp.2)
     end) by reflexivity.
  rewrite Hc.
  destruct (search (computePath_fuel g) g fp [start] {[start := None]})
    as [| |p]; [done| |].
  - eexists. split; [reflexivity|]. done.
  - destruct (p !! 1%nat); eexists; (split; [reflexivity|]); done.
Qed.

(** What [computePath] stores, in terms of the steps and the goal test of
    its own search. *)
Lemma computePath_route (forumPos : Cell) (invader : Invader) (g : Grid) :
  let start : Cell := (inv_x invader, inv_z invader) in
  ∃ invader' : Invader,
    computePath forumPos invader g = Some invader' ∧
    invader' = setPath invader (path invader') 1
                       (inv_targetX invader') (inv_targetZ invader') ∧
    (∀ g' : Grid, grid_size g' = grid_size g →
       computePath forumPos invader g' = Some invader') ∧
    ((route g forumPos start (path invader') ∧
      (∀ p', route g forumPos start p' →
         (length (path invader') ≤ length p')%nat) ∧
      (∀ c : Cell, path invader' !! 1%nat = Some c →
         (inv_targetX invader', inv_targetZ invader') = c) ∧
      (path invader' !! 1%nat = None →
         inv_targetX invader' = inv_targetX invader ∧
         inv_targetZ invader' = inv_targetZ invader))
     ∨
     ((∀ p', ¬ route g forumPos start p') ∧
      path invader' = [start; (forumPos.1, forumPos.2)] ∧
      inv_targetX invader' = forumPos.1 ∧ inv_targetZ invader' = forumPos.2)).
Proof.
  intros start.
  assert (Htiles : ∀ g' : Grid, grid_size g' = grid_size g →
            computePath forumPos invader g' = computePath forumPos invader g).
  { intros g' Hsz. unfold computePath, computePath_fuel.
    by rewrite Hsz, (search_tiles g g'). }
  pose proof (search_from_start g forumPos start) as Hsearch.
  assert (Hc : ∀ g0, computePath forumPos invader g0 =
     match search (computePath_fuel g0) g0 forumPos [start] {[start := None]} with
     | OutOfFuel => None
     | Found p =>
         Some (match p !! 1%nat with
               | Some c => setPath invader p 1 c.1 c.2
               | None => setPath invader p 1 (inv_targetX invader) (inv_targetZ invader)
               end)
     | NoPath =>
         Some (setPath invader [start; (forumPos.1, forumPos.2)] 1 forumPos.1 forumPos.2)
     end) by reflexivity.
  rewrite Hc.
  destruct (search (computePath_fuel g) g forumPos [start] {[start := None]})
    as [| |p] eqn:Hs; [done| |].
  - eexists. split; [reflexivity|]. split; [reflexivity|]. split.
    { intros g' Hsz. by rewrite (Htiles g' Hsz), Hc, Hs. }
    right. split; [done|]. split; [reflexivity|]. split; reflexivity.
  - destruct Hsearch as [Hroute Hopt].
    eexists. split; [reflexivity|]. split.
    { by destruct (p !! 1%nat). }
    split.
    { intros g' Hsz. by rewrite (Htiles g' Hsz), Hc, Hs. }
    left. destruct (p !! 1%nat) as [c|] eqn:Hp1; cbn [path setPath inv_targetX inv_targetZ].
    + split; [exact Hroute|]. split; [exact Hopt|]. split; [|intros Hn; pose proof (eq_trans (eq_sym Hn) Hp1); discriminate].
      intros c' Hc'. pose proof (eq_trans (eq_sym Hc') Hp1) as [= ->]. by destruct c.
    + split; [exact Hroute|]. split; [exact Hopt|]. split; [|done].
      intros c' Hc'. pose proof (eq_trans (eq_sym Hc') Hp1). discriminate.
Qed.

Lemma adjacent_manhattan (a b : Cell) : adjacent a b ↔ manhattan a b = 1.
Proof.
  destruct a as [ax az], b as [bx bz]. unfold adjacent, pathDirs, manhattan.
  cbn [fst snd]. rewrite !elem_of_cons, elem_of_nil. split.
  - intros [H|[H|[H|[H|[]]]]]; injection H as -> ->; lia.
  - intros H.
    assert ((bx = ax + 1 ∧ bz = az) ∨ (bx = ax - 1 ∧ bz = az) ∨
            (bx = ax ∧ bz = az + 1) ∨ (bx = ax ∧ bz = az - 1)) as Hc by lia.
    destruct Hc as [[-> ->]|[[-> ->]|[[-> ->]|[-> ->]]]]; auto.
Qed.

(** The routes of the search are the 4-directional paths to the forum
    footprint. *)
Lemma forumRoute_route (g : Grid) (forumPos s : Cell) (p : list Cell) :
  forumRoute g forumPos s p ↔ route g forumPos s p.
Proof.
  unfold forumRoute, route, walk, inGrid, onGrid, inForum. split.
  - intros (H0 & Hw & Hg & e & He & Hf). split; [exact H0|]. split; [|split].
    + intros i a b Ha Hb. apply adjacent_manhattan. by apply (Hw i).
    + intros i c Hc. apply isInBounds_spec. by apply (Hg i).
    + exists e. split; [exact He|]. apply reachedForum_spec. lia.
  - intros (H0 & Hw & Hg & e & He & Hf). split; [exact H0|]. split; [|split].
    + intros i a b Ha Hb. apply adjacent_manhattan. by apply (Hw i).
    + intros i c Hc. apply isInBounds_spec. by apply (Hg i).
    + exists e. split; [exact He|]. apply reachedForum_spec in Hf. lia.
Qed.

(** C4. [computePath] always returns.  Its search reads the grid only
    through its size, so walls and other buildings prune nothing: any grid
    of the same size gives the same result.  When a 4-directional path
    from the invader's cell to the forum footprint exists (consecutive
    cells at Manhattan distance 1, all cells after the first on the board,
    the last one of the four forum cells), the stored path is such a path,
    no such path is shorter, and the invader heads for its second cell;
    when none exists, the stored path is the two-point fallback
    [[current cell; forum origin]] and the invader heads for the forum
    origin.  The path index is set to 1; position, progress, hit points,
    damage, state and cooldown of the invader are as before. *)
Theorem computePath_spec (forumPos : Cell) (invader : Invader) (g : Grid) :
  let start : Cell := (inv_x invader, inv_z invader) in
  ∃ invader' : Invader,
    computePath forumPos invader g = Some invader' ∧
    (pathIndex invader' = 1 ∧
     inv_x invader' = inv_x invader ∧ inv_z invader' = inv_z invader ∧
     inv_progress invader' = inv_progress invader ∧
     inv_hp invader' = inv_hp invader ∧ maxHp invader' = maxHp invader ∧
     damage invader' = damage invader ∧ inv_state invader' = inv_state invader ∧
     attackCooldown invader' = attackCooldown invader) ∧
    (∀ g' : Grid, grid_size g' = grid_size g →
       computePath forumPos invader g' = Some invader') ∧
    ((forumRoute g forumPos start (path invader') ∧
      (∀ p', forumRoute g forumPos start p' →
         (length (path invader') ≤ length p')%nat) ∧
      (∀ c : Cell, path invader' !! 1%nat = Some c →
         (inv_targetX invader', inv_targetZ invader') = c) ∧
      (path invader' !! 1%nat = None →
         inv_targetX invader' = inv_targetX invader ∧
         inv_targetZ invader' = inv_targetZ invader))
     ∨
     ((∀ p', ¬ forumRoute g forumPos start p') ∧
      path invader' = [start; (forumPos.1, forumPos.2)] ∧
      inv_targetX invader' = forumPos.1 ∧ inv_targetZ invader' = forumPos.2)).
Proof.
  intros start.
  destruct (computePath_route forumPos invader g)
    as (invader' & Hrun & Hset & Hsame & Hcases).
  exists invader'. split; [exact Hrun|]. split.
  { rewrite Hset. cbn [setPath pathIndex inv_x inv_z inv_progress inv_hp maxHp
                       damage inv_state attackCooldown]. repeat split. }
  split; [exact Hsame|].
  destruct Hcases as [(Hroute & Hopt & Hnext & Hkeep)|(Hnone & Hpath & Htx & Htz)].
  - left. split; [by apply forumRoute_route|]. split; [|split; [exact Hnext|exact Hkeep]].
    intros p' Hp'. apply Hopt. by apply forumRoute_route.
  - right. split; [|split; [exact Hpath|split; [exact Htx|exact Htz]]].
    intros p' Hp'. apply (Hnone p'). by apply forumRoute_route.
Qed.

(** The invader spawned at (12, 0) on the 32-cell grid walks 18 steps to
    the forum at (15, 15). *)
Example computePath_north_edge :
  (λ inv, (length (path inv), nthZ (path inv) 1, last (path inv)))
    <$> computePath (15, 15) (mkInvader 12 0 12 0 0 8 8 2 moving 0 [] 0)
                    (newGrid GRID_SIZE)
  = Some (19%nat, Some (13, 0), Some (15, 15)).
Proof. vm_compute. reflexivity. Qed.

(** On a grid without the forum footprint the fallback path is stored. *)
Example computePath_fallback :
  path <$> computePath (15, 15) (mkInvader 1 0 1 0 0 8 8 2 moving 0 [] 0)
                       (newGrid 3)
  = Some [(1, 0); (15, 15)].
Proof. vm_compute. reflexivity. Qed.

(** * Pathfinding: neighbours, adjacent road tiles, connection *)

Lemma elem_of_neighbours (x z : Z) (d : Cell) :
  d ∈ (λ o : Z * Z, (x + o.1, z + o.2)) <$> NEIGHBORS ↔ adjacent (x, z) d.
Proof.
  unfold adjacent, pathDirs, NEIGHBORS. cbn [fmap list_fmap fst snd].
  rewrite !elem_of_cons, !elem_of_nil.
  replace (x + -1) with (x - 1) by lia. replace (z + -1) with (z - 1) by lia.
  replace (x + 0) with x by lia. replace (z + 0) with z by lia. tauto.
Qed.

Lemma isRoadOrForumAt_spec (g : Grid) (x z : Z) :
  isRoadOrForumAt g (x, z) = true ↔
  isInBounds g x z = true ∧ ∃ tile, getTile g x z = Some tile ∧ isRoadOrForum tile = true.
Proof.
  unfold isRoadOrForumAt. cbn [fst snd]. split.
  - destruct (getTile g x z) as [tile|] eqn:Ht; [|done]. intros Hr. split; [|eauto].
    destruct (isInBounds g x z) eqn:Hb; [done|]. by rewrite getTile_out in Ht.
  - intros (_ & tile & -> & Hr). done.
Qed.

Lemma elem_of_neighbourCandidates (x z size : Z) (c : Cell) :
  c ∈ neighbourCandidates x z size ↔ ∃ f, f ∈ footprint x z size ∧ adjacent f c.
Proof.
  unfold neighbourCandidates. rewrite list_elem_of_bind. split.
  - intros ([fx fz] & Hc & Hf). exists (fx, fz). split; [done|].
    apply elem_of_neighbours. apply list_elem_of_bind in Hc as (d & Hc & Hd).
    apply list_elem_of_singleton in Hc as ->. apply list_elem_of_fmap. eauto.
  - intros ([fx fz] & Hf & Hadj). exists (fx, fz). split; [|done].
    apply elem_of_neighbours, list_elem_of_fmap in Hadj as (d & -> & Hd).
    apply list_elem_of_bind. exists d. split; [|done]. by apply list_elem_of_singleton.
Qed.

Lemma adjacentRoadStep_spec (g : Grid) (x z size : Z)
    (st : gset Cell * list Cell) (n : Cell) :
  NoDup st.2 → (∀ c, c ∈ st.2 → c ∈ st.1) →
  NoDup (adjacentRoadStep g x z size st n).2 ∧
  (∀ c, c ∈ (adjacentRoadStep g x z size st n).1 ↔ c ∈ st.1 ∨ c = n) ∧
  (∀ c, c ∈ (adjacentRoadStep g x z size st n).2 ↔
        c ∈ st.2 ∨ (c = n ∧ (c ∉ st.1) ∧ (c ∉ footprint x z size) ∧
                    isRoadOrForumAt g c = true)).
Proof.
  intros Hnd Hsub. unfold adjacentRoadStep. case_bool_decide as Hseen.
  { split; [done|]. split.
    - intros c. split; [by left|]. by intros [?| ->].
    - intros c. split; [by left|]. intros [?|(-> & ? & _)]; done. }
  assert (Hset : ∀ c, c ∈ ({[n]} ∪ st.1 : gset Cell) ↔ c ∈ st.1 ∨ c = n).
  { intros c. rewrite elem_of_union, elem_of_singleton. tauto. }
  assert (Hbox : ((x <=? n.1) && (n.1 <? x + size) && (z <=? n.2) && (n.2 <? z + size))
                 = true ↔ n ∈ footprint x z size).
  { destruct n as [nx nz]. rewrite elem_of_footprint_box, !andb_true_iff. simpl. lia. }
  destruct ((x <=? n.1) && (n.1 <? x + size) && (z <=? n.2) && (n.2 <? z + size)) eqn:E.
  { cbn [fst snd]. split; [done|]. split; [done|]. intros c. split; [by left|].
    intros [?|(-> & _ & Hout & _)]; [done|]. destruct Hout. by apply Hbox. }
  assert (Hout : n ∉ footprint x z size).
  { intros Hin. apply Hbox in Hin. congruence. }
  unfold isRoadOrForumAt.
  destruct (getTile g n.1 n.2) as [tile|] eqn:Ht.
  2:{ cbn [fst snd]. split; [done|]. split; [done|]. intros c. split; [by left|].
      intros [?|(-> & _ & _ & Hr)]; [done|]. by rewrite Ht in Hr. }
  destruct (isRoadOrForum tile) eqn:Hr; cbn [fst snd].
  2:{ split; [done|]. split; [done|]. intros c. split; [by left|].
      intros [?|(-> & _ & _ & Hr')]; [done|]. rewrite Ht in Hr'. congruence. }
  split; [|split; [done|]].
  - apply NoDup_app. split; [done|]. split; [|apply NoDup_singleton].
    intros c Hc Hc'. apply list_elem_of_singleton in Hc' as ->. by apply Hseen, Hsub.
  - intros c. rewrite elem_of_app, list_elem_of_singleton. split.
    + intros [?| ->]; [by left|]. right. by rewrite Ht.
    + intros [?|(-> & _)]; [by left|by right].
Qed.

Lemma getAdjacentRoadTiles_elem (g : Grid) (x z size : Z) :
  NoDup (getAdjacentRoadTiles g x z size) ∧
  ∀ c : Cell, c ∈ getAdjacentRoadTiles g x z size ↔
    (∃ f, f ∈ footprint x z size ∧ adjacent f c) ∧
    (c ∉ footprint x z size) ∧ isRoadOrForumAt g c = true.
Proof.
  unfold getAdjacentRoadTiles.
  assert (H : ∀ (l : list Cell) (st : gset Cell * list Cell),
    NoDup st.2 → (∀ c, c ∈ st.2 → c ∈ st.1) →
    NoDup (foldl (adjacentRoadStep g x z size) st l).2 ∧
    (∀ c, c ∈ (foldl (adjacentRoadStep g x z size) st l).2 → 
          c ∈ (foldl (adjacentRoadStep g x z size) st l).1) ∧
    (∀ c, c ∈ (foldl (adjacentRoadStep g x z size) st l).2 ↔
          c ∈ st.2 ∨ (c ∈ l ∧ (c ∉ st.1) ∧ (c ∉ footprint x z size) ∧
                      isRoadOrForumAt g c = true))).
  { induction l as [|n l IH]; intros st Hnd Hsub.
    - cbn [foldl]. split; [done|]. split; [done|]. intros c. split; [by left|].
      intros [?|(Hin & _)]; [done|]. by apply elem_of_nil in Hin.
    - cbn [foldl].
      destruct (adjacentRoadStep_spec g x z size st n Hnd Hsub) as (Hnd1 & Hseen1 & Hres1).
      assert (Hsub1 : ∀ c, c ∈ (adjacentRoadStep g x z size st n).2 →
                           c ∈ (adjacentRoadStep g x z size st n).1).
      { intros c Hc. apply Hseen1. apply Hres1 in Hc as [?|(-> & _)]; [|by right].
        left. by apply Hsub. }
      destruct (IH _ Hnd1 Hsub1) as (Hnd' & Hsub' & Hres').
      split; [done|]. split; [done|]. intros c. rewrite Hres', Hres1, Hseen1.
      rewrite elem_of_cons. destruct (decide (c = n)) as [->|Hne]; [|tauto].
      split.
      + intros [[?|(_ & ?)]|(_ & Hno & _)]; [by left|right|destruct Hno; by right].
        split; [by left|done].
      + intros [?|(_ & Hno & ?)]; [by left; left|]. left. right. done. }
  destruct (H (neighbourCandidates x z size) (∅, [])) as (Hnd & _ & Hres).
  { apply NoDup_nil_2. }
  { intros c Hc. by apply elem_of_nil in Hc. }
  split; [done|]. intros c. rewrite Hres, elem_of_neighbourCandidates. split.
  - intros [Hin|(Hf & _ & Hout & Hr)]; [by apply elem_of_nil in Hin|done].
  - intros (Hf & Hout & Hr). right. split; [done|]. split; [|done].
    intros Hin. by apply elem_of_empty in Hin.
Qed.

Lemma isBuildingConnected_spec (g : Grid) (x z size : Z) (reachable : gset Cell) :
  isBuildingConnected g x z size reachable = true ↔
  ∃ f d, f ∈ footprint x z size ∧ adjacent f d ∧ d ∈ reachable.
Proof.
  unfold isBuildingConnected. rewrite existsb_exists. split.
  - intros ([fx fz] & Hf & Hd). apply list_elem_of_In in Hf.
    apply existsb_exists in Hd as (o & Ho & Hd). apply list_elem_of_In in Ho.
    apply bool_decide_eq_true in Hd. cbn [fst snd] in Hd.
    exists (fx, fz), (fx + o.1, fz + o.2). split; [done|]. split; [|done].
    apply elem_of_neighbours. apply list_elem_of_fmap. eauto.
  - intros ([fx fz] & d & Hf & Hadj & Hd). exists (fx, fz).
    split; [by apply list_elem_of_In|].
    apply elem_of_neighbours, list_elem_of_fmap in Hadj as (o & -> & Ho).
    apply existsb_exists. exists o. split; [by apply list_elem_of_In|].
    by apply bool_decide_eq_true.
Qed.

(** ** Termination of the road flood fill *)

Lemma floodFill_loop_total (g : Grid) :
  ∀ (fuel : nat) (queue : list Cell) (visited : gset Cell),
    (4 * size (gridCells g ∖ visited) + length queue < fuel)%nat →
    is_Some (floodFill_loop fuel g queue visited).
Proof.
  induction fuel as [|fuel IH]; intros queue visited Hm; [lia|].
  destruct queue as [|[x z] queue]; simpl; [eauto|].
  simpl in Hm.
  case_bool_decide as Hv; [apply IH; lia|].
  destruct (isInBounds g x z) eqn:Hb; simpl; [|apply IH; lia].
  destruct (getTile g x z) as [tile|]; [|apply IH; lia].
  destruct (isRoadOrForum tile); simpl; [|apply IH; lia].
  apply IH. rewrite length_app. simpl.
  assert (size (gridCells g ∖ ({[(x, z)]} ∪ visited)) + 1
          ≤ size (gridCells g ∖ visited))%nat; [|lia].
  rewrite <- (size_singleton (C := gset Cell) (x, z)), <- size_union.
  - apply subseteq_size. intros c.
    rewrite elem_of_union, !elem_of_difference, elem_of_union, elem_of_singleton.
    intros [[? ?]| ->]; [tauto|]. split; [|done]. by apply elem_of_gridCells.
  - intros c. rewrite elem_of_difference, elem_of_union, elem_of_singleton. tauto.
Qed.

Lemma floodFill_fuel_enough (g : Grid) :
  (4 * (Z.to_nat (grid_size g) * Z.to_nat (grid_size g)) + 2 ≤ floodFill_fuel g)%nat.
Proof.
  unfold floodFill_fuel.
  assert (H : 0 ≤ grid_size g * grid_size g) by nia.
  assert (H2 : Z.of_nat (Z.to_nat (grid_size g) * Z.to_nat (grid_size g))
               ≤ grid_size g * grid_size g).
  { rewrite Nat2Z.inj_mul. destruct (Z_le_gt_dec 0 (grid_size g)).
    - rewrite Z2Nat.id by done. lia.
    - replace (Z.to_nat (grid_size g)) with 0%nat by lia. simpl. nia. }
  generalize dependent (grid_size g * grid_size g). intros sq H H2.
  generalize dependent (Z.to_nat (grid_size g) * Z.to_nat (grid_size g))%nat.
  intros n H2. lia.
Qed.

Lemma floodFillRoads_total (g : Grid) (x z : Z) : is_Some (floodFillRoads g x z).
Proof.
  apply floodFill_loop_total.
  pose proof (size_gridCells g) as Hsz.
  pose proof (floodFill_fuel_enough g) as Hfuel.
  assert (Hsub : (size (gridCells g ∖ (∅ : gset Cell)) ≤ size (gridCells g))%nat).
  { apply subseteq_size. intros c Hc. apply elem_of_difference in Hc. tauto. }
  change (length [(x, z)]) with 1%nat. lia.
Qed.

Lemma rebuildRoadNetwork_total (bs : list PlacedBuilding) (g : Grid) (fp : Cell) :
  ∃ reachable, rebuildRoadNetwork bs g fp = Some (cleanGhostTiles bs g, reachable).
Proof.
  unfold rebuildRoadNetwork. generalize (cleanGhostTiles bs g). intros g'.
  assert (∀ (cs : list Cell) (acc : gset Cell),
            is_Some (foldl (λ (acc : option (gset Cell)) (c : Cell),
                              acc ← acc;
                              roads ← floodFillRoads g' c.1 c.2;
                              Some (acc ∪ roads))
                           (Some acc) cs)) as Hfold.
  { induction cs as [|c cs IH]; intros acc; [by eexists|].
    cbn [foldl mbind option_bind].
    destruct (floodFillRoads_total g' c.1 c.2) as [r ->]. apply IH. }
  destruct (Hfold (footprint fp.1 fp.2 (def_size (BUILDINGS forum))) ∅) as [r Hr].
  exists r. by rewrite Hr.
Qed.

(** ** Spawning walkers *)

Lemma Walker_spawn_spec (rng : Rng) (k : nat) (ws : list Walker)
    (type : WalkerType) (x z : Z) (g : Grid) (size : Z) :
  rng_ok rng →
  let roads := getAdjacentRoadTiles g x z size in
  ∃ (ws' : list Walker) (k' : nat),
    Walker_spawn rng k ws type x z g size = Some (ws', k') ∧
    (roads = [] → type ≠ soldier → ws' = ws ∧ k' = k) ∧
    (roads ≠ [] ∨ type = soldier →
       ∃ w, ws' = ws ++ [w] ∧ w_type w = type ∧
            lifespan w = WALKER_LIFESPAN ∧
            (homeX w, homeZ w) = (x, z) ∧
            (w_targetX w, w_targetZ w) = (gridX w, gridZ w) ∧
            (roads ≠ [] → (gridX w, gridZ w) ∈ roads)).
Proof.
  intros Hok roads. unfold Walker_spawn. fold roads.
  destruct (decide (roads = [])) as [Hr|Hr].
  - rewrite bool_decide_eq_false_2 by (intros H; by apply H).
    destruct (decide (type = soldier)) as [Ht|Ht].
    + rewrite bool_decide_eq_true_2 by done. unfold findAdjacentEmptyTile.
      destruct (decide (emptyPerimeter g x z size = [])) as [He|He].
      * rewrite bool_decide_eq_false_2 by (intros H; by apply H).
        cbn [mbind option_bind]. eexists _, _. split; [reflexivity|].
        split; [done|]. intros _. eexists. split; [reflexivity|].
        repeat split; try done.
      * rewrite bool_decide_eq_true_2 by done.
        destruct (randomPick_Some rng k _ Hok He) as (c & -> & _).
        cbn [mbind option_bind]. eexists _, _. split; [reflexivity|].
        split; [done|]. intros _. eexists. split; [reflexivity|].
        repeat split; try done.
    + rewrite bool_decide_eq_false_2 by done.
      eexists _, _. split; [reflexivity|]. split; [done|].
      intros [?|?]; done.
  - rewrite bool_decide_eq_true_2 by done.
    destruct (randomPick_Some rng k roads Hok Hr) as (c & -> & Hc & _).
    cbn [mbind option_bind]. eexists _, _. split; [reflexivity|].
    split; [done|]. intros _. eexists. split; [reflexivity|].
    repeat split; try done. intros _. simpl.
    destruct c. apply list_elem_of_lookup. eauto.
Qed.

Lemma ofType_app t ws1 ws2 : ofType t (ws1 ++ ws2) = ofType t ws1 ++ ofType t ws2.
Proof. apply filter_app. Qed.

Lemma ofType_all t ws : Forall (λ w, w_type w = t) ws → ofType t ws = ws.
Proof.
  induction 1 as [|w ws Hw _ IH]; [done|].
  unfold ofType in *. by rewrite filter_cons_True, IH.
Qed.

Lemma ofType_none t ws : Forall (λ w, w_type w ≠ t) ws → ofType t ws = [].
Proof.
  induction 1 as [|w ws Hw _ IH]; [done|].
  unfold ofType in *. by rewrite filter_cons_False, IH.
Qed.

(** A spawn loop over [cells] appends walkers of its type only, fresh from
    [spawn] (full lifespan): none when its condition is off, otherwise one
    for every cell that has an adjacent road (for every cell at all when
    the type is the soldier). *)
Lemma spawnFrom_spec (rng : Rng) (type : WalkerType) (size : Z) (fire : bool)
    (g : Grid) (cells : list Cell) :
  rng_ok rng →
  ∀ (ws : list Walker) (k : nat),
  ∃ (news : list Walker) (k' : nat),
    spawnFrom rng type size fire g cells (Some (ws, k)) = Some (ws ++ news, k') ∧
    Forall (λ w, w_type w = type ∧ lifespan w = WALKER_LIFESPAN) news ∧
    (fire = false → news = [] ∧ k' = k) ∧
    (fire = true →
       length news =
       length (filter (λ c : Cell,
                         getAdjacentRoadTiles g c.1 c.2 size ≠ [] ∨ type = soldier)
                      cells)).
Proof.
  intros Hok. unfold spawnFrom.
  induction cells as [|c cells IH]; intros ws k.
  { exists [], k. rewrite app_nil_r. split; [done|]. split; [done|]. done. }
  cbn [foldl mbind option_bind]. destruct fire.
  - cbn [fst snd].
    destruct (Walker_spawn_spec rng k ws type c.1 c.2 g size Hok)
      as (ws1 & k1 & -> & Hnone & Hsome).
    destruct (IH ws1 k1) as (news & k' & -> & Hall & _ & Hcount).
    destruct (decide (getAdjacentRoadTiles g c.1 c.2 size ≠ [] ∨ type = soldier))
      as [Hc|Hc].
    + destruct (Hsome Hc) as (w & -> & Hw & Hl & _).
      exists (w :: news), k'. split; [by rewrite <- app_assoc|].
      split; [by apply Forall_cons|]. split; [done|]. intros _.
      rewrite filter_cons_True by done. simpl. by rewrite (Hcount eq_refl).
    + destruct (Hnone) as [-> ->].
      { destruct (decide (getAdjacentRoadTiles g c.1 c.2 size = [])); [done|].
        exfalso. apply Hc. by left. }
      { intros ->. apply Hc. by right. }
      exists news, k'. split; [done|]. split; [done|]. split; [done|]. intros _.
      rewrite filter_cons_False by done. by apply Hcount.
  - destruct (IH ws k) as (news & k' & Hf & Hall & Hoff & _).
    exists news, k'. split; [done|]. split; [done|]. split; [|done].
    intros _. by apply Hoff.
Qed.

Lemma Qpositive_spec (q : Q) : Qpositive q = true ↔ (0 < q)%Q.
Proof.
  unfold Qpositive. rewrite negb_true_iff. split.
  - intros H. apply Qnot_le_lt. intros Hle. apply Qle_bool_iff in Hle. congruence.
  - intros H. destruct (Qle_bool q 0) eqn:E; [|done].
    apply Qle_bool_iff in E. exfalso. by apply (Qlt_not_le 0 q).
Qed.

(** The spawn phase appends, in this order, the new water walkers, food
    walkers, soldiers and farmers.  The water walkers are those of the well
    loop run on its own, which does not look at any resource; food walkers
    appear only on the market cadence and with a positive food stock. *)
Lemma spawnPhase_spec (rng : Rng) (tick : Z) (stock : Q) (sc : Scan) (g : Grid)
    (ws : list Walker) (k : nat) :
  rng_ok rng →
  ∃ (nw nf ns nfa : list Walker) (kw k' : nat),
    spawnPhase rng tick stock sc g ws k = Some (ws ++ nw ++ nf ++ ns ++ nfa, k') ∧
    spawnFrom rng water 1 (Z.rem tick WELL_SPAWN_INTERVAL =? 0) g (sc_wells sc)
              (Some (ws, k)) = Some (ws ++ nw, kw) ∧
    Forall (λ w, w_type w = water ∧ lifespan w = WALKER_LIFESPAN) nw ∧
    Forall (λ w, w_type w = food ∧ lifespan w = WALKER_LIFESPAN) nf ∧
    Forall (λ w, w_type w = soldier ∧ lifespan w = WALKER_LIFESPAN) ns ∧
    Forall (λ w, w_type w = farmer ∧ lifespan w = WALKER_LIFESPAN) nfa ∧
    length nw = (if Z.rem tick WELL_SPAWN_INTERVAL =? 0
                 then roadside g (sc_wells sc) else 0%nat) ∧
    length nf = (if (Z.rem tick MARKET_SPAWN_INTERVAL =? 0) && Qpositive stock
                 then roadside g (sc_markets sc) else 0%nat).
Proof.
  intros Hok. unfold spawnPhase.
  destruct (spawnFrom_spec rng water 1 (Z.rem tick WELL_SPAWN_INTERVAL =? 0) g
              (sc_wells sc) Hok ws k) as (nw & kw & Hw & Hnw & Hw0 & Hw1).
  rewrite Hw.
  destruct (spawnFrom_spec rng food 1
              ((Z.rem tick MARKET_SPAWN_INTERVAL =? 0) && Qpositive stock) g
              (sc_markets sc) Hok (ws ++ nw) kw) as (nf & kf & Hf & Hnf & Hf0 & Hf1).
  rewrite Hf.
  destruct (spawnFrom_spec rng soldier (def_size (BUILDINGS barracks))
              (Z.rem tick BARRACKS_SPAWN_INTERVAL =? 0) g
              (sc_barracks sc) Hok ((ws ++ nw) ++ nf) kf) as (ns & ks & Hs & Hns & _).
  rewrite Hs.
  destruct (spawnFrom_spec rng farmer (def_size (BUILDINGS farm))
              (Z.rem tick FARM_SPAWN_INTERVAL =? 0) g
              (sc_farms sc) Hok (((ws ++ nw) ++ nf) ++ ns) ks) as (nfa & k' & Hfa & Hnfa & _).
  rewrite Hfa.
  exists nw, nf, ns, nfa, kw, k'. split; [by rewrite <- !app_assoc|].
  split; [done|]. split; [done|]. split; [done|]. split; [done|]. split; [done|].
  assert (Hside : ∀ (t : WalkerType) (cells : list Cell), t ≠ soldier →
            length (filter (λ c : Cell,
                              getAdjacentRoadTiles g c.1 c.2 1 ≠ [] ∨ t = soldier) cells)
            = roadside g cells).
  { intros t cells Ht. unfold roadside. f_equal. apply list_filter_iff.
    intros c. split; [by intros [?|?]|by left]. }
  split.
  - destruct (Z.rem tick WELL_SPAWN_INTERVAL =? 0).
    + by rewrite (Hw1 eq_refl), Hside.
    + by destruct (Hw0 eq_refl) as [-> _].
  - destruct ((Z.rem tick MARKET_SPAWN_INTERVAL =? 0) && Qpositive stock).
    + by rewrite (Hf1 eq_refl), Hside.
    + by destruct (Hf0 eq_refl) as [-> _].
Qed.

(** ** InvasionSystem.spawnWave *)

Lemma spawnOne_fold (rng : Rng) (fp : Cell) (g : Grid) (w edge : Z) (l : list Z) :
  ∀ (invs : list Invader) (k : nat),
  ∃ news : list Invader,
    foldl (spawnOne rng fp g w edge) (Some (invs, k)) l
      = Some (invs ++ news, (k + length l)%nat) ∧
    length news = length l ∧
    Forall (λ inv, inv_hp inv = waveHp w ∧ maxHp inv = waveHp w ∧
                   damage inv = waveDamage w ∧ inv_state inv = moving ∧
                   pathIndex inv = 1) news.
Proof.
  induction l as [|i l IH]; intros invs k.
  { exists []. rewrite app_nil_r, Nat.add_0_r. done. }
  cbn [foldl]. unfold spawnOne at 2. cbn [mbind option_bind fst snd].
  match goal with |- context [computePath fp ?i g] =>
    destruct (computePath_fields fp i g)
      as (inv' & -> & _ & _ & Hhp & Hmax & Hdmg & Hst & _ & Hidx) end.
  cbn [mbind option_bind].
  destruct (IH (invs ++ [inv']) (S k)) as (news & -> & Hlen & Hall).
  exists (inv' :: news). split.
  { rewrite <- app_assoc. simpl. do 2 f_equal. lia. }
  split; [simpl; lia|]. apply Forall_cons. split; [|done]. done.
Qed.

(** C6. From wave number [w >= 0], [spawnWave] returns and adds exactly
    [floor (1 + 1.5 w)] invaders, each with hit points and maximum hit
    points [8 + 3 w] (an integer, so flooring it changes nothing) and
    damage [floor (2 + 0.5 w)]; all three quantities are non-decreasing in
    the wave number. *)
Theorem spawnWave_scaling (rng : Rng) (sys : InvasionSystem) (g : Grid) (k : nat) :
  0 ≤ waveNumber sys →
  let w := waveNumber sys in
  let count := λ w : Z, Qfloor (inject_Z 1 + inject_Z w * (3 # 2)) in
  let hitPoints := λ w : Z, 8 + 3 * w in
  let dmg := λ w : Z, Qfloor (inject_Z 2 + inject_Z w * (1 # 2)) in
  (∃ (news : list Invader) (k' : nat),
     spawnWave rng sys g k = Some (invaders sys ++ news, k') ∧
     Z.of_nat (length news) = count w ∧
     Forall (λ inv, inv_hp inv = hitPoints w ∧ maxHp inv = hitPoints w ∧
                    Qfloor (inject_Z (inv_hp inv)) = hitPoints w ∧
                    damage inv = dmg w ∧ inv_state inv = moving) news) ∧
  count w = (2 + 3 * w) / 2 ∧ dmg w = (4 + w) / 2 ∧
  (∀ w' : Z, w ≤ w' →
     count w ≤ count w' ∧ hitPoints w ≤ hitPoints w' ∧ dmg w ≤ dmg w').
Proof.
  intros Hw w count hitPoints dmg.
  assert (Hcount : ∀ v, count v = waveCount v) by reflexivity.
  assert (Hdmg : ∀ v, dmg v = waveDamage v) by reflexivity.
  assert (Hhp : ∀ v, hitPoints v = waveHp v).
  { intros v. by rewrite waveHp_eq. }
  split; [|split; [|split]].
  - unfold spawnWave. fold w.
    destruct (spawnOne_fold rng (inv_forumPos sys) g w (randomBelow rng k 4)
                (seqZ 0 (waveCount w)) (invaders sys) (S k))
      as (news & -> & Hlen & Hall).
    exists news, (S k + length (seqZ 0 (waveCount w)))%nat. split; [done|].
    split.
    + rewrite Hlen, length_seqZ, Z2Nat.id; [done|].
      rewrite waveCount_eq. apply Z.div_pos; lia.
    + eapply Forall_impl; [exact Hall|]. intros inv (H1 & H2 & H3 & H4 & _).
      rewrite Hhp, Hdmg, H1, Qfloor_Z. done.
  - by rewrite Hcount, waveCount_eq.
  - by rewrite Hdmg, waveDamage_eq.
  - intros w' Hw'. rewrite !Hcount, !Hdmg, !Hhp. by apply wave_scaling_mono.
Qed.

(** ** InvasionSystem.tick *)

Lemma attackBuilding_forum (inv : Invader) (g : Grid) :
  forumAlive g →
  (attackBuilding inv g).2 = Some ForumDestroyed ∨
  forumAlive (attackBuilding inv g).1.
Proof.
  intros Halive. unfold attackBuilding.
  destruct (getTile g (inv_x inv) (inv_z inv)) as [tile|] eqn:Ht; [|by right].
  destruct (building tile) as [type|] eqn:Hb; [|by right].
  set (f := λ t : Tile, setBuilding (building t) (buildingHp t - damage inv) t).
  assert (Hg : ∀ x z tile', getTile (modifyTile g (inv_x inv) (inv_z inv) f) x z
                              = Some tile' →
            building tile' = Some forum →
            ((x, z) = (inv_x inv, inv_z inv) ∧ type = forum ∧
             buildingHp tile' = buildingHp tile - damage inv) ∨
            0 < buildingHp tile').
  { intros x z tile' Hget Hforum. rewrite getTile_modifyTile in Hget.
    case_decide as Heq.
    - injection Heq as <- <-. rewrite Ht in Hget. injection Hget as <-.
      left. simpl in Hforum. split; [done|]. split; [congruence|done].
    - right. by eapply Halive. }
  destruct (buildingHp tile - damage inv <=? 0) eqn:Hhp.
  - case_bool_decide as Hty; [by left|right]. simpl.
    intros x z tile' Hget Hforum. destruct (Hg x z tile' Hget Hforum) as [(_ & ? & _)|?]; done.
  - right. simpl. apply Z.leb_gt in Hhp.
    intros x z tile' Hget Hforum.
    destruct (Hg x z tile' Hget Hforum) as [(_ & _ & ->)|?]; done.
Qed.

(** One attack keeps the invariant "the result signals the destroyed forum
    or every forum tile has hit points left", and never fails. *)
Lemma attackStep_spec (fp : Cell) (st : AttackLoop) (inv : Invader) :
  ∃ st', attackStep fp (Some st) inv = Some st' ∧
    length (loop_invaders st') = S (length (loop_invaders st)) ∧
    (signalsForumDestroyed (loop_result st) = true ∨ forumAlive (loop_grid st) →
     signalsForumDestroyed (loop_result st') = true ∨ forumAlive (loop_grid st')).
Proof.
  unfold attackStep. cbn [mbind option_bind].
  case_bool_decide as Hatt.
  2:{ eexists. split; [reflexivity|]. split; [|done].
      cbn. rewrite length_app. simpl. lia. }
  destruct (attackCooldown inv - 1 <=? 0).
  2:{ eexists. split; [reflexivity|]. split; [|done].
      cbn. rewrite length_app. simpl. lia. }
  pose proof (attackBuilding_forum (setCooldown inv ATTACK_COOLDOWN) (loop_grid st))
    as Hforum.
  destruct (attackBuilding (setCooldown inv ATTACK_COOLDOWN) (loop_grid st))
    as [g' [dmg|]] eqn:Hab; simpl in Hforum.
  2:{ eexists. split; [reflexivity|]. split.
      { cbn. rewrite length_app. simpl. lia. }
      cbn. intros [?|Ha]; [by left|]. destruct (Hforum Ha); [done|by right]. }
  destruct dmg as [|x z type|x z ratio].
  - eexists. split; [reflexivity|]. split.
    { cbn. rewrite length_app. simpl. lia. }
    intros _. by left.
  - destruct (computePath_fields fp (setState (setCooldown inv ATTACK_COOLDOWN) moving) g')
      as (inv' & -> & _).
    cbn [mbind option_bind]. eexists. split; [reflexivity|]. split.
    { cbn. rewrite length_app. simpl. lia. }
    cbn. intros [Hs|Ha].
    + left. by destruct (loop_result st).
    + destruct (Hforum Ha); [done|by right].
  - eexists. split; [reflexivity|]. split.
    { cbn. rewrite length_app. simpl. lia. }
    cbn. intros [Hs|Ha].
    + left. by destruct (loop_result st).
    + destruct (Hforum Ha); [done|by right].
Qed.

Lemma attackLoop_spec (fp : Cell) (invs : list Invader) :
  ∀ st : AttackLoop,
  ∃ st', foldl (attackStep fp) (Some st) invs = Some st' ∧
    (signalsForumDestroyed (loop_result st) = true ∨ forumAlive (loop_grid st) →
     signalsForumDestroyed (loop_result st') = true ∨ forumAlive (loop_grid st')).
Proof.
  induction invs as [|inv invs IH]; intros st; [by exists st|].
  cbn [foldl]. destruct (attackStep_spec fp st inv) as (st1 & -> & _ & H1).
  destruct (IH st1) as (st' & -> & H2). exists st'. split; [done|]. tauto.
Qed.

(** [InvasionSystem.tick] always returns.  It fires a wave exactly when
    the decremented countdown is not positive; it keeps the forum position
    and the invariant of the attack loop. *)
Lemma Invasion_tick_spec (rng : Rng) (sys : InvasionSystem) (g : Grid) (k : nat) :
  ∃ (sys' : InvasionSystem) (g' : Grid) (k' : nat) (r : option TickResult),
    Invasion_tick rng sys g k = Some (sys', g', k', r) ∧
    inv_forumPos sys' = inv_forumPos sys ∧
    (ticksUntilNextWave sys - 1 ≤ 0 →
       waveNumber sys' = waveNumber sys + 1 ∧
       ticksUntilNextWave sys' =
         Z.max MIN_WAVE_INTERVAL
               (BASE_WAVE_INTERVAL - (waveNumber sys + 1) * WAVE_ACCELERATION)) ∧
    (0 < ticksUntilNextWave sys - 1 →
       waveNumber sys' = waveNumber sys ∧
       ticksUntilNextWave sys' = ticksUntilNextWave sys - 1 ∧ k' = k) ∧
    (forumAlive g → signalsForumDestroyed r = true ∨ forumAlive g').
Proof.
  unfold Invasion_tick.
  destruct (ticksUntilNextWave sys - 1 <=? 0) eqn:Hfire.
  - unfold spawnWave.
    destruct (spawnOne_fold rng (inv_forumPos sys) g (waveNumber sys)
                (randomBelow rng k 4) (seqZ 0 (waveCount (waveNumber sys)))
                (invaders sys) (S k)) as (news & -> & _).
    cbn [mbind option_bind].
    destruct (attackLoop_spec (inv_forumPos sys) (invaders sys ++ news)
                (mkLoop g None [])) as (st' & -> & Hinv).
    cbn [mbind option_bind]. eexists _, _, _, _. split; [reflexivity|].
    split; [done|]. apply Z.leb_le in Hfire. split; [done|]. split; [lia|].
    intros Ha. apply Hinv. by right.
  - cbn [mbind option_bind].
    destruct (attackLoop_spec (inv_forumPos sys) (invaders sys)
                (mkLoop g None [])) as (st' & -> & Hinv).
    cbn [mbind option_bind]. eexists _, _, _, _. split; [reflexivity|].
    split; [done|]. apply Z.leb_gt in Hfire. split; [lia|]. split; [done|].
    intros Ha. apply Hinv. by right.
Qed.

(** C5. When the [w]-th wave fires ([w >= 1] is the wave number after the
    increment), the tick returns and sets the countdown to
    [max 12 (25 - w)].  That interval drops by exactly 1 from one wave to
    the next while it is above 12 (waves 1 to 12), is 12 from wave 13 on,
    is never negative, and is always shorter than the first-wave delay of
    30 ticks that a new invasion system starts with. *)
Theorem wave_interval (rng : Rng) (sys : InvasionSystem) (g : Grid) (k : nat)
    (w : Z) :
  1 ≤ w → waveNumber sys + 1 = w → ticksUntilNextWave sys - 1 ≤ 0 →
  let interval := λ w : Z, Z.max 12 (25 - w) in
  (∃ (sys' : InvasionSystem) (g' : Grid) (k' : nat) (r : option TickResult),
     Invasion_tick rng sys g k = Some (sys', g', k', r) ∧
     waveNumber sys' = w ∧ ticksUntilNextWave sys' = interval w) ∧
  (w < 13 → interval (w + 1) = interval w - 1) ∧
  (13 ≤ w → interval w = 12 ∧ interval (w + 1) = 12) ∧
  interval (w + 1) ≤ interval w ∧
  0 ≤ 12 ≤ interval w ∧
  ticksUntilNextWave (newInvasionSystem (inv_forumPos sys)) = 30 ∧
  interval w < ticksUntilNextWave (newInvasionSystem (inv_forumPos sys)).
Proof.
  intros Hw Hnum Hfire interval.
  split.
  - destruct (Invasion_tick_spec rng sys g k)
      as (sys' & g' & k' & r & Htick & _ & Hf & _).
    destruct (Hf Hfire) as [Hwave Hticks].
    exists sys', g', k', r. split; [done|]. split; [lia|].
    rewrite Hticks. unfold interval, MIN_WAVE_INTERVAL, BASE_WAVE_INTERVAL,
      WAVE_ACCELERATION. rewrite Hnum. f_equal. lia.
  - unfold interval. cbn [ticksUntilNextWave newInvasionSystem].
    unfold FIRST_WAVE_DELAY. lia.
Qed.

Lemma wave_interval_witness :
  ∃ sys' g' k' r,
    Invasion_tick rng_zero (mkInvasion [] 0 1 (15, 15) false false)
                  (newGrid GRID_SIZE) 0%nat = Some (sys', g', k', r) ∧
    waveNumber sys' = 1 ∧ ticksUntilNextWave sys' = 24.
Proof.
  destruct (wave_interval rng_zero (mkInvasion [] 0 1 (15, 15) false false)
              (newGrid GRID_SIZE) 0%nat 1) as [H _]; [lia|reflexivity|simpl; lia|].
  exact H.
Defined.

Lemma spawnWave_scaling_witness :
  ∃ news k',
    spawnWave rng_zero (mkInvasion [] 3 1 (15, 15) false false)
              (newGrid GRID_SIZE) 0%nat = Some ([] ++ news, k') ∧
    Z.of_nat (length news) = 5 ∧
    Forall (λ inv, inv_hp inv = 17 ∧ damage inv = 3) news.
Proof.
  destruct (spawnWave_scaling rng_zero (mkInvasion [] 3 1 (15, 15) false false)
              (newGrid GRID_SIZE) 0%nat) as [(news & k' & Hs & Hlen & Hall) _];
    [simpl; lia|].
  exists news, k'. split; [exact Hs|]. split; [exact Hlen|].
  eapply Forall_impl; [exact Hall|]. intros inv (H1 & _ & _ & H2 & _).
  split; [exact H1|exact H2].
Defined.

(** ** What the tick does to forum tiles *)

Lemma forumKept_refl g : forumKept g g.
Proof. intros x z t Ht Hb. eauto. Qed.

Lemma forumKept_trans g1 g2 g3 : forumKept g1 g2 → forumKept g2 g3 → forumKept g1 g3.
Proof.
  intros H12 H23 x z t3 Ht Hb.
  destruct (H23 x z t3 Ht Hb) as (t2 & Ht2 & Hb2 & Hhp2).
  destruct (H12 x z t2 Ht2 Hb2) as (t1 & Ht1 & Hb1 & Hhp1).
  exists t1. split; [done|]. split; [done|]. congruence.
Qed.

Lemma forumKept_alive g g' : forumKept g g' → forumAlive g → forumAlive g'.
Proof.
  intros Hk Ha x z t' Ht Hb. destruct (Hk x z t' Ht Hb) as (t & Ht0 & Hb0 & <-).
  by eapply Ha.
Qed.

Lemma forumKept_modifyTile g x z (f : Tile → Tile) :
  (∀ t, building (f t) = Some forum →
        building t = Some forum ∧ buildingHp (f t) = buildingHp t) →
  forumKept g (modifyTile g x z f).
Proof.
  intros Hf x' z' t' Ht Hb. rewrite getTile_modifyTile in Ht.
  case_decide; [|eauto].
  destruct (getTile g x' z') as [t|] eqn:Hg; [|done]. injection Ht as <-.
  destruct (Hf t Hb) as [? ?]. eauto.
Qed.

Lemma forumKept_sweep (f : Tile → Tile) cs :
  (∀ t, building (f t) = Some forum →
        building t = Some forum ∧ buildingHp (f t) = buildingHp t) →
  ∀ g, forumKept g (sweep f g cs).
Proof.
  intros Hf. induction cs as [|c cs IH]; intros g; [apply forumKept_refl|].
  rewrite sweep_cons. eapply forumKept_trans; [|apply IH].
  by apply forumKept_modifyTile.
Qed.

Lemma forumKept_cleanGhostTiles bs g : forumKept g (cleanGhostTiles bs g).
Proof.
  unfold cleanGhostTiles. generalize allCells. intros cs. revert g.
  induction cs as [|c cs IH]; intros g; [apply forumKept_refl|].
  cbn [foldl]. eapply forumKept_trans; [|apply IH].
  destruct (getTile g c.1 c.2) as [tile|]; [|apply forumKept_refl].
  case_bool_decide; [apply forumKept_refl|].
  destruct (existsb _ bs); [apply forumKept_refl|].
  apply forumKept_modifyTile. intros t Hb. done.
Qed.

Lemma forumKept_removeBuildingAt bs g x z :
  forumKept g (removeBuildingAt bs g x z).2.
Proof.
  unfold removeBuildingAt. destruct (list_find _ bs) as [[idx b]|]; simpl.
  - apply forumKept_sweep. intros t Hb. done.
  - apply forumKept_refl.
Qed.

Lemma forumKept_removeDestroyed destroyed :
  ∀ bs g, forumKept g (removeDestroyed bs g destroyed).2.
Proof.
  unfold removeDestroyed.
  induction destroyed as [|d ds IH]; intros bs g; [apply forumKept_refl|].
  cbn [foldl fst snd].
  pose proof (forumKept_removeBuildingAt bs g d.1.1 d.1.2) as Hk.
  destruct (removeBuildingAt bs g d.1.1 d.1.2) as [bs' g'].
  eapply forumKept_trans; [exact Hk|apply IH].
Qed.

Lemma forumKept_scanStep reachable sc c :
  forumKept (sc_grid sc) (sc_grid (scanStep reachable sc c)).
Proof.
  unfold scanStep. destruct (getTile (sc_grid sc) c.1 c.2); [|apply forumKept_refl].
  simpl. apply forumKept_modifyTile. intros t0 Hb. done.
Qed.

Lemma forumKept_scanGrid reachable g : forumKept g (sc_grid (scanGrid reachable g)).
Proof.
  unfold scanGrid.
  change g with (sc_grid (mkScan g 0 [] [] [] [] [])) at 1.
  generalize (mkScan g 0 [] [] [] [] []). generalize allCells.
  induction l as [|c cs IH]; intros sc; [apply forumKept_refl|].
  cbn [foldl]. eapply forumKept_trans; [apply forumKept_scanStep|apply IH].
Qed.

Lemma tickPrepare_spec (gm : Game) :
  ∃ g0 reachable, tickPrepare gm = Some (g0, reachable) ∧ forumKept (grid gm) g0.
Proof.
  unfold tickPrepare. destruct (roadsDirty gm).
  - destruct (rebuildRoadNetwork_total (placedBuildings gm) (grid gm) (forumPos gm))
      as (r & ->). eexists _, _. split; [done|]. apply forumKept_cleanGhostTiles.
  - eexists _, _. split; [done|]. apply forumKept_refl.
Qed.

(** ** What the road flood fill returns *)

(** The loop of [floodFillRoads] returns the linked cells, given that the
    visited cells are linked, that the queued road cells are linked, and
    that the road neighbours of visited cells are visited or queued. *)
Lemma floodFill_loop_spec (g : Grid) (s : Cell) :
  ∀ (fuel : nat) (queue : list Cell) (visited roads : gset Cell),
    floodFill_loop fuel g queue visited = Some roads →
    (∀ c, c ∈ visited → roadLinked g s c) →
    (∀ c, c ∈ queue → isRoadOrForumAt g c = true → roadLinked g s c) →
    (∀ v d, v ∈ visited → adjacent v d → isRoadOrForumAt g d = true →
            d ∈ visited ∨ d ∈ queue) →
    (isRoadOrForumAt g s = true → s ∈ visited ∨ s ∈ queue) →
    ∀ c, c ∈ roads ↔ roadLinked g s c.
Proof.
  induction fuel as [|fuel IH]; intros queue visited roads Hrun Hvis Hq Hclosed Hs.
  { destruct queue as [|[x z] queue]; [|done]. injection Hrun as <-.
    intros c. split; [apply Hvis|]. induction 1 as [Hroad|c d _ IHc Hadj Hroad].
    - destruct (Hs Hroad) as [?|Hin]; [done|]. by apply elem_of_nil in Hin.
    - destruct (Hclosed c d IHc Hadj Hroad) as [?|Hin]; [done|].
      by apply elem_of_nil in Hin. }
  destruct queue as [|[x z] queue].
  { injection Hrun as <-.
    intros c. split; [apply Hvis|]. induction 1 as [Hroad|c d _ IHc Hadj Hroad].
    - destruct (Hs Hroad) as [?|Hin]; [done|]. by apply elem_of_nil in Hin.
    - destruct (Hclosed c d IHc Hadj Hroad) as [?|Hin]; [done|].
      by apply elem_of_nil in Hin. }
  cbn [floodFill_loop] in Hrun.
  assert (Hskip : (x, z) ∈ visited ∨ isRoadOrForumAt g (x, z) = false →
            floodFill_loop fuel g queue visited = Some roads →
            ∀ c, c ∈ roads ↔ roadLinked g s c).
  { intros Hwhy Hrun'. apply (IH queue visited roads Hrun' Hvis).
    - intros c Hc. apply Hq. by apply elem_of_cons; right.
    - intros v d Hv Hadj Hroad.
      destruct (Hclosed v d Hv Hadj Hroad) as [?|Hin]; [by left|].
      apply elem_of_cons in Hin as [->|?]; [|by right].
      destruct Hwhy as [?|Hno]; [by left|congruence].
    - intros Hroad. destruct (Hs Hroad) as [?|Hin]; [by left|].
      apply elem_of_cons in Hin as [->|?]; [|by right].
      destruct Hwhy as [?|Hno]; [by left|congruence]. }
  case_bool_decide as Hv; [by apply Hskip; [left|]|].
  destruct (isInBounds g x z) eqn:Hb; cbn [negb] in Hrun.
  2:{ apply Hskip; [right|done]. unfold isRoadOrForumAt. cbn [fst snd].
      by rewrite getTile_out. }
  destruct (getTile g x z) as [tile|] eqn:Ht.
  2:{ apply Hskip; [right|done]. unfold isRoadOrForumAt. cbn [fst snd]. by rewrite Ht. }
  destruct (isRoadOrForum tile) eqn:Hroad; cbn [negb] in Hrun.
  2:{ apply Hskip; [right|done]. unfold isRoadOrForumAt. cbn [fst snd]. by rewrite Ht. }
  assert (Hxz : isRoadOrForumAt g (x, z) = true).
  { unfold isRoadOrForumAt. cbn [fst snd]. by rewrite Ht. }
  assert (Hlinked : roadLinked g s (x, z)).
  { apply Hq; [apply list_elem_of_here|done]. }
  apply (IH _ _ roads Hrun).
  - intros c Hc. apply elem_of_union in Hc as [Hc|Hc]; [|by apply Hvis].
    apply elem_of_singleton in Hc as ->. done.
  - intros c Hc Hc'. apply elem_of_app in Hc as [Hc|Hc].
    + apply Hq; [|done]. by apply elem_of_cons; right.
    + apply elem_of_neighbours in Hc. by eapply linked_step.
  - intros v d Hv' Hadj Hd. apply elem_of_union in Hv' as [Hv'|Hv'].
    + apply elem_of_singleton in Hv' as ->. right. apply elem_of_app. right.
      by apply elem_of_neighbours.
    + destruct (Hclosed v d Hv' Hadj Hd) as [?|Hin].
      * left. apply elem_of_union. by right.
      * apply elem_of_cons in Hin as [->|?].
        -- left. apply elem_of_union. left. by apply elem_of_singleton.
        -- right. apply elem_of_app. by left.
  - intros Hroad'. destruct (Hs Hroad') as [?|Hin].
    + left. apply elem_of_union. by right.
    + apply elem_of_cons in Hin as [->|?].
      * left. apply elem_of_union. left. by apply elem_of_singleton.
      * right. apply elem_of_app. by left.
Qed.

Lemma floodFillRoads_linked (g : Grid) (x z : Z) :
  ∃ roads : gset Cell,
    floodFillRoads g x z = Some roads ∧ ∀ c, c ∈ roads ↔ roadLinked g (x, z) c.
Proof.
  destruct (floodFillRoads_total g x z) as [roads Hrun]. exists roads.
  split; [done|]. apply (floodFill_loop_spec g (x, z) _ _ _ _ Hrun).
  - intros c Hc. by apply elem_of_empty in Hc.
  - intros c Hc Hroad. apply list_elem_of_singleton in Hc as ->.
    by apply linked_start.
  - intros v d Hv. by apply elem_of_empty in Hv.
  - intros _. right. apply list_elem_of_here.
Qed.

Lemma bind_Some_intro {A B : Type} (m : option A) (f : A → option B) a r :
  m = Some a → f a = r → m ≫= f = r.
Proof. intros -> <-. reflexivity. Qed.

Lemma simulationTick_eq (rng : Rng) (gm : Game) g0 reachable ws k1 sys g2 k2 result :
  gameOver gm = false →
  tickPrepare gm = Some (g0, reachable) →
  spawnPhase rng (tickCount gm + 1)
             (foodAfter (resources gm) (scanGrid reachable g0))
             (scanGrid reachable g0) (sc_grid (scanGrid reachable g0))
             (walkers gm) (draws gm) = Some (ws, k1) →
  Invasion_tick rng (invasionSystem gm) (sc_grid (scanGrid reachable g0)) k1
    = Some (sys, g2, k2, result) →
  simulationTick rng gm
  = Some (tickResolve gm reachable (scanGrid reachable g0)
                      (foodAfter (resources gm) (scanGrid reachable g0))
                      (Walker_tick ws) sys g2 k2 result).
Proof.
  intros H1 H2 H3 H4. unfold simulationTick. rewrite H1.
  eapply bind_Some_intro; [exact H2|]. cbv beta iota zeta.
  eapply bind_Some_intro; [exact H3|]. cbv beta iota.
  eapply bind_Some_intro; [exact H4|]. reflexivity.
Qed.

(** ** Walkers through the tick *)

Lemma Walker_tick_app ws1 ws2 :
  Walker_tick (ws1 ++ ws2) = Walker_tick ws1 ++ Walker_tick ws2.
Proof. unfold Walker_tick. by rewrite fmap_app, filter_app. Qed.

(** Walkers fresh from [spawn] all survive [WalkerSystem.tick]. *)
Lemma Walker_tick_fresh (t : WalkerType) (news : list Walker) :
  Forall (λ w, w_type w = t ∧ lifespan w = WALKER_LIFESPAN) news →
  Forall (λ w, w_type w = t ∧ lifespan w = WALKER_LIFESPAN - 1) (Walker_tick news) ∧
  length (Walker_tick news) = length news.
Proof.
  induction 1 as [|w ws [Hty Hl] _ [IH1 IH2]]; [done|].
  unfold Walker_tick in *. rewrite fmap_cons, filter_cons_True.
  2:{ simpl. rewrite Hl. unfold WALKER_LIFESPAN. lia. }
  split; [|simpl; by rewrite IH2].
  apply Forall_cons. split; [|done]. simpl. by rewrite Hl.
Qed.

Lemma Forall_type_weaken (t : WalkerType) (P : Walker → Prop) ws :
  Forall (λ w, w_type w = t ∧ P w) ws → Forall (λ w, w_type w = t) ws.
Proof. intros H. eapply Forall_impl; [exact H|]. by intros w [? _]. Qed.

Lemma Forall_type_other (t t' : WalkerType) (P : Walker → Prop) ws :
  t ≠ t' → Forall (λ w, w_type w = t ∧ P w) ws → Forall (λ w, w_type w ≠ t') ws.
Proof. intros Hne H. eapply Forall_impl; [exact H|]. intros w [-> _]. done. Qed.

(** [CombatSystem.update] only ever removes soldiers. *)
Lemma combatStep_ofType (t : WalkerType) st w :
  t ≠ soldier →
  ofType t (combatStep st w).2 = ofType t st.2 ++ ofType t [w].
Proof.
  intros Ht. unfold combatStep. case_bool_decide as Hw; [by rewrite <- ofType_app|].
  assert (w_type w = soldier) as Hs by (by destruct (w_type w)).
  assert (Hnil : ∀ h, ofType t [setWalkerHp w h] = []).
  { intros h. unfold ofType. rewrite filter_cons_False; [done|]. simpl. congruence. }
  assert (Hnil' : ofType t [w] = []).
  { unfold ofType. rewrite filter_cons_False; [done|]. congruence. }
  destruct (findNearestInvader _ _ _ _) as [[i target]|]; [|by rewrite <- ofType_app].
  destruct (_ <=? 1); [|by rewrite <- ofType_app].
  cbn [snd]. destruct (_ <=? 0).
  - by rewrite Hnil', app_nil_r.
  - by rewrite ofType_app, Hnil, Hnil'.
Qed.

Lemma Combat_update_ofType (t : WalkerType) ws invs :
  t ≠ soldier → ofType t (Combat_update ws invs).2 = ofType t ws.
Proof.
  intros Ht. unfold Combat_update.
  assert (H : ∀ st, ofType t (foldl combatStep st ws).2
                    = ofType t st.2 ++ ofType t ws).
  { induction ws as [|w ws IH]; intros st.
    - simpl. unfold ofType at 3. by rewrite app_nil_r.
    - cbn [foldl]. rewrite IH, combatStep_ofType by done.
      rewrite <- app_assoc. f_equal. by rewrite <- ofType_app. }
  by rewrite H.
Qed.

(** ** The scan loop *)

Lemma countMaxPop_nonneg (g : Grid) : 0 ≤ countMaxPop g.
Proof.
  unfold countMaxPop. generalize allCells. intros cs.
  assert (H : ∀ acc, 0 ≤ acc →
            0 ≤ foldl (λ (maxPop : Z) (c : Cell),
                        match getTile g c.1 c.2 with
                        | Some tile =>
                            if bool_decide (building tile = Some house)
                               && hasWater tile && hasFood tile
                            then maxPop + MAX_POP_PER_HOUSE else maxPop
                        | None => maxPop
                        end) acc cs).
  { induction cs as [|c cs IH]; intros acc Hacc; [done|].
    cbn [foldl]. apply IH. destruct (getTile g c.1 c.2) as [tile|]; [|done].
    destruct (_ && _); [|done]. unfold MAX_POP_PER_HOUSE. lia. }
  by apply H.
Qed.

Lemma sameBuildings_refl g : sameBuildings g g.
Proof. by split. Qed.

Lemma sameBuildings_trans g1 g2 g3 :
  sameBuildings g1 g2 → sameBuildings g2 g3 → sameBuildings g1 g3.
Proof. intros [H1 H2] [H3 H4]. split; [congruence|]. intros x z. by rewrite H4. Qed.

Lemma sameBuildings_modifyTile g x z (f : Tile → Tile) :
  (∀ t, building (f t) = building t ∧ buildingHp (f t) = buildingHp t) →
  sameBuildings g (modifyTile g x z f).
Proof.
  intros Hf. split; [apply grid_size_modifyTile|]. intros x' z'.
  rewrite getTile_modifyTile. case_decide; [|done].
  destruct (getTile g x' z') as [t|]; [|done]. simpl.
  by destruct (Hf t) as [-> ->].
Qed.

Lemma isKindAt_same g g' type c :
  sameBuildings g g' → isKindAt g' type c = isKindAt g type c.
Proof.
  intros [_ H]. unfold isKindAt. specialize (H c.1 c.2).
  destruct (getTile g' c.1 c.2) as [t'|], (getTile g c.1 c.2) as [t|];
    try done. simpl in H. by injection H as -> _.
Qed.

Lemma scanStep_spec (reachable : gset Cell) (g0 : Grid) (sc : Scan) (c : Cell) :
  sameBuildings g0 (sc_grid sc) →
  let keep := λ (type : BuildingType) (c : Cell),
    isKindAt g0 type c && isBuildingConnected g0 c.1 c.2 1 reachable in
  sameBuildings g0 (sc_grid (scanStep reachable sc c)) ∧
  sc_wells (scanStep reachable sc c) = sc_wells sc ++ filter (keep well) [c] ∧
  sc_markets (scanStep reachable sc c) = sc_markets sc ++ filter (keep market) [c].
Proof.
  intros Hsame keep.
  assert (Hkind : ∀ type, isKindAt (sc_grid sc) type c = isKindAt g0 type c).
  { intros type. by apply isKindAt_same. }
  assert (Hfilter : ∀ type (l : list Cell),
            (if isKindAt g0 type c && isBuildingConnected g0 c.1 c.2 1 reachable
             then l ++ [c] else l) = l ++ filter (keep type) [c]).
  { intros type l. unfold keep.
    destruct (isKindAt g0 type c && isBuildingConnected g0 c.1 c.2 1 reachable) eqn:E.
    - rewrite filter_cons_True; [by rewrite filter_nil|].
      apply Is_true_true_2. exact E.
    - rewrite filter_cons_False; [by rewrite filter_nil, app_nil_r|].
      apply Is_true_false_2. exact E. }
  unfold scanStep. unfold isKindAt in Hkind at 1.
  destruct (getTile (sc_grid sc) c.1 c.2) as [tile|] eqn:Ht.
  - cbn [sc_grid sc_wells sc_markets]. split; [|split].
    + eapply sameBuildings_trans; [exact Hsame|].
      apply sameBuildings_modifyTile. intros t. done.
    + rewrite <- Hfilter, <- Hkind. done.
    + rewrite <- Hfilter, <- Hkind. done.
  - split; [done|]. rewrite <- !Hfilter, <- !Hkind. simpl. by split.
Qed.

(** The scan loop collects exactly the connected wells and the connected
    markets, in scan order, and leaves every building and its hit points
    as they are. *)
Lemma scanGrid_spec (reachable : gset Cell) (g0 : Grid) :
  sameBuildings g0 (sc_grid (scanGrid reachable g0)) ∧
  sc_wells (scanGrid reachable g0) = connectedCells g0 reachable well ∧
  sc_markets (scanGrid reachable g0) = connectedCells g0 reachable market.
Proof.
  unfold scanGrid, connectedCells. generalize allCells. intros cs.
  assert (H : ∀ sc, sameBuildings g0 (sc_grid sc) →
    sameBuildings g0 (sc_grid (foldl (scanStep reachable) sc cs)) ∧
    sc_wells (foldl (scanStep reachable) sc cs)
    = sc_wells sc ++ filter (λ c : Cell, isKindAt g0 well c
                               && isBuildingConnected g0 c.1 c.2 1 reachable) cs ∧
    sc_markets (foldl (scanStep reachable) sc cs)
    = sc_markets sc ++ filter (λ c : Cell, isKindAt g0 market c
                                 && isBuildingConnected g0 c.1 c.2 1 reachable) cs).
  { induction cs as [|c cs IH]; intros sc Hsame.
    - cbn [foldl]. rewrite !filter_nil, !app_nil_r. done.
    - cbn [foldl].
      destruct (scanStep_spec reachable g0 sc c Hsame) as (Hs & Hw & Hm).
      destruct (IH _ Hs) as (Hs' & Hw' & Hm').
      split; [done|]. rewrite Hw', Hm', Hw, Hm, <- !app_assoc.
      change (c :: cs) with ([c] ++ cs). by rewrite !filter_app. }
  destruct (H (mkScan g0 0 [] [] [] [] [])) as (Hs & Hw & Hm);
    [apply sameBuildings_refl|].
  split; [done|]. by rewrite Hw, Hm.
Qed.

(** ** Running ticks *)

Lemma run_gameOver (rng : Rng) (gm : Game) :
  gameOver gm = true → ∀ n : nat, run rng n gm = Some gm.
Proof.
  intros Hover n. induction n as [|n IH]; [done|].
  cbn [run]. unfold simulationTick. rewrite Hover. cbn [mbind option_bind]. exact IH.
Qed.

Lemma forumAliveb_spec (g : Grid) : forumAliveb g = true → forumAlive g.
Proof.
  unfold forumAliveb, forumAlive, getTile. intros Hall x z tile Hget Hforum.
  destruct (isInBounds g x z); [|done].
  destruct (tiles g !! Z.to_nat x) as [row|] eqn:Hrow; [|done]. simpl in Hget.
  rewrite forallb_forall in Hall.
  specialize (Hall row). rewrite forallb_forall in Hall.
  assert (Hin : In row (tiles g)).
  { apply list_elem_of_In, list_elem_of_lookup. eauto. }
  specialize (Hall Hin tile).
  assert (Hin' : In tile row).
  { apply list_elem_of_In, list_elem_of_lookup. eauto. }
  specialize (Hall Hin'). rewrite bool_decide_eq_true_2 in Hall by done. lia.
Qed.

(** ** The phases of one simulation tick *)

(** A running game's tick always returns.  Its phases: the road network is
    rebuilt if dirty, the scan ages the tiles and collects the buildings,
    the spawn loops append new walkers, the invasion tick runs on the
    scanned grid, and [tickResolve] finishes the tick. *)
Lemma simulationTick_phases (rng : Rng) (gm : Game) :
  rng_ok rng → gameOver gm = false →
  ∃ g0 reachable nw nf ns nfa kw k1 sys g2 k2 result,
    tickPrepare gm = Some (g0, reachable) ∧
    forumKept (grid gm) g0 ∧
    spawnFrom rng water 1 (Z.rem (tickCount gm + 1) WELL_SPAWN_INTERVAL =? 0)
              (sc_grid (scanGrid reachable g0)) (sc_wells (scanGrid reachable g0))
              (Some (walkers gm, draws gm)) = Some (walkers gm ++ nw, kw) ∧
    Forall (λ w, w_type w = water ∧ lifespan w = WALKER_LIFESPAN) nw ∧
    Forall (λ w, w_type w = food ∧ lifespan w = WALKER_LIFESPAN) nf ∧
    Forall (λ w, w_type w = soldier ∧ lifespan w = WALKER_LIFESPAN) ns ∧
    Forall (λ w, w_type w = farmer ∧ lifespan w = WALKER_LIFESPAN) nfa ∧
    length nw = (if Z.rem (tickCount gm + 1) WELL_SPAWN_INTERVAL =? 0
                 then roadside (sc_grid (scanGrid reachable g0))
                               (sc_wells (scanGrid reachable g0))
                 else 0%nat) ∧
    length nf = (if (Z.rem (tickCount gm + 1) MARKET_SPAWN_INTERVAL =? 0)
                    && Qpositive (foodAfter (resources gm) (scanGrid reachable g0))
                 then roadside (sc_grid (scanGrid reachable g0))
                               (sc_markets (scanGrid reachable g0))
                 else 0%nat) ∧
    Invasion_tick rng (invasionSystem gm) (sc_grid (scanGrid reachable g0)) k1
      = Some (sys, g2, k2, result) ∧
    (forumAlive (sc_grid (scanGrid reachable g0)) →
     signalsForumDestroyed result = true ∨ forumAlive g2) ∧
    simulationTick rng gm
    = Some (tickResolve gm reachable (scanGrid reachable g0)
              (foodAfter (resources gm) (scanGrid reachable g0))
              (Walker_tick (walkers gm ++ nw ++ nf ++ ns ++ nfa)) sys g2 k2 result).
Proof.
  intros Hok Hrun.
  destruct (tickPrepare_spec gm) as (g0 & reachable & Hprep & Hkept).
  destruct (spawnPhase_spec rng (tickCount gm + 1)
              (foodAfter (resources gm) (scanGrid reachable g0))
              (scanGrid reachable g0) (sc_grid (scanGrid reachable g0))
              (walkers gm) (draws gm) Hok)
    as (nw & nf & ns & nfa & kw & k1 & Hspawn & Hwell & Hnw & Hnf & Hns & Hnfa & Hlw & Hlf).
  destruct (Invasion_tick_spec rng (invasionSystem gm)
              (sc_grid (scanGrid reachable g0)) k1)
    as (sys & g2 & k2 & result & Hinv & _ & _ & _ & Hforum).
  exists g0, reachable, nw, nf, ns, nfa, kw, k1, sys, g2, k2, result.
  split; [exact Hprep|]. split; [exact Hkept|]. split; [exact Hwell|].
  split; [exact Hnw|]. split; [exact Hnf|]. split; [exact Hns|].
  split; [exact Hnfa|]. split; [exact Hlw|]. split; [exact Hlf|].
  split; [exact Hinv|]. split; [exact Hforum|].
  exact (simulationTick_eq rng gm g0 reachable _ k1 sys g2 k2 result
           Hrun Hprep Hspawn Hinv).
Qed.

(** Every tick returns, whatever the state. *)
Lemma simulationTick_total (rng : Rng) (gm : Game) :
  rng_ok rng → ∃ gm', simulationTick rng gm = Some gm'.
Proof.
  intros Hok. destruct (gameOver gm) eqn:Hover.
  - exists gm. unfold simulationTick. by rewrite Hover.
  - destruct (simulationTick_phases rng gm Hok Hover)
      as (g0 & reachable & nw & nf & ns & nfa & kw & k1 & sys & g2 & k2 & result & H).
    eexists. apply H.
Qed.

(** What [tickResolve] does to the grid: forum tiles stay as the invasion
    tick left them. *)
Lemma tickResolve_grid gm reachable sc stock ws sys g k result :
  forumKept g (grid (tickResolve gm reachable sc stock ws sys g k result)).
Proof.
  unfold tickResolve. destruct (match result with Some r => forumDestroyed r | None => false end).
  - apply forumKept_refl.
  - cbn [grid]. apply forumKept_removeDestroyed.
Qed.

Lemma tickResolve_gameOver gm reachable sc stock ws sys g k result :
  gameOver (tickResolve gm reachable sc stock ws sys g k result)
  = signalsForumDestroyed result.
Proof.
  unfold tickResolve, signalsForumDestroyed.
  by destruct (match result with Some r => forumDestroyed r | None => false end).
Qed.

Lemma tickResolve_food gm reachable sc stock ws sys g k result :
  res_food (resources (tickResolve gm reachable sc stock ws sys g k result)) = stock.
Proof.
  unfold tickResolve.
  by destruct (match result with Some r => forumDestroyed r | None => false end).
Qed.

Lemma tickResolve_walkers (t : WalkerType) gm reachable sc stock ws sys g k result :
  t ≠ soldier →
  ofType t (walkers (tickResolve gm reachable sc stock ws sys g k result)) = ofType t ws.
Proof.
  intros Ht. unfold tickResolve.
  destruct (match result with Some r => forumDestroyed r | None => false end); [done|].
  cbn [walkers]. by apply Combat_update_ofType.
Qed.

(** The spawn position search reads only the building kinds. *)
Lemma getAdjacentRoadTiles_same (g g' : Grid) (x z size : Z) :
  sameBuildings g g' →
  getAdjacentRoadTiles g' x z size = getAdjacentRoadTiles g x z size.
Proof.
  intros [_ Hsame]. unfold getAdjacentRoadTiles. f_equal.
  generalize (neighbourCandidates x z size).
  generalize ((∅, []) : gset Cell * list Cell).
  intros st l. revert st. induction l as [|n l IH]; intros st; [done|].
  cbn [foldl].
  assert (adjacentRoadStep g' x z size st n = adjacentRoadStep g x z size st n) as ->;
    [|apply IH].
  unfold adjacentRoadStep. specialize (Hsame n.1 n.2).
  destruct (getTile g' n.1 n.2) as [t'|], (getTile g n.1 n.2) as [t|]; try done.
  simpl in Hsame. injection Hsame as Hb _. unfold isRoadOrForum. by rewrite Hb.
Qed.

Lemma roadside_same (g g' : Grid) (cells : list Cell) :
  sameBuildings g g' → roadside g' cells = roadside g cells.
Proof.
  intros Hsame. unfold roadside. f_equal. apply list_filter_iff.
  intros c. by rewrite (getAdjacentRoadTiles_same g g').
Qed.

(** ** Game over *)

Lemma restart_spec (gm : Game) :
  ∃ fresh, restart gm = Some fresh ∧ gameOver fresh = false ∧
           resources fresh = mkRes STARTING_GOLD 0 0 0 ∧ tickCount fresh = 0.
Proof.
  unfold restart, placeForum. cbn [placedBuildings grid].
  destruct (place [] (newGrid GRID_SIZE) forum (GRID_SIZE / 2 - 1) (GRID_SIZE / 2 - 1) 0)
    as [ok [[bs g] gold]].
  destruct (rebuildRoadNetwork_total bs g (GRID_SIZE / 2 - 1, GRID_SIZE / 2 - 1))
    as (r & Hr).
  eexists. split.
  { eapply bind_Some_intro; [exact Hr|]. reflexivity. }
  split; [reflexivity|]. split; reflexivity.
Qed.

(** C8. In a running game whose forum tiles all have hit points left, the
    tick returns, and the invasion tick inside it, run on the scanned grid,
    reports [forumDestroyed] whenever it leaves a forum tile without hit
    points; an attack that takes the forum tile under the invader to 0 or
    below is reported as such.  The game is over after the tick exactly
    when the flag was reported, and otherwise every forum tile still has
    hit points.  Once the game is over, any number of further ticks return
    the very same state, so gold, food, population and capacity stay as
    they are, until [restart], which always succeeds and hands back a
    running game with the starting resources. *)
Theorem forum_destroyed_game_over (rng : Rng) (gm : Game) :
  rng_ok rng → gameOver gm = false → forumAlive (grid gm) →
  ∃ (gm' : Game) (g0 : Grid) (reachable : gset Cell) (k1 : nat)
    (sys : InvasionSystem) (g2 : Grid) (k2 : nat) (result : option TickResult),
    simulationTick rng gm = Some gm' ∧
    tickPrepare gm = Some (g0, reachable) ∧
    Invasion_tick rng (invasionSystem gm) (sc_grid (scanGrid reachable g0)) k1
      = Some (sys, g2, k2, result) ∧
    forumAlive (sc_grid (scanGrid reachable g0)) ∧
    (¬ forumAlive g2 → signalsForumDestroyed result = true) ∧
    (∀ (inv : Invader) (g : Grid) (tile : Tile),
       getTile g (inv_x inv) (inv_z inv) = Some tile →
       building tile = Some forum → buildingHp tile - damage inv ≤ 0 →
       (attackBuilding inv g).2 = Some ForumDestroyed) ∧
    gameOver gm' = signalsForumDestroyed result ∧
    (gameOver gm' = false → forumAlive (grid gm')) ∧
    (gameOver gm' = true →
       ∀ n : nat, run rng n gm' = Some gm' ∧
         ∃ gm'', run rng n gm' = Some gm'' ∧ resources gm'' = resources gm') ∧
    ∃ fresh, restart gm' = Some fresh ∧ gameOver fresh = false ∧
             resources fresh = mkRes STARTING_GOLD 0 0 0.
Proof.
  intros Hok Hrun Halive.
  destruct (simulationTick_phases rng gm Hok Hrun)
    as (g0 & reachable & nw & nf & ns & nfa & kw & k1 & sys & g2 & k2 & result
        & Hprep & Hkept & _ & _ & _ & _ & _ & _ & _ & Hinv & Hforum & Htick).
  assert (Halive1 : forumAlive (sc_grid (scanGrid reachable g0))).
  { eapply forumKept_alive; [apply forumKept_scanGrid|].
    eapply forumKept_alive; [exact Hkept|exact Halive]. }
  eexists _, g0, reachable, k1, sys, g2, k2, result.
  split; [exact Htick|]. split; [exact Hprep|]. split; [exact Hinv|].
  split; [exact Halive1|]. split.
  { intros Hdead. destruct (Hforum Halive1) as [Hs|Ha]; [exact Hs|]. by destruct Hdead. }
  split.
  { intros inv g tile Hget Hb Hhp. unfold attackBuilding. rewrite Hget, Hb.
    apply Z.leb_le in Hhp. rewrite Hhp. by rewrite bool_decide_eq_true_2. }
  split; [apply tickResolve_gameOver|]. split.
  { rewrite tickResolve_gameOver. intros Hs.
    eapply forumKept_alive; [apply tickResolve_grid|].
    destruct (Hforum Halive1) as [Hs'|Ha]; [congruence|exact Ha]. }
  split.
  { intros Hover n. split; [by apply run_gameOver|].
    eexists. split; [by apply run_gameOver|done]. }
  destruct (restart_spec (tickResolve gm reachable (scanGrid reachable g0)
              (foodAfter (resources gm) (scanGrid reachable g0))
              (Walker_tick (walkers gm ++ nw ++ nf ++ ns ++ nfa)) sys g2 k2 result))
    as (fresh & Hr & Hg & Hres & _).
  exists fresh. split; [exact Hr|]. split; [exact Hg|exact Hres].
Qed.

(** ** Population *)

Lemma tickResolve_population gm reachable sc stock ws sys g k result :
  0 ≤ population (resources gm) →
  let pop := population (resources gm) in
  let gm' := tickResolve gm reachable sc stock ws sys g k result in
  let pop' := population (resources gm') in
  let cap := maxPopulation (resources gm') in
  0 ≤ pop' ∧ Z.abs (pop' - pop) ≤ GROWTH_RATE ∧
  (pop < pop' → pop' ≤ cap) ∧ (cap < pop → cap ≤ pop').
Proof.
  intros Hpop pop gm' pop' cap. subst pop' cap gm'. unfold tickResolve.
  destruct (match result with Some r => forumDestroyed r | None => false end).
  - cbn [resources population maxPopulation]. fold pop. unfold GROWTH_RATE. lia.
  - cbn [resources population maxPopulation]. fold pop.
    match goal with |- context [adjustPopulation pop ?m stock] =>
      pose proof (adjustPopulation_bounds pop m stock Hpop (countMaxPop_nonneg _))
        as (H0 & Habs & Hle & Hgt);
      generalize dependent (adjustPopulation pop m stock);
      generalize dependent m end.
    intros m pop' H0 Habs Hle Hgt. lia.
Qed.

(** C10. Every tick returns, and from a non-negative population it leaves
    a non-negative one that differs from the old one by at most
    [GROWTH_RATE = 3]; a population that grew is at most the capacity the
    tick stored, and a population above that capacity does not fall below
    it.  Hence the population is non-negative after any number of
    ticks. *)
Theorem population_step (rng : Rng) (gm : Game) :
  rng_ok rng → 0 ≤ population (resources gm) →
  (∃ gm' : Game, simulationTick rng gm = Some gm' ∧
     let pop := population (resources gm) in
     let pop' := population (resources gm') in
     let cap := maxPopulation (resources gm') in
     0 ≤ pop' ∧ Z.abs (pop' - pop) ≤ GROWTH_RATE ∧ GROWTH_RATE = 3 ∧
     (pop < pop' → pop' ≤ cap) ∧ (cap < pop → cap ≤ pop')) ∧
  ∀ n : nat, ∃ gm_n : Game,
    run rng n gm = Some gm_n ∧ 0 ≤ population (resources gm_n).
Proof.
  intros Hok.
  assert (Hstep : ∀ gm : Game, 0 ≤ population (resources gm) →
            ∃ gm' : Game, simulationTick rng gm = Some gm' ∧
              0 ≤ population (resources gm') ∧
              Z.abs (population (resources gm') - population (resources gm))
                ≤ GROWTH_RATE ∧
              (population (resources gm) < population (resources gm') →
               population (resources gm') ≤ maxPopulation (resources gm')) ∧
              (maxPopulation (resources gm') < population (resources gm) →
               maxPopulation (resources gm') ≤ population (resources gm'))).
  { clear gm. intros gm Hpop. destruct (gameOver gm) eqn:Hover.
    - exists gm. split; [unfold simulationTick; by rewrite Hover|].
      unfold GROWTH_RATE. lia.
    - destruct (simulationTick_phases rng gm Hok Hover)
        as (g0 & reachable & nw & nf & ns & nfa & kw & k1 & sys & g2 & k2 & result
            & _ & _ & _ & _ & _ & _ & _ & _ & _ & _ & _ & Htick).
      eexists. split; [exact Htick|].
      exact (tickResolve_population gm reachable _ _ _ sys g2 k2 result Hpop). }
  intros Hpop. split.
  - destruct (Hstep gm Hpop) as (gm' & Htick & H0 & Habs & Hgrow & Hshrink).
    exists gm'. split; [exact Htick|]. cbv zeta.
    split; [exact H0|]. split; [exact Habs|]. split; [reflexivity|].
    split; [exact Hgrow|exact Hshrink].
  - intros n. revert gm Hpop. induction n as [|n IH]; intros gm Hpop.
    + exists gm. split; [reflexivity|exact Hpop].
    + destruct (Hstep gm Hpop) as (gm' & Htick & H0 & _).
      destruct (IH gm' H0) as (gm_n & Hrun & Hn).
      exists gm_n. split; [|exact Hn].
      cbn [run]. eapply bind_Some_intro; [exact Htick|exact Hrun].
Qed.

(** ** Spawning *)

Lemma tickResolve_tickCount gm reachable sc stock ws sys g k result :
  tickCount (tickResolve gm reachable sc stock ws sys g k result) = tickCount gm + 1.
Proof.
  unfold tickResolve.
  by destruct (match result with Some r => forumDestroyed r | None => false end).
Qed.

(** The water and food walkers after [WalkerSystem.tick]: the surviving
    old ones followed by the new ones, one tick older. *)
Lemma spawned_ofType (ws nw nf ns nfa : list Walker) :
  Forall (λ w, w_type w = water ∧ lifespan w = WALKER_LIFESPAN) nw →
  Forall (λ w, w_type w = food ∧ lifespan w = WALKER_LIFESPAN) nf →
  Forall (λ w, w_type w = soldier ∧ lifespan w = WALKER_LIFESPAN) ns →
  Forall (λ w, w_type w = farmer ∧ lifespan w = WALKER_LIFESPAN) nfa →
  ofType water (Walker_tick (ws ++ nw ++ nf ++ ns ++ nfa))
  = ofType water (Walker_tick ws) ++ Walker_tick nw ∧
  ofType food (Walker_tick (ws ++ nw ++ nf ++ ns ++ nfa))
  = ofType food (Walker_tick ws) ++ Walker_tick nf.
Proof.
  intros Hnw Hnf Hns Hnfa.
  apply Walker_tick_fresh in Hnw as [Hnw _], Hnf as [Hnf _],
    Hns as [Hns _], Hnfa as [Hnfa _].
  set (P := λ w : Walker, lifespan w = WALKER_LIFESPAN - 1) in *.
  rewrite !Walker_tick_app, !ofType_app. split.
  - rewrite (ofType_all water (Walker_tick nw))
      by exact (Forall_type_weaken water P _ Hnw).
    rewrite (ofType_none water (Walker_tick nf))
      by (apply (Forall_type_other food water P); [done|exact Hnf]).
    rewrite (ofType_none water (Walker_tick ns))
      by (apply (Forall_type_other soldier water P); [done|exact Hns]).
    rewrite (ofType_none water (Walker_tick nfa))
      by (apply (Forall_type_other farmer water P); [done|exact Hnfa]).
    by rewrite !app_nil_r.
  - rewrite (ofType_none food (Walker_tick nw))
      by (apply (Forall_type_other water food P); [done|exact Hnw]).
    rewrite (ofType_all food (Walker_tick nf))
      by exact (Forall_type_weaken food P _ Hnf).
    rewrite (ofType_none food (Walker_tick ns))
      by (apply (Forall_type_other soldier food P); [done|exact Hns]).
    rewrite (ofType_none food (Walker_tick nfa))
      by (apply (Forall_type_other farmer food P); [done|exact Hnfa]).
    by rewrite !app_nil_r.
Qed.

Lemma withResources_fields gm res :
  gameOver (withResources gm res) = gameOver gm ∧
  tickPrepare (withResources gm res) = tickPrepare gm ∧
  walkers (withResources gm res) = walkers gm ∧
  draws (withResources gm res) = draws gm ∧
  tickCount (withResources gm res) = tickCount gm.
Proof. repeat split. Qed.

(** The water and food walkers of a running game after one tick. *)
Lemma simulationTick_service_walkers (rng : Rng) (gm : Game) :
  rng_ok rng → gameOver gm = false →
  ∃ (gm' : Game) (g0 : Grid) (reachable : gset Cell) (nw nf : list Walker) (kw : nat),
    simulationTick rng gm = Some gm' ∧
    tickPrepare gm = Some (g0, reachable) ∧
    tickCount gm' = tickCount gm + 1 ∧
    res_food (resources gm') = foodAfter (resources gm) (scanGrid reachable g0) ∧
    spawnFrom rng water 1 (Z.rem (tickCount gm + 1) WELL_SPAWN_INTERVAL =? 0)
              (sc_grid (scanGrid reachable g0)) (sc_wells (scanGrid reachable g0))
              (Some (walkers gm, draws gm)) = Some (walkers gm ++ nw, kw) ∧
    ofType water (walkers gm')
    = ofType water (Walker_tick (walkers gm)) ++ Walker_tick nw ∧
    ofType food (walkers gm')
    = ofType food (Walker_tick (walkers gm)) ++ Walker_tick nf ∧
    length (Walker_tick nw)
    = (if Z.rem (tickCount gm + 1) WELL_SPAWN_INTERVAL =? 0
       then roadside g0 (connectedCells g0 reachable well) else 0%nat) ∧
    length (Walker_tick nf)
    = (if (Z.rem (tickCount gm + 1) MARKET_SPAWN_INTERVAL =? 0)
          && Qpositive (foodAfter (resources gm) (scanGrid reachable g0))
       then roadside g0 (connectedCells g0 reachable market) else 0%nat) ∧
    Forall (λ w, w_type w = water ∧ lifespan w = WALKER_LIFESPAN - 1) (Walker_tick nw) ∧
    Forall (λ w, w_type w = food ∧ lifespan w = WALKER_LIFESPAN - 1) (Walker_tick nf).
Proof.
  intros Hok Hrun.
  destruct (simulationTick_phases rng gm Hok Hrun)
    as (g0 & reachable & nw & nf & ns & nfa & kw & k1 & sys & g2 & k2 & result
        & Hprep & _ & Hwell & Hnw & Hnf & Hns & Hnfa & Hlw & Hlf & _ & _ & Htick).
  destruct (scanGrid_spec reachable g0) as (Hsame & Hwells & Hmarkets).
  destruct (spawned_ofType (walkers gm) nw nf ns nfa Hnw Hnf Hns Hnfa) as [Hw Hf].
  destruct (Walker_tick_fresh water nw Hnw) as [Hfw Hlenw].
  destruct (Walker_tick_fresh food nf Hnf) as [Hff Hlenf].
  eexists _, g0, reachable, nw, nf, kw.
  split; [exact Htick|]. split; [exact Hprep|].
  split; [apply tickResolve_tickCount|]. split; [apply tickResolve_food|].
  split; [exact Hwell|].
  split; [rewrite tickResolve_walkers by done; exact Hw|].
  split; [rewrite tickResolve_walkers by done; exact Hf|].
  rewrite Hlenw, Hlenf, Hlw, Hlf, Hwells, Hmarkets.
  rewrite !(roadside_same g0 (sc_grid (scanGrid reachable g0))) by exact Hsame.
  split; [reflexivity|]. split; [reflexivity|]. split; [exact Hfw|exact Hff].
Qed.

(** The tile tests in terms of what the tile holds. *)
Lemma isKindAt_holds (g : Grid) (type : BuildingType) (c : Cell) :
  isKindAt g type c = true ↔ holds g type c.
Proof.
  unfold isKindAt, holds. destruct (getTile g c.1 c.2) as [tile|]; split.
  - intros H%bool_decide_eq_true. eauto.
  - intros (tile' & [= <-] & H). by apply bool_decide_eq_true.
  - done.
  - by intros (tile' & [=] & _).
Qed.

Lemma isRoadOrForumAt_roadAt (g : Grid) (c : Cell) :
  isRoadOrForumAt g c = true ↔ roadAt g c.
Proof.
  unfold isRoadOrForumAt, roadAt, holds, isRoadOrForum.
  destruct (getTile g c.1 c.2) as [tile|]; split.
  - intros [H%bool_decide_eq_true|H%bool_decide_eq_true]%orb_true_iff; eauto.
  - intros [(tile' & [= <-] & H)|(tile' & [= <-] & H)]; apply orb_true_iff;
      [left|right]; by apply bool_decide_eq_true.
  - done.
  - by intros [(tile' & [=] & _)|(tile' & [=] & _)].
Qed.

(** The cells that the scan loop collects for a 1x1 kind are the connected
    buildings of that kind. *)
Lemma connectedCells_sites (g : Grid) (reachable : gset Cell) (type : BuildingType) :
  NoDup (connectedCells g reachable type) ∧
  ∀ c, c ∈ connectedCells g reachable type ↔ connectedSite g reachable type c.
Proof.
  unfold connectedCells. split; [apply NoDup_filter, NoDup_allCells|].
  intros [x z]. rewrite list_elem_of_filter, elem_of_allCells, andb_True.
  cbn [fst snd]. unfold connectedSite. cbn [fst snd].
  rewrite !Is_true_true, isKindAt_holds, isBuildingConnected_spec.
  assert (Hone : (∃ f d : Cell, f ∈ footprint x z 1 ∧ adjacent f d ∧ d ∈ reachable) ↔
                 ∃ d : Cell, manhattan (x, z) d = 1 ∧ d ∈ reachable).
  { split.
    - intros ([fx fz] & d & Hf & Hadj & Hd). apply elem_of_footprint_box in Hf.
      assert (fx = x) as -> by lia. assert (fz = z) as -> by lia.
      exists d. split; [by apply adjacent_manhattan|done].
    - intros (d & Hadj & Hd). exists (x, z), d. split; [|split; [|done]].
      + apply elem_of_footprint_box. lia.
      + by apply adjacent_manhattan. }
  rewrite Hone. tauto.
Qed.

(** Among them, those that [spawn] finds a road tile for. *)
Lemma roadside_sites (g : Grid) (reachable : gset Cell) (type : BuildingType) :
  ∃ sites : list Cell,
    NoDup sites ∧ (∀ c, c ∈ sites ↔ spawnSite g reachable type c) ∧
    roadside g (connectedCells g reachable type) = length sites.
Proof.
  destruct (connectedCells_sites g reachable type) as [Hnd Hel].
  exists (filter (λ c : Cell, getAdjacentRoadTiles g c.1 c.2 1 ≠ [])
                 (connectedCells g reachable type)).
  split; [by apply NoDup_filter|]. split; [|reflexivity].
  intros [x z]. rewrite list_elem_of_filter, Hel. unfold spawnSite. cbn [fst snd].
  destruct (getAdjacentRoadTiles_elem g x z 1) as [_ Hroads].
  assert (Hne : getAdjacentRoadTiles g x z 1 ≠ [] ↔
                ∃ d : Cell, manhattan (x, z) d = 1 ∧ roadAt g d).
  { split.
    - intros Hl. destruct (getAdjacentRoadTiles g x z 1) as [|d l] eqn:E; [done|].
      destruct (proj1 (Hroads d)) as (([fx fz] & Hf & Hadj) & _ & Hr);
        [apply list_elem_of_here|].
      apply elem_of_footprint_box in Hf.
      assert (fx = x) as -> by lia. assert (fz = z) as -> by lia.
      exists d. split; [by apply adjacent_manhattan|by apply isRoadOrForumAt_roadAt].
    - intros (d & Hadj & Hr) Hnil.
      assert (Hin : d ∈ getAdjacentRoadTiles g x z 1).
      { apply Hroads. split; [|split].
        - exists (x, z). split; [apply elem_of_footprint_box; lia|].
          by apply adjacent_manhattan.
        - destruct d as [dx dz]. rewrite elem_of_footprint_box.
          unfold manhattan in Hadj. cbn [fst snd] in Hadj. lia.
        - by apply isRoadOrForumAt_roadAt. }
      rewrite Hnil in Hin. by apply elem_of_nil in Hin. }
  rewrite Hne. tauto.
Qed.

(** C9. A tick of a running game always returns.  Afterwards the water
    and food walkers are the surviving old ones followed by the new ones,
    each new one of its kind and with 29 ticks to live.  A spawn site is a
    connected building (in the 32 by 32 area, with a cell of the reachable
    road set at Manhattan distance 1) that has a road or forum tile at
    Manhattan distance 1; when the reachable cells all hold road or forum
    tiles, every connected building is one.  When the new tick counter is a
    multiple of [MARKET_SPAWN_INTERVAL] and the food stock (after this
    tick's production and consumption) is positive, there is one new food
    walker for every market that is a spawn site; off the cadence, or
    without a positive stock, there is none.  When the counter is a
    multiple of [WELL_SPAWN_INTERVAL] there is one new water walker for
    every well that is a spawn site, and none off the cadence; the water
    walkers are the same whatever the resource state of the game. *)
Theorem market_spawn_needs_food (rng : Rng) (gm : Game) :
  rng_ok rng → gameOver gm = false →
  ∃ (gm' : Game) (g0 : Grid) (reachable : gset Cell) (wells markets : list Cell)
    (nw nf : list Walker),
    simulationTick rng gm = Some gm' ∧
    tickPrepare gm = Some (g0, reachable) ∧
    (NoDup wells ∧ ∀ c, c ∈ wells ↔ spawnSite g0 reachable well c) ∧
    (NoDup markets ∧ ∀ c, c ∈ markets ↔ spawnSite g0 reachable market c) ∧
    ((∀ d, d ∈ reachable → roadAt g0 d) →
     ∀ type c, connectedSite g0 reachable type c → spawnSite g0 reachable type c) ∧
    let tick := tickCount gm' in
    let stock := res_food (resources gm') in
    tick = tickCount gm + 1 ∧
    ofType water (walkers gm') = ofType water (Walker_tick (walkers gm)) ++ nw ∧
    ofType food (walkers gm') = ofType food (Walker_tick (walkers gm)) ++ nf ∧
    Forall (λ w, w_type w = water ∧ lifespan w = WALKER_LIFESPAN - 1) nw ∧
    Forall (λ w, w_type w = food ∧ lifespan w = WALKER_LIFESPAN - 1) nf ∧
    (Z.rem tick WELL_SPAWN_INTERVAL = 0 → length nw = length wells) ∧
    (Z.rem tick WELL_SPAWN_INTERVAL ≠ 0 → nw = []) ∧
    (Z.rem tick MARKET_SPAWN_INTERVAL = 0 → (0 < stock)%Q →
       length nf = length markets) ∧
    (Z.rem tick MARKET_SPAWN_INTERVAL ≠ 0 ∨ ¬ (0 < stock)%Q → nf = []) ∧
    (∀ res : ResourceState, ∃ gm_r : Game,
       simulationTick rng (withResources gm res) = Some gm_r ∧
       ofType water (walkers gm_r) = ofType water (walkers gm')).
Proof.
  intros Hok Hrun.
  destruct (simulationTick_service_walkers rng gm Hok Hrun)
    as (gm' & g0 & reachable & nw & nf & kw
        & Htick & Hprep & Hcount & Hfood & Hwell & Hw & Hf & Hlw & Hlf & Hfw & Hff).
  destruct (roadside_sites g0 reachable well) as (wells & Hndw & Helw & Hnumw).
  destruct (roadside_sites g0 reachable market) as (markets & Hndm & Helm & Hnumm).
  exists gm', g0, reachable, wells, markets, (Walker_tick nw), (Walker_tick nf).
  split; [exact Htick|]. split; [exact Hprep|].
  split; [split; [exact Hndw|exact Helw]|]. split; [split; [exact Hndm|exact Helm]|].
  split.
  { intros Hroads type c Hsite. split; [exact Hsite|].
    destruct Hsite as (_ & _ & d & Hadj & Hd). exists d. split; [exact Hadj|].
    by apply Hroads. }
  cbv zeta. rewrite Hcount, Hfood. rewrite Hnumw in Hlw. rewrite Hnumm in Hlf.
  split; [reflexivity|]. split; [exact Hw|]. split; [exact Hf|].
  split; [exact Hfw|]. split; [exact Hff|].
  split; [intros Hc; rewrite Hlw; by rewrite (proj2 (Z.eqb_eq _ _) Hc)|].
  split.
  { intros Hc. apply length_zero_iff_nil. rewrite Hlw.
    by rewrite (proj2 (Z.eqb_neq _ _) Hc). }
  split.
  { intros Hc Hpos. rewrite Hlf, (proj2 (Z.eqb_eq _ _) Hc).
    by rewrite (proj2 (Qpositive_spec _) Hpos). }
  split.
  { intros Hc. apply length_zero_iff_nil. rewrite Hlf. destruct Hc as [Hc|Hc].
    - by rewrite (proj2 (Z.eqb_neq _ _) Hc).
    - destruct (Qpositive _) eqn:Hpos; [|by rewrite andb_false_r].
      apply Qpositive_spec in Hpos. by destruct Hc. }
  intros res.
  destruct (withResources_fields gm res) as (Hg & Hp & Hws & Hd & Ht).
  destruct (simulationTick_service_walkers rng (withResources gm res) Hok
              (eq_trans Hg Hrun))
    as (gm_r & g0' & reachable' & nw' & nf' & kw'
        & Htick' & Hprep' & _ & _ & Hwell' & Hw' & _).
  rewrite Hp, Hprep in Hprep'. injection Hprep' as <- <-.
  rewrite Hws, Hd, Ht in Hwell'. rewrite Hwell in Hwell'.
  injection Hwell' as Happ _. apply app_inv_head in Happ as <-.
  exists gm_r. split; [exact Htick'|]. rewrite Hw', Hw, Hws. reflexivity.
Qed.

(** ** Instances on the example states *)

(** On the cross of roads, with draws of one half: at the centre, coming
    from (1, 0), the candidates are (2, 1), (0, 1) and (1, 2) and the
    second is drawn; at the end of an arm the walker turns back to the
    centre; at the corner, with no road beside it, it stays. *)
Lemma chooseNextTile_service_witness :
  (∃ w', chooseNextTile rng_half 0 crossWalker crossGrid None = Some (w', 1%nat) ∧
         (w_targetX w', w_targetZ w') = (0, 1) ∧
         (gridX w', gridZ w', prevX w', prevZ w') = (1, 1, 1, 0)) ∧
  (∃ w', chooseNextTile rng_half 0 deadEndWalker crossGrid None = Some (w', 0%nat) ∧
         (w_targetX w', w_targetZ w') = (1, 1)) ∧
  (∃ w', chooseNextTile rng_half 0 cornerWalker (newGrid 3) None = Some (w', 0%nat) ∧
         (w_targetX w', w_targetZ w') = (0, 0)).
Proof.
  split; [|split].
  - destruct (chooseNextTile_service rng_half 0 crossWalker crossGrid None)
      as (w' & k' & Heq & Hkeep & _ & _ & Hpick & _);
      [apply rng_half_ok|discriminate|].
    assert (Hc : filter (λ c : Cell, c ≠ (prevX crossWalker, prevZ crossWalker))
                        (getRoadNeighbors crossGrid (gridX crossWalker)
                                          (gridZ crossWalker))
                 = [(2, 1); (0, 1); (1, 2)]) by (vm_compute; reflexivity).
    rewrite Hc in Hpick. destruct Hpick as (-> & _ & Hidx); [discriminate|].
    exists w'. split; [exact Heq|]. split.
    + apply (Hidx 1%nat (0, 1)); [reflexivity|]. split; vm_compute; congruence.
    + destruct Hkeep as (_ & -> & -> & -> & -> & _). reflexivity.
  - destruct (chooseNextTile_service rng_half 0 deadEndWalker crossGrid None)
      as (w' & k' & Heq & _ & _ & _ & _ & Hback & _);
      [apply rng_half_ok|discriminate|].
    destruct Hback as [Ht ->]; [vm_compute; reflexivity| |].
    + apply (bool_decide_unpack _). vm_compute. exact I.
    + exists w'. split; [exact Heq|exact Ht].
  - destruct (chooseNextTile_service rng_half 0 cornerWalker (newGrid 3) None)
      as (w' & k' & Heq & _ & _ & _ & _ & _ & Hstay);
      [apply rng_half_ok|discriminate|].
    destruct Hstay as [Ht ->]; [vm_compute; reflexivity|].
    exists w'. split; [exact Heq|exact Ht].
Defined.

Lemma forum_destroyed_game_over_witness :
  ∃ gm', simulationTick rng_zero besiegedGame = Some gm' ∧ gameOver gm' = true ∧
         ∀ n, run rng_zero n gm' = Some gm'.
Proof.
  destruct (forum_destroyed_game_over rng_zero besiegedGame)
    as (gm' & g0 & reachable & k1 & sys & g2 & k2 & result
        & Htick & _ & _ & _ & _ & _ & _ & _ & Hover & _).
  - apply rng_zero_ok.
  - vm_compute. reflexivity.
  - apply forumAliveb_spec. vm_compute. reflexivity.
  - assert (E : gameOver <$> simulationTick rng_zero besiegedGame = Some true)
      by (vm_compute; reflexivity).
    rewrite Htick in E. injection E as E.
    exists gm'. split; [exact Htick|]. split; [exact E|].
    intros n. apply (Hover E n).
Defined.

(** A kind that stands on one tile only has at most that spawn site. *)
Lemma single_site (g : Grid) (reachable : gset Cell) (type : BuildingType)
    (sites : list Cell) (c0 : Cell) :
  NoDup sites → (∀ c, c ∈ sites ↔ spawnSite g reachable type c) →
  filter (λ c : Cell, isKindAt g type c = true) allCells = [c0] →
  spawnSite g reachable type c0 → length sites = 1%nat.
Proof.
  intros Hnd Hel Hone Hsite.
  assert (Hsub : ∀ c, c ∈ sites → c ∈ [c0]).
  { intros c Hc. apply Hel in Hc as ((Harea & Hholds & _) & _).
    rewrite <- Hone. apply list_elem_of_filter. split.
    - by apply isKindAt_holds.
    - by apply elem_of_allCells. }
  pose proof (submseteq_length _ _ (NoDup_submseteq _ _ Hnd Hsub)) as Hle.
  cbn [length] in Hle.
  assert (Hin : c0 ∈ sites) by by apply Hel.
  destruct sites as [|c l]; [by apply elem_of_nil in Hin|]. cbn [length] in *. lia.
Qed.

(** In the town, three ticks after it was built, the farm has filled the
    store: the fourth tick sends out one water walker from the well and one
    food walker from the market.  In the hamlet, which has no farm, the
    store is empty, and the fourth tick sends out the water walker only. *)
Lemma market_spawn_needs_food_witness :
  (∃ gm', simulationTick rng_zero (after 3 town) = Some gm' ∧ tickCount gm' = 4 ∧
          (0 < res_food (resources gm'))%Q ∧
          length (ofType water (walkers gm')) = 1%nat ∧
          length (ofType food (walkers gm')) = 1%nat) ∧
  (∃ gm', simulationTick rng_zero (after 3 hamlet) = Some gm' ∧ tickCount gm' = 4 ∧
          (res_food (resources gm') <= 0)%Q ∧
          length (ofType water (walkers gm')) = 1%nat ∧
          ofType food (walkers gm') = []).
Proof.
  split.
  - destruct (market_spawn_needs_food rng_zero (after 3 town))
      as (gm' & g0 & reachable & wells & markets & nw & nf & Htick & Hprep
          & [Hndw Helw] & [Hndm Helm] & _ & Hcount & Hw & Hf & _ & _
          & Hlw & _ & Hlf & _ & _);
      [apply rng_zero_ok|vm_compute; reflexivity|].
    assert (Hg : tickPrepare (after 3 town)
                 = Some (grid (after 3 town), reachableRoads (after 3 town)))
      by (vm_compute; reflexivity).
    rewrite Hg in Hprep. apply (inj Some) in Hprep.
    apply pair_equal_spec in Hprep as [<- <-].
    assert (Ht : tickCount gm' = 4) by (rewrite Hcount; vm_compute; reflexivity).
    assert (Hpos : (0 < res_food (resources gm'))%Q).
    { assert (E : (λ gm, Qpositive (res_food (resources gm)))
                    <$> simulationTick rng_zero (after 3 town) = Some true)
        by (vm_compute; reflexivity).
      rewrite Htick in E. apply (inj Some) in E. exact (proj1 (Qpositive_spec _) E). }
    assert (Hwells : length wells = 1%nat).
    { apply (single_site _ _ _ _ (14, 14) Hndw Helw);
        [pattern (grid (after 3 town)); vm_compute; reflexivity|].
      split; [split; [cbn [fst snd]; unfold GRID_SIZE; lia|split]|].
      - apply (proj1 (isKindAt_holds _ _ _)). vm_compute. reflexivity.
      - exists (14, 15). split; [reflexivity|].
        apply (bool_decide_unpack _). vm_compute. exact I.
      - exists (14, 15). split; [reflexivity|].
        apply (proj1 (isRoadOrForumAt_roadAt _ _)). vm_compute. reflexivity. }
    assert (Hmarkets : length markets = 1%nat).
    { apply (single_site _ _ _ _ (13, 14) Hndm Helm);
        [pattern (grid (after 3 town)); vm_compute; reflexivity|].
      split; [split; [cbn [fst snd]; unfold GRID_SIZE; lia|split]|].
      - apply (proj1 (isKindAt_holds _ _ _)). vm_compute. reflexivity.
      - exists (13, 15). split; [reflexivity|].
        apply (bool_decide_unpack _). vm_compute. exact I.
      - exists (13, 15). split; [reflexivity|].
        apply (proj1 (isRoadOrForumAt_roadAt _ _)). vm_compute. reflexivity. }
    exists gm'. split; [exact Htick|]. split; [exact Ht|]. split; [exact Hpos|].
    rewrite Hw, Hf, !length_app, Hlw, Hlf, Hwells, Hmarkets;
      [split; vm_compute; reflexivity|rewrite Ht; reflexivity|exact Hpos
      |rewrite Ht; reflexivity].
  - destruct (market_spawn_needs_food rng_zero (after 3 hamlet))
      as (gm' & g0 & reachable & wells & markets & nw & nf & Htick & Hprep
          & [Hndw Helw] & _ & _ & Hcount & Hw & Hf & _ & _
          & Hlw & _ & _ & Hnone & _);
      [apply rng_zero_ok|vm_compute; reflexivity|].
    assert (Hg : tickPrepare (after 3 hamlet)
                 = Some (grid (after 3 hamlet), reachableRoads (after 3 hamlet)))
      by (vm_compute; reflexivity).
    rewrite Hg in Hprep. apply (inj Some) in Hprep.
    apply pair_equal_spec in Hprep as [<- <-].
    assert (Ht : tickCount gm' = 4) by (rewrite Hcount; vm_compute; reflexivity).
    assert (Hdry : (res_food (resources gm') <= 0)%Q).
    { assert (E : (λ gm, Qle_bool (res_food (resources gm)) 0)
                    <$> simulationTick rng_zero (after 3 hamlet) = Some true)
        by (vm_compute; reflexivity).
      rewrite Htick in E. apply (inj Some) in E. exact (proj1 (Qle_bool_iff _ _) E). }
    assert (Hwells : length wells = 1%nat).
    { apply (single_site _ _ _ _ (14, 14) Hndw Helw);
        [pattern (grid (after 3 hamlet)); vm_compute; reflexivity|].
      split; [split; [cbn [fst snd]; unfold GRID_SIZE; lia|split]|].
      - apply (proj1 (isKindAt_holds _ _ _)). vm_compute. reflexivity.
      - exists (14, 15). split; [reflexivity|].
        apply (bool_decide_unpack _). vm_compute. exact I.
      - exists (14, 15). split; [reflexivity|].
        apply (proj1 (isRoadOrForumAt_roadAt _ _)). vm_compute. reflexivity. }
    exists gm'. split; [exact Htick|]. split; [exact Ht|]. split; [exact Hdry|].
    rewrite Hw, Hf, length_app, Hlw, Hwells by (rewrite Ht; reflexivity).
    rewrite Hnone by (right; apply Qle_not_lt; exact Hdry).
    split; vm_compute; reflexivity.
Defined.

Local Ltac population_case step S p' c :=
  let gm' := fresh "gm'" in
  let Htick := fresh "Htick" in
  let E := fresh "E" in
  let E1 := fresh "E1" in
  let E2 := fresh "E2" in
  destruct step as [(gm' & Htick & _) _];
    [apply rng_zero_ok | vm_compute; intros E; discriminate E |];
  assert (E : (λ gm, (population (resources gm), maxPopulation (resources gm)))
                <$> simulationTick rng_zero S = Some (p', c))
    by (vm_compute; reflexivity);
  rewrite Htick in E; apply (inj Some) in E;
  apply pair_equal_spec in E as [E1 E2];
  exists gm'; split; [exact Htick|]; split; [vm_compute; reflexivity|];
  split; [exact E1|exact E2].

(** The population of the town, tick by tick: it grows by the full rate
    from 0 to 3 once the house has water and food; it grows from 9 to the
    capacity 10 only; when the house is demolished it falls from 10 to 7
    and, three ticks later, from 1 to the capacity 0; and when the farm is
    demolished and the store has run out it falls from 10 to 7 although
    the capacity is still 10. *)
Lemma population_step_witness :
  (∃ gm', simulationTick rng_zero (after 5 town) = Some gm' ∧
          population (resources (after 5 town)) = 0 ∧
          population (resources gm') = 3 ∧ maxPopulation (resources gm') = 10) ∧
  (∃ gm', simulationTick rng_zero (after 8 town) = Some gm' ∧
          population (resources (after 8 town)) = 9 ∧
          population (resources gm') = 10 ∧ maxPopulation (resources gm') = 10) ∧
  (∃ gm', simulationTick rng_zero razedTown = Some gm' ∧
          population (resources razedTown) = 10 ∧
          population (resources gm') = 7 ∧ maxPopulation (resources gm') = 0) ∧
  (∃ gm', simulationTick rng_zero (after 3 razedTown) = Some gm' ∧
          population (resources (after 3 razedTown)) = 1 ∧
          population (resources gm') = 0 ∧ maxPopulation (resources gm') = 0) ∧
  (∃ gm', simulationTick rng_zero (after 5 fallowTown) = Some gm' ∧
          population (resources (after 5 fallowTown)) = 10 ∧
          population (resources gm') = 7 ∧ maxPopulation (resources gm') = 10).
Proof.
  split; [|split; [|split; [|split]]].
  - population_case (population_step rng_zero (after 5 town))
                    (after 5 town) 3 10.
  - population_case (population_step rng_zero (after 8 town))
                    (after 8 town) 10 10.
  - population_case (population_step rng_zero razedTown)
                    razedTown 7 0.
  - population_case (population_step rng_zero (after 3 razedTown))
                    (after 3 razedTown) 0 0.
  - population_case (population_step rng_zero (after 5 fallowTown))
                    (after 5 fallowTown) 7 10.
Defined.

(** * Save and load *)



(** [cleanGhostTiles] visits every cell once and decides on the tile it
    finds there. *)
Lemma getTile_cleanGhostTiles (bs : list PlacedBuilding) (g : Grid) (x z : Z) :
  getTile (cleanGhostTiles bs g) x z
  = (if decide ((x, z) ∈ allCells) then cleanTile bs x z else id) <$> getTile g x z.
Proof.
  unfold cleanGhostTiles.
  pose proof (NoDup_footprint 0 0 GRID_SIZE) as Hnd. fold allCells in Hnd.
  revert Hnd. generalize allCells. intros cs Hnd. revert g.
  induction Hnd as [|c cs Hc Hnd IH]; intros g.
  { cbn [foldl]. rewrite decide_False by apply not_elem_of_nil.
    by rewrite option_fmap_id. }
  cbn [foldl]. rewrite IH. clear IH.
  set (g1 := match getTile g c.1 c.2 with
             | Some tile =>
                 if bool_decide (building tile = None) then g
                 else if existsb (λ b, covers b c.1 c.2) bs then g
                 else modifyTile g c.1 c.2 (setBuilding None 0)
             | None => g
             end).
  assert (Hstep : getTile g1 x z
            = (if decide ((x, z) = c) then cleanTile bs x z else id) <$> getTile g x z).
  { unfold g1. destruct (decide ((x, z) = c)) as [<-|Hne].
    - cbn [fst snd]. destruct (getTile g x z) as [tile|] eqn:Ht; [|by rewrite Ht].
      unfold cleanTile. cbn [fmap option_fmap option_map].
      case_bool_decide; [done|]. destruct (existsb _ bs); [done|].
      by rewrite getTile_modifyTile_eq, Ht.
    - rewrite option_fmap_id.
      destruct (getTile g c.1 c.2) as [tile|]; [|done].
      case_bool_decide; [done|]. destruct (existsb _ bs); [done|].
      rewrite getTile_modifyTile. rewrite decide_False; [done|].
      intros Heq. apply Hne. destruct c. simpl in Heq. congruence. }
  rewrite Hstep. destruct (decide ((x, z) = c)) as [<-|Hne].
  - rewrite decide_False by done. rewrite decide_True by apply list_elem_of_here.
    by rewrite option_fmap_id.
  - rewrite option_fmap_id. destruct (decide ((x, z) ∈ cs)) as [Hin|Hnin].
    + rewrite decide_True; [done|]. by apply list_elem_of_further.
    + rewrite decide_False; [done|]. intros Hin.
      apply elem_of_cons in Hin as [?|?]; done.
Qed.

Lemma cleanGhostTiles_size bs g : grid_size (cleanGhostTiles bs g) = grid_size g.
Proof.
  unfold cleanGhostTiles. generalize allCells. intros cs. revert g.
  induction cs as [|c cs IH]; intros g; [done|]. cbn [foldl]. rewrite IH.
  destruct (getTile g c.1 c.2) as [tile|]; [|done].
  case_bool_decide; [done|]. destruct (existsb _ bs); [done|].
  apply grid_size_modifyTile.
Qed.



(** * Records and grid *)

Lemma tileKind_Some (g : Grid) (c : Cell) (type : BuildingType) :
  tileKind g c = Some type ↔
  ∃ tile, getTile g c.1 c.2 = Some tile ∧ building tile = Some type.
Proof.
  unfold tileKind. destruct (getTile g c.1 c.2) as [tile|]; cbn [mbind option_bind].
  - split; [eauto|]. by intros (tile' & [= <-] & H).
  - split; [done|]. by intros (tile' & [=] & _).
Qed.


Lemma def_size_cases (type : BuildingType) :
  def_size (BUILDINGS type) = 1 ∨ def_size (BUILDINGS type) = 2.
Proof. destruct type; cbn; auto. Qed.

Lemma elem_of_cellsOf (b : PlacedBuilding) (c : Cell) :
  c ∈ cellsOf b ↔ covers b c.1 c.2 = true.
Proof.
  destruct c as [x z]. unfold cellsOf. rewrite elem_of_footprint_box, covers_spec.
  cbn [fst snd]. tauto.
Qed.

Lemma origin_cellsOf (b : PlacedBuilding) : (pb_x b, pb_z b) ∈ cellsOf b.
Proof.
  unfold cellsOf. apply elem_of_footprint_box.
  destruct (def_size_cases (pb_type b)); lia.
Qed.

Lemma cellsOf_box (b : PlacedBuilding) (c : Cell) :
  c ∈ cellsOf b ↔
  pb_x b ≤ c.1 < pb_x b + def_size (BUILDINGS (pb_type b)) ∧
  pb_z b ≤ c.2 < pb_z b + def_size (BUILDINGS (pb_type b)).
Proof. destruct c as [x z]. unfold cellsOf. by rewrite elem_of_footprint_box. Qed.

Section records.
Context (bs : list PlacedBuilding) (g : Grid).
Hypothesis Hmatch : recordsMatch bs g.

Lemma records_cells (b : PlacedBuilding) (c : Cell) :
  b ∈ bs → c ∈ cellsOf b → c ∈ allCells ∧ tileKind g c = Some (pb_type b).
Proof.
  destruct Hmatch as (_ & Hcells & _). rewrite Forall_forall in Hcells.
  intros Hb Hc. specialize (Hcells b Hb). rewrite Forall_forall in Hcells.
  by apply Hcells.
Qed.

Lemma records_cover (c : Cell) (type : BuildingType) :
  c ∈ allCells → tileKind g c = Some type →
  ∃ b, b ∈ bs ∧ c ∈ cellsOf b ∧ pb_type b = type.
Proof.
  destruct Hmatch as (_ & _ & Hcover & _). rewrite Forall_forall in Hcover.
  intros Hc Hk. destruct (Hcover c Hc) as [Hn|Hex]; [congruence|].
  apply Exists_exists in Hex as (b & Hb & Hcb). exists b. split; [done|].
  split; [done|]. destruct (records_cells b c Hb Hcb) as [_ Hk']. congruence.
Qed.



(** Nothing to clean: every tile of the area that holds a building is
    covered. *)
Lemma records_existsb (c : Cell) (tile : Tile) :
  c ∈ allCells → getTile g c.1 c.2 = Some tile → building tile ≠ None →
  existsb (λ b, covers b c.1 c.2) bs = true.
Proof.
  intros Hc Ht Hb. destruct (building tile) as [type|] eqn:Hty; [|done].
  destruct (records_cover c type Hc) as (b & Hin & Hcb & _).
  { apply tileKind_Some. eauto. }
  apply existsb_exists. exists b. split; [by apply list_elem_of_In|].
  by apply elem_of_cellsOf.
Qed.
End records.

(** ** cleanGhostTiles on a grid that matches its records *)

Lemma cleanGhostTiles_id (bs : list PlacedBuilding) (g : Grid) :
  (∀ c tile, c ∈ allCells → getTile g c.1 c.2 = Some tile → building tile ≠ None →
             existsb (λ b, covers b c.1 c.2) bs = true) →
  cleanGhostTiles bs g = g.
Proof.
  unfold cleanGhostTiles. generalize allCells. intros cs Hcov.
  induction cs as [|c cs IH]; [done|]. cbn [foldl].
  assert (Hstep : match getTile g c.1 c.2 with
                  | Some tile =>
                      if bool_decide (building tile = None) then g
                      else if existsb (λ b, covers b c.1 c.2) bs then g
                           else modifyTile g c.1 c.2 (setBuilding None 0)
                  | None => g
                  end = g).
  { destruct (getTile g c.1 c.2) as [tile|] eqn:Ht; [|done].
    case_bool_decide as Hb; [done|].
    by rewrite (Hcov c tile (list_elem_of_here _ _) Ht Hb). }
  rewrite Hstep. apply IH. intros c' tile Hc'. apply Hcov. by apply list_elem_of_further.
Qed.




(** ** The order of the scan *)




(** ** The records rebuilt by loadFromSave *)

Lemma buildingDiffers_tileKind (g : Grid) (x z : Z) (type : BuildingType) :
  buildingDiffers g x z type = true ↔ tileKind g (x, z) ≠ Some type.
Proof.
  unfold buildingDiffers, tileKind. cbn [fst snd].
  destruct (getTile g x z) as [tile|]; cbn [mbind option_bind].
  - by rewrite bool_decide_eq_true.
  - split; [by intros _|done].
Qed.

Section rebuild.
Context (bs : list PlacedBuilding) (g : Grid).
Hypothesis Hmatch : recordsMatch bs g.
Hypothesis Hclear : originsClear bs g.

(** The origin test holds at the origin of a record, *)
Lemma isOrigin_origin (b : PlacedBuilding) :
  b ∈ bs → 1 < def_size (BUILDINGS (pb_type b)) →
  isOrigin g (pb_type b) (pb_x b) (pb_z b) = true.
Proof.
  intros Hb Hsize. unfold originsClear in Hclear. rewrite Forall_forall in Hclear.
  destruct (Hclear b Hb Hsize) as [Hw Hn]. unfold isOrigin.
  apply andb_true_iff. split; apply orb_true_iff; right;
    by apply buildingDiffers_tileKind.
Qed.

(** and fails on the other cells of a record. *)
Lemma isOrigin_inner (b : PlacedBuilding) (c : Cell) :
  b ∈ bs → c ∈ cellsOf b → c ≠ (pb_x b, pb_z b) →
  isOrigin g (pb_type b) c.1 c.2 = false.
Proof.
  intros Hb Hc Hne. destruct c as [x z]. cbn [fst snd].
  pose proof (proj1 (cellsOf_box b (x, z)) Hc) as Hbox. cbn [fst snd] in Hbox.
  destruct (records_cells bs g Hmatch b _ Hb (origin_cellsOf b)) as [Ho _].
  apply elem_of_allCells in Ho. cbn [fst snd] in Ho.
  assert (Hsz : def_size (BUILDINGS (pb_type b)) = 2).
  { destruct (def_size_cases (pb_type b)) as [H1|H2]; [|done].
    exfalso. apply Hne. f_equal; lia. }
  unfold isOrigin. apply andb_false_iff.
  destruct (decide (x = pb_x b)) as [->|Hx].
  - assert (z ≠ pb_z b) by congruence.
    right. apply orb_false_iff. split; [apply Z.eqb_neq; lia|].
    apply not_true_iff_false. rewrite buildingDiffers_tileKind. intros Hd. apply Hd.
    apply (records_cells bs g Hmatch b); [done|]. apply cellsOf_box. cbn [fst snd]. lia.
  - left. apply orb_false_iff. split; [apply Z.eqb_neq; lia|].
    apply not_true_iff_false. rewrite buildingDiffers_tileKind. intros Hd. apply Hd.
    apply (records_cells bs g Hmatch b); [done|]. apply cellsOf_box. cbn [fst snd]. lia.
Qed.




End rebuild.

(** ** The forum search of loadFromSave *)



(** ** The road network of a game in order *)


(** ** Ticks of two games in the same state *)

Lemma separate_Permutation (bs bs' : list PlacedBuilding) :
  bs ≡ₚ bs' → separate bs' → separate bs.
Proof.
  intros Hp [Hnd Hun]. split; [by rewrite Hp|].
  intros b1 b2 x z H1 H2. apply Hun; by rewrite <- Hp.
Qed.







(** ** Save, load and the future *)


(** ** Instances: the town, the siege, two farms side by side *)




(** Of two farms side by side, the load keeps the first only: the tile at
    (2, 0) is a farm tile before the save and empty after the load. *)
Example load_clears_second_farm :
  (building <$> getTile (grid twoFarmsGame) 2 0,
   (λ loaded, building <$> getTile (grid loaded) 2 0)
     <$> (data ← SaveSystem_load (Some (doSave 0 twoFarmsGame));
          loadFromSave newGame data),
   (λ loaded, building <$> getTile (grid loaded) 0 0)
     <$> (data ← SaveSystem_load (Some (doSave 0 twoFarmsGame));
          loadFromSave newGame data))
  = (Some (Some farm), Some (Some None), Some (Some (Some farm))).
Proof. vm_compute. reflexivity. Qed.

(** The two farms of [twoFarmsGame] are described by its records, but the
    second one has a farm tile directly west of its origin. *)
Example two_farms_not_clear :
  (bool_decide (recordsMatch (placedBuildings twoFarmsGame) (grid twoFarmsGame)),
   bool_decide (originsClear (placedBuildings twoFarmsGame) (grid twoFarmsGame)))
  = (true, false).
Proof. vm_compute. reflexivity. Qed.

(** * Further properties of the code *)

(** ** Pathfinding.floodFillRoads *)

Lemma roadLinked_road (g : Grid) (s c : Cell) :
  roadLinked g s c → isRoadOrForumAt g c = true ∧ isRoadOrForumAt g s = true.
Proof. induction 1 as [|c d _ [_ IH] _ Hd]; [done|]. done. Qed.

(** X1. [floodFillRoads] always returns, and the set it returns holds
    exactly the cells linked to the start by a chain of neighbouring road
    or forum tiles: nothing when the start is not such a tile, and only
    road or forum tiles of the grid otherwise. *)
Theorem floodFillRoads_spec (g : Grid) (x z : Z) :
  ∃ roads : gset Cell,
    floodFillRoads g x z = Some roads ∧
    (∀ c, c ∈ roads ↔ roadLinked g (x, z) c) ∧
    (∀ c, c ∈ roads → inGrid g c ∧ isRoadOrForumAt g c = true) ∧
    (isRoadOrForumAt g (x, z) = false → roads = ∅).
Proof.
  destruct (floodFillRoads_linked g x z) as (roads & Hrun & Hspec). exists roads.
  split; [done|]. split; [done|]. split.
  - intros [cx cz] Hc. apply Hspec, roadLinked_road in Hc as [Hc _]. split; [|done].
    apply isRoadOrForumAt_spec in Hc as [Hb _]. exact Hb.
  - intros Hno. apply set_eq. intros c. split.
    + intros Hc. apply Hspec, roadLinked_road in Hc as [_ Hc]. congruence.
    + intros Hc. by apply elem_of_empty in Hc.
Qed.

(** ** Pathfinding.getAdjacentRoadTiles *)

(** X2. [getAdjacentRoadTiles] returns, without repetition, exactly the
    cells outside the footprint that are next to one of its cells and hold
    a road or forum tile; all of them are cells of the grid, and a building
    without a footprint has none. *)
Theorem getAdjacentRoadTiles_spec (g : Grid) (x z size : Z) :
  NoDup (getAdjacentRoadTiles g x z size) ∧
  (∀ c : Cell, c ∈ getAdjacentRoadTiles g x z size ↔
     (∃ f, f ∈ footprint x z size ∧ adjacent f c) ∧
     (c ∉ footprint x z size) ∧ isRoadOrForumAt g c = true) ∧
  (∀ c : Cell, c ∈ getAdjacentRoadTiles g x z size → inGrid g c) ∧
  (size ≤ 0 → getAdjacentRoadTiles g x z size = []).
Proof.
  destruct (getAdjacentRoadTiles_elem g x z size) as [Hnd Hel].
  split; [done|]. split; [done|]. split.
  - intros [cx cz] Hc. apply Hel in Hc as (_ & _ & Hr).
    by apply isRoadOrForumAt_spec in Hr as [Hb _].
  - intros Hsize. destruct (getAdjacentRoadTiles g x z size) as [|c l]; [done|].
    assert (Hc : c ∈ c :: l) by apply list_elem_of_here.
    apply Hel in Hc as ((f & Hf & _) & _).
    apply elem_of_footprint in Hf as (dx & dz & Hdx & _). lia.
Qed.

(** ** InvasionSystem.findNearestInvader *)

(** X3. [findNearestInvader] returns a living invader of the list within
    the range, at the least Manhattan distance among those, and the first
    such one in list order; it returns nothing exactly when no living
    invader is within the range. *)
Theorem findNearestInvader_spec (invs : list Invader) (x z : Z) (range : Range) :
  match findNearestInvader invs x z range with
  | Some (i, inv) =>
      invs !! i = Some inv ∧ inv_state inv ≠ dead ∧
      withinRange (distTo inv x z) range = true ∧
      ∀ (j : nat) (other : Invader),
        invs !! j = Some other → inv_state other ≠ dead →
        withinRange (distTo other x z) range = true →
        distTo inv x z ≤ distTo other x z ∧
        ((j < i)%nat → distTo inv x z < distTo other x z)
  | None =>
      ∀ (j : nat) (other : Invader),
        invs !! j = Some other → inv_state other ≠ dead →
        withinRange (distTo other x z) range = false
  end.
Proof.
  unfold findNearestInvader.
  set (step := λ (nearest : option (Z * (nat * Invader))) (e : nat * Invader),
         if bool_decide (inv_state e.2 = dead) then nearest
         else
           let dist := Z.abs (inv_x e.2 - x) + Z.abs (inv_z e.2 - z) in
           if withinRange dist range
              && match nearest with
                 | Some (nearestDist, _) => dist <? nearestDist
                 | None => true
                 end
           then Some (dist, e)
           else nearest).
  assert (H : match foldl step None (imap (λ i inv, (i, inv)) invs) with
    | Some (d, (i, inv)) =>
        d = distTo inv x z ∧
        invs !! i = Some inv ∧ inv_state inv ≠ dead ∧
        withinRange (distTo inv x z) range = true ∧
        ∀ (j : nat) (other : Invader),
          invs !! j = Some other → inv_state other ≠ dead →
          withinRange (distTo other x z) range = true →
          distTo inv x z ≤ distTo other x z ∧
          ((j < i)%nat → distTo inv x z < distTo other x z)
    | None =>
        ∀ (j : nat) (other : Invader),
          invs !! j = Some other → inv_state other ≠ dead →
          withinRange (distTo other x z) range = false
    end).
  { induction invs as [|e invs IH] using rev_ind; [done|].
    rewrite imap_app, foldl_app. cbn [imap foldl]. rewrite Nat.add_0_r.
    destruct (foldl step None (imap (λ i inv, (i, inv)) invs))
      as [[d [i inv]]|] eqn:Hfold; unfold step at 1; cbn [fst snd];
      fold (distTo e x z).
    - destruct IH as (-> & Hi & Halive & Hin & Hmin).
      pose proof (lookup_lt_Some _ _ _ Hi) as Hlt.
      case_bool_decide as Hdead.
      { split; [done|]. split; [by apply lookup_app_l_Some|]. split; [done|].
        split; [done|]. intros j other Hj Ha Hr.
        apply lookup_app_Some in Hj as [Hj|[Hge Hj]]; [by apply Hmin|].
        apply list_lookup_singleton_Some in Hj as [_ <-]. done. }
      destruct (withinRange (distTo e x z) range) eqn:Hr; cbn [andb].
      + destruct (distTo e x z <? distTo inv x z) eqn:Hcmp.
        * apply Z.ltb_lt in Hcmp. split; [done|]. split.
          { rewrite lookup_app_r by done. by rewrite Nat.sub_diag. }
          split; [done|]. split; [done|]. intros j other Hj Ha Hr'.
          apply lookup_app_Some in Hj as [Hj|[Hge Hj]].
          -- destruct (Hmin j other Hj Ha Hr') as [Hle _]. lia.
          -- apply list_lookup_singleton_Some in Hj as [_ <-]. lia.
        * apply Z.ltb_ge in Hcmp. split; [done|].
          split; [by apply lookup_app_l_Some|]. split; [done|]. split; [done|].
          intros j other Hj Ha Hr'.
          apply lookup_app_Some in Hj as [Hj|[Hge Hj]]; [by apply Hmin|].
          apply list_lookup_singleton_Some in Hj as [_ <-]. lia.
      + split; [done|]. split; [by apply lookup_app_l_Some|]. split; [done|].
        split; [done|]. intros j other Hj Ha Hr'.
        apply lookup_app_Some in Hj as [Hj|[Hge Hj]]; [by apply Hmin|].
        apply list_lookup_singleton_Some in Hj as [_ <-]. congruence.
    - case_bool_decide as Hdead.
      { intros j other Hj Ha.
        apply lookup_app_Some in Hj as [Hj|[Hge Hj]]; [by eapply IH|].
        apply list_lookup_singleton_Some in Hj as [_ <-]. done. }
      destruct (withinRange (distTo e x z) range) eqn:Hr; cbn [andb].
      + split; [done|]. split.
        { rewrite lookup_app_r by done. by rewrite Nat.sub_diag. }
        split; [done|]. split; [done|]. intros j other Hj Ha Hr'.
        apply lookup_app_Some in Hj as [Hj|[Hge Hj]].
        * rewrite (IH j other Hj Ha) in Hr'. done.
        * apply list_lookup_singleton_Some in Hj as [_ <-]. lia.
      + intros j other Hj Ha.
        apply lookup_app_Some in Hj as [Hj|[Hge Hj]]; [by eapply IH|].
        apply list_lookup_singleton_Some in Hj as [_ <-]. done. }
  destruct (foldl step None (imap (λ i inv, (i, inv)) invs)) as [[d [i inv]]|];
    cbn [fmap option_fmap option_map snd]; [|done].
  by destruct H as (_ & H).
Qed.

(** ** WalkerSystem.tick *)

Lemma Walker_tick_age (n : Z) (ws : list Walker) :
  0 ≤ n →
  Walker_tick (filter (λ w, 0 < lifespan w) (ageWalker n <$> ws))
  = filter (λ w, 0 < lifespan w) (ageWalker (n + 1) <$> ws).
Proof.
  intros Hn. unfold Walker_tick.
  change (λ w : Walker, mkWalker (w_type w) (gridX w) (gridZ w) (w_targetX w)
            (w_targetZ w) (prevX w) (prevZ w) (w_progress w) (lifespan w - 1)
            (w_hp w) (homeX w) (homeZ w)) with (ageWalker 1).
  induction ws as [|w ws IH]; [done|]. rewrite !fmap_cons.
  assert (Hage : ageWalker 1 (ageWalker n w) = ageWalker (n + 1) w).
  { unfold ageWalker. cbn. f_equal. lia. }
  destruct (decide (0 < lifespan w - n)) as [Hlive|Hgone].
  - rewrite (filter_cons_True _ (ageWalker n w)) by done.
    rewrite fmap_cons, Hage. destruct (decide (0 < lifespan w - (n + 1))).
    + rewrite !filter_cons_True by done. by rewrite IH.
    + rewrite !filter_cons_False by done. by rewrite IH.
  - rewrite (filter_cons_False _ (ageWalker n w)) by done.
    rewrite (filter_cons_False _ (ageWalker (n + 1) w)) by (cbn; lia). by rewrite IH.
Qed.

(** X4. After [n >= 1] calls of [WalkerSystem.tick] the walkers left are
    those that had more than [n] ticks to live, in their order and [n]
    ticks older; no walker is left once [n] reaches the longest remaining
    life.  A walker fresh from [spawn] is there for 29 ticks and gone at
    the 30th. *)
Theorem Walker_tick_iter (n : nat) (ws : list Walker) :
  (0 < n)%nat →
  Nat.iter n Walker_tick ws
  = filter (λ w, 0 < lifespan w) (ageWalker (Z.of_nat n) <$> ws) ∧
  (Forall (λ w, lifespan w ≤ Z.of_nat n) ws → Nat.iter n Walker_tick ws = []) ∧
  (∀ w, lifespan w = WALKER_LIFESPAN →
        Nat.iter 29 Walker_tick [w] = [ageWalker 29 w] ∧
        Nat.iter 30 Walker_tick [w] = []).
Proof.
  assert (Hiter : ∀ m : nat, Nat.iter (S m) Walker_tick ws
            = filter (λ w, 0 < lifespan w) (ageWalker (Z.of_nat (S m)) <$> ws)).
  { induction m as [|m IH]; [reflexivity|].
    change (Nat.iter (S (S m)) Walker_tick ws)
      with (Walker_tick (Nat.iter (S m) Walker_tick ws)).
    rewrite IH, Walker_tick_age by lia.
    by replace (Z.of_nat (S (S m))) with (Z.of_nat (S m) + 1) by lia. }
  assert (Hone : ∀ (m : nat) (w : Walker), Nat.iter (S m) Walker_tick [w]
            = filter (λ w, 0 < lifespan w) (ageWalker (Z.of_nat (S m)) <$> [w])).
  { clear Hiter. intros m w. induction m as [|m IH]; [reflexivity|].
    change (Nat.iter (S (S m)) Walker_tick [w])
      with (Walker_tick (Nat.iter (S m) Walker_tick [w])).
    rewrite IH, Walker_tick_age by lia.
    by replace (Z.of_nat (S (S m))) with (Z.of_nat (S m) + 1) by lia. }
  intros Hn. destruct n as [|m]; [lia|]. split; [apply Hiter|]. split.
  - intros Hall. rewrite Hiter. clear Hiter Hone.
    induction Hall as [|w ws Hw _ IH]; [done|].
    rewrite fmap_cons, filter_cons_False by (cbn; lia). exact IH.
  - intros w Hw. rewrite (Hone 28%nat), (Hone 29%nat). cbn [fmap list_fmap].
    rewrite filter_cons_True by (cbn; rewrite Hw; unfold WALKER_LIFESPAN; lia).
    rewrite filter_cons_False by (cbn; rewrite Hw; unfold WALKER_LIFESPAN; lia).
    done.
Qed.

Lemma Walker_tick_iter_witness :
  Nat.iter 30 Walker_tick [arrivedWalker] = [].
Proof.
  destruct (Walker_tick_iter 30 [arrivedWalker]) as (_ & Hgone & _); [lia|].
  apply Hgone. repeat constructor. cbn. unfold WALKER_LIFESPAN. lia.
Defined.

(** ** The scan loop and the accounts of Game.simulationTick *)

Lemma isOrigin_same (g g' : Grid) (type : BuildingType) (x z : Z) :
  sameBuildings g g' → isOrigin g' type x z = isOrigin g type x z.
Proof.
  intros [_ Hsame]. unfold isOrigin.
  assert (H : ∀ x z, buildingDiffers g' x z type = buildingDiffers g x z type).
  { intros x' z'. unfold buildingDiffers. specialize (Hsame x' z').
    destruct (getTile g' x' z') as [t'|], (getTile g x' z') as [t|]; try done.
    simpl in Hsame. injection Hsame as Hb _. by rewrite Hb. }
  by rewrite !H.
Qed.

Lemma scanStep_farms (reachable : gset Cell) (g0 : Grid) (sc : Scan) (c : Cell) :
  sameBuildings g0 (sc_grid sc) →
  let keep := λ c : Cell,
    isKindAt g0 farm c && isOrigin g0 farm c.1 c.2
    && isBuildingConnected g0 c.1 c.2 (def_size (BUILDINGS farm)) reachable in
  sc_farms (scanStep reachable sc c) = sc_farms sc ++ filter keep [c] ∧
  sc_foodProduction (scanStep reachable sc c)
  = sc_foodProduction sc + FARM_FOOD_RATE * Z.of_nat (length (filter keep [c])).
Proof.
  intros Hsame keep.
  pose proof (isKindAt_same g0 (sc_grid sc) farm c Hsame) as Hkind.
  unfold scanStep. unfold isKindAt in Hkind at 1.
  destruct (getTile (sc_grid sc) c.1 c.2) as [tile|] eqn:Ht.
  - cbn [sc_farms sc_foodProduction].
    rewrite (isOrigin_same g0 (modifyTile (sc_grid sc) c.1 c.2 ageTile)).
    2:{ eapply sameBuildings_trans; [exact Hsame|].
        apply sameBuildings_modifyTile. intros t. done. }
    rewrite Hkind.
    change (isBuildingConnected (modifyTile (sc_grid sc) c.1 c.2 ageTile) c.1 c.2
              (def_size (BUILDINGS farm)) reachable)
      with (isBuildingConnected g0 c.1 c.2 (def_size (BUILDINGS farm)) reachable).
    fold (keep c). destruct (keep c) eqn:E.
    + rewrite filter_cons_True by (by apply Is_true_true_2).
      rewrite filter_nil. cbn [length]. split; [done|]. unfold FARM_FOOD_RATE. lia.
    + rewrite filter_cons_False by (by apply Is_true_false_2).
      rewrite filter_nil, app_nil_r. cbn [length]. split; [done|]. unfold FARM_FOOD_RATE. lia.
  - assert (keep c = false) as E by (unfold keep; by rewrite <- Hkind).
    rewrite filter_cons_False by (by apply Is_true_false_2).
    rewrite filter_nil, app_nil_r. cbn [length]. split; [done|]. unfold FARM_FOOD_RATE. lia.
Qed.

(** The scan loop collects the active farms and counts [FARM_FOOD_RATE]
    for each. *)
Lemma scanGrid_farms (reachable : gset Cell) (g0 : Grid) :
  sc_farms (scanGrid reachable g0) = activeFarms g0 reachable ∧
  sc_foodProduction (scanGrid reachable g0)
  = FARM_FOOD_RATE * Z.of_nat (length (activeFarms g0 reachable)).
Proof.
  unfold scanGrid, activeFarms. generalize allCells. intros cs.
  set (keep := λ c : Cell,
    isKindAt g0 farm c && isOrigin g0 farm c.1 c.2
    && isBuildingConnected g0 c.1 c.2 (def_size (BUILDINGS farm)) reachable).
  assert (H : ∀ sc, sameBuildings g0 (sc_grid sc) →
    sc_farms (foldl (scanStep reachable) sc cs) = sc_farms sc ++ filter keep cs ∧
    sc_foodProduction (foldl (scanStep reachable) sc cs)
    = sc_foodProduction sc + FARM_FOOD_RATE * Z.of_nat (length (filter keep cs))).
  { induction cs as [|c cs IH]; intros sc Hsame.
    - cbn [foldl]. rewrite filter_nil, app_nil_r. cbn [length]. split; [done|]. unfold FARM_FOOD_RATE. lia.
    - cbn [foldl].
      destruct (scanStep_farms reachable g0 sc c Hsame) as [Hf Hp].
      destruct (scanStep_spec reachable g0 sc c Hsame) as (Hs & _).
      destruct (IH _ Hs) as [Hf' Hp']. subst keep. cbv beta in *.
      rewrite Hf', Hp', Hf, Hp, <- app_assoc.
      change (c :: cs) with ([c] ++ cs). rewrite filter_app, length_app.
      split; [done|]. unfold FARM_FOOD_RATE. lia. }
  destruct (H (mkScan g0 0 [] [] [] [] [])) as [Hf Hp]; [apply sameBuildings_refl|].
  rewrite Hf, Hp. subst keep. cbn [sc_farms sc_foodProduction app]. cbv beta.
  split; [done|]. unfold FARM_FOOD_RATE. lia.
Qed.

(** On a grid that matches its records, where no larger building has a
    tile of its own kind west or north of its origin, the farms that the
    scan loop counts are the farm records with a reachable cell beside
    them. *)
Lemma activeFarms_records (bs : list PlacedBuilding) (g : Grid) (reachable : gset Cell) :
  recordsMatch bs g → originsClear bs g →
  ∃ farms : list PlacedBuilding,
    NoDup farms ∧
    (∀ b, b ∈ farms ↔
          b ∈ bs ∧ pb_type b = farm ∧
          ∃ c d : Cell, c ∈ cellsOf b ∧ manhattan c d = 1 ∧ d ∈ reachable) ∧
    length farms = length (activeFarms g reachable).
Proof.
  intros Hmatch Hclear.
  exists ((λ c : Cell, mkPlaced farm c.1 c.2) <$> activeFarms g reachable).
  split; [|split; [|apply length_fmap]].
  { apply NoDup_fmap_2.
    - intros [x1 z1] [x2 z2] [= -> ->]. done.
    - unfold activeFarms. apply NoDup_filter, NoDup_allCells. }
  assert (Hconn : ∀ b : PlacedBuilding, pb_type b = farm →
            isBuildingConnected g (pb_x b) (pb_z b) (def_size (BUILDINGS farm)) reachable
            = true ↔
            ∃ c d : Cell, c ∈ cellsOf b ∧ manhattan c d = 1 ∧ d ∈ reachable).
  { intros b Hty. rewrite isBuildingConnected_spec. unfold cellsOf. rewrite Hty.
    split; intros (c & d & Hc & Hadj & Hd); exists c, d;
      (split; [done|split; [by apply adjacent_manhattan|done]]). }
  intros b. rewrite list_elem_of_fmap. unfold activeFarms. split.
  - intros ([x z] & -> & Hc). apply list_elem_of_filter in Hc as [Hkeep Harea].
    cbn [fst snd] in *. apply Is_true_true in Hkeep.
    apply andb_true_iff in Hkeep as [[Hk Hio]%andb_true_iff Hcon].
    apply isKindAt_holds, tileKind_Some in Hk.
    destruct (records_cover bs g Hmatch (x, z) farm Harea Hk) as (b0 & Hb0 & Hcb0 & Hty).
    assert (Ho : (x, z) = (pb_x b0, pb_z b0)).
    { destruct (decide ((x, z) = (pb_x b0, pb_z b0))) as [?|Hne]; [done|].
      pose proof (isOrigin_inner bs g Hmatch b0 (x, z) Hb0 Hcb0 Hne) as Hin.
      rewrite Hty in Hin. cbn [fst snd] in Hin. congruence. }
    injection Ho as -> ->.
    assert (mkPlaced farm (pb_x b0) (pb_z b0) = b0) as ->.
    { destruct b0 as [t0 x0 z0]. cbn [pb_type pb_x pb_z] in *. by subst t0. }
    split; [done|]. split; [done|]. by apply Hconn.
  - intros (Hb & Hty & Hcon). exists (pb_x b, pb_z b). cbn [fst snd]. split.
    { destruct b as [t0 x0 z0]. cbn [pb_type pb_x pb_z] in *. by subst t0. }
    destruct (records_cells bs g Hmatch b _ Hb (origin_cellsOf b)) as [Harea Hk].
    apply list_elem_of_filter. split; [|done]. cbn [fst snd].
    apply Is_true_true. apply andb_true_iff. split; [apply andb_true_iff; split|].
    + apply isKindAt_holds, tileKind_Some. by rewrite <- Hty.
    + rewrite <- Hty. apply (isOrigin_origin bs g Hclear b Hb).
      rewrite Hty. cbn. lia.
    + by apply Hconn.
Qed.

Lemma tickPrepare_matched (gm : Game) :
  recordsMatch (placedBuildings gm) (grid gm) →
  ∃ reachable, tickPrepare gm = Some (grid gm, reachable).
Proof.
  intros Hmatch. unfold tickPrepare. destruct (roadsDirty gm); [|eauto].
  destruct (rebuildRoadNetwork_total (placedBuildings gm) (grid gm) (forumPos gm))
    as (r & Hr).
  exists r. rewrite Hr. do 2 f_equal. apply cleanGhostTiles_id.
  intros c tile. apply (records_existsb _ _ Hmatch).
Qed.

(** X5. The accounts of a tick of a running game whose records describe
    the grid and in which no building larger than one tile has a tile of
    its own kind directly west or north of its origin.  The tick counter
    goes up by one.  The food stock gains [FARM_FOOD_RATE] for every farm
    record with a cell of the reachable road set at Manhattan distance 1
    from one of its cells, and loses [FOOD_PER_POP] for every inhabitant;
    it may go negative.  If the game goes on, the capacity is recounted on
    the final grid, the tax [TAX_RATE] per inhabitant of the adjusted
    population is added to the gold and to the total earned, the peak
    population is kept up to date and the waves survived follow the wave
    number; if the forum fell, gold, population, capacity and score are
    left as they were. *)
Theorem simulationTick_accounts (rng : Rng) (gm : Game) :
  rng_ok rng → gameOver gm = false →
  recordsMatch (placedBuildings gm) (grid gm) →
  originsClear (placedBuildings gm) (grid gm) →
  ∃ (gm' : Game) (reachable : gset Cell) (farms : list PlacedBuilding),
    simulationTick rng gm = Some gm' ∧
    tickPrepare gm = Some (grid gm, reachable) ∧
    (NoDup farms ∧
     ∀ b, b ∈ farms ↔
          b ∈ placedBuildings gm ∧ pb_type b = farm ∧
          ∃ c d : Cell, c ∈ cellsOf b ∧ manhattan c d = 1 ∧ d ∈ reachable) ∧
    tickCount gm' = tickCount gm + 1 ∧
    res_food (resources gm')
    = (res_food (resources gm)
       + (inject_Z (FARM_FOOD_RATE * Z.of_nat (length farms))
          - inject_Z (population (resources gm)) * FOOD_PER_POP))%Q ∧
    (gameOver gm' = false →
       let pop' := population (resources gm') in
       maxPopulation (resources gm') = countMaxPop (grid gm') ∧
       res_gold (resources gm') = res_gold (resources gm) + pop' * TAX_RATE ∧
       totalGoldEarned (score gm') = totalGoldEarned (score gm) + pop' * TAX_RATE ∧
       peakPopulation (score gm') = Z.max (peakPopulation (score gm)) pop' ∧
       wavesSurvived (score gm') = waveNumber (invasionSystem gm')) ∧
    (gameOver gm' = true →
       res_gold (resources gm') = res_gold (resources gm) ∧
       population (resources gm') = population (resources gm) ∧
       maxPopulation (resources gm') = maxPopulation (resources gm) ∧
       score gm' = score gm).
Proof.
  intros Hok Hrun Hmatch Hclear.
  destruct (simulationTick_phases rng gm Hok Hrun)
    as (g0 & reachable & nw & nf & ns & nfa & kw & k1 & sys & g2 & k2 & result
        & Hprep & _ & _ & _ & _ & _ & _ & _ & _ & _ & _ & Htick).
  destruct (tickPrepare_matched gm Hmatch) as (r & Hr).
  rewrite Hr in Hprep. injection Hprep as <- <-.
  destruct (scanGrid_farms r (grid gm)) as [_ Hprod].
  destruct (activeFarms_records _ _ r Hmatch Hclear) as (farms & Hnd & Hel & Hlen).
  eexists _, r, farms. split; [exact Htick|]. split; [exact Hr|].
  split; [split; [exact Hnd|exact Hel]|].
  split; [apply tickResolve_tickCount|]. split.
  { rewrite tickResolve_food. unfold foodAfter. rewrite Hprod, Hlen. reflexivity. }
  rewrite tickResolve_gameOver. unfold tickResolve, signalsForumDestroyed.
  destruct (match result with Some r => forumDestroyed r | None => false end).
  - split; [intros H; discriminate H|]. intros _.
    cbn [resources res_gold population maxPopulation score].
    split; [reflexivity|]. split; [reflexivity|]. split; reflexivity.
  - split; [|intros H; discriminate H]. intros _. cbv zeta.
    cbn [resources res_gold population maxPopulation score grid
         totalGoldEarned peakPopulation wavesSurvived invasionSystem].
    split; [reflexivity|]. split; [reflexivity|]. split; [reflexivity|].
    split; reflexivity.
Qed.

(** The town at tick 6, with three inhabitants and one farm: the seventh
    tick adds 4 to the store and takes 3/2 from it, the population grows
    to 6 and pays 12 gold. *)
Lemma simulationTick_accounts_witness :
  ∃ gm', simulationTick rng_zero (after 6 town) = Some gm' ∧
         tickCount gm' = 7 ∧
         (res_food (resources (after 6 town)) == 24)%Q ∧
         (res_food (resources gm') == 53 # 2)%Q ∧
         population (resources gm') = 6 ∧
         res_gold (resources gm') = res_gold (resources (after 6 town)) + 12.
Proof.
  destruct (simulationTick_accounts rng_zero (after 6 town))
    as (gm' & reachable & farms & Htick & Hprep & [Hnd Hel] & Hcount & Hfood
        & Hon & _).
  - apply rng_zero_ok.
  - vm_compute. reflexivity.
  - apply (bool_decide_unpack _). vm_compute. exact I.
  - apply (bool_decide_unpack _). vm_compute. exact I.
  - assert (Hg : tickPrepare (after 6 town)
                 = Some (grid (after 6 town), reachableRoads (after 6 town)))
      by (vm_compute; reflexivity).
    rewrite Hg in Hprep. apply (inj Some) in Hprep.
    apply pair_equal_spec in Hprep as [_ <-].
    assert (Hlen : length farms = 1%nat).
    { assert (Hsub : ∀ b, b ∈ farms → b ∈ [mkPlaced farm 11 15]).
      { intros b Hb. apply Hel in Hb as (Hb & Hty & _).
        assert (E : filter (λ b, pb_type b = farm) (placedBuildings (after 6 town))
                    = [mkPlaced farm 11 15]) by (vm_compute; reflexivity).
        rewrite <- E. apply list_elem_of_filter. split; [exact Hty|exact Hb]. }
      pose proof (submseteq_length _ _ (NoDup_submseteq _ _ Hnd Hsub)) as Hle.
      cbn [length] in Hle.
      assert (Hin : mkPlaced farm 11 15 ∈ farms).
      { apply Hel. split; [apply (bool_decide_unpack _); vm_compute; exact I|].
        split; [reflexivity|]. exists (12, 15), (13, 15).
        split; [apply (bool_decide_unpack _); vm_compute; exact I|].
        split; [reflexivity|]. apply (bool_decide_unpack _). vm_compute. exact I. }
      destruct farms as [|b l]; [apply elem_of_nil in Hin; destruct Hin|].
      cbn [length] in *. lia. }
    assert (E : (λ gm, (gameOver gm, population (resources gm)))
                  <$> simulationTick rng_zero (after 6 town) = Some (false, 6))
      by (vm_compute; reflexivity).
    rewrite Htick in E. apply (inj Some) in E.
    apply pair_equal_spec in E as [Hover Hpop].
    destruct (Hon Hover) as (_ & Hgold & _).
    exists gm'. split; [exact Htick|].
    split; [rewrite Hcount; vm_compute; reflexivity|].
    split; [vm_compute; reflexivity|].
    split; [rewrite Hfood, Hlen; vm_compute; reflexivity|].
    split; [exact Hpop|]. rewrite Hgold, Hpop. reflexivity.
Defined.

(** Where two farms stand side by side the scan counts one: both farms of
    [twoFarmsTown] touch the road, and a tick adds 4 to the store, not
    8. *)
Example adjacent_farms_count_once :
  (bool_decide (recordsMatch (placedBuildings twoFarmsTown) (grid twoFarmsTown)),
   bool_decide (originsClear (placedBuildings twoFarmsTown) (grid twoFarmsTown)),
   (λ gm, Qred (res_food (resources gm))) <$> simulationTick rng_zero twoFarmsTown)
  = (true, false, Some 4%Q).
Proof. vm_compute. reflexivity. Qed.

Lemma getTile_scanStep (reachable : gset Cell) (sc : Scan) (c : Cell) (x z : Z) :
  getTile (sc_grid (scanStep reachable sc c)) x z
  = (if decide ((x, z) = c) then ageTile else id) <$> getTile (sc_grid sc) x z.
Proof.
  unfold scanStep. destruct (decide ((x, z) = c)) as [<-|Hne].
  - cbn [fst snd]. destruct (getTile (sc_grid sc) x z) as [tile|] eqn:Ht.
    + cbn [sc_grid]. by rewrite getTile_modifyTile_eq, Ht.
    + by rewrite Ht.
  - rewrite option_fmap_id. destruct (getTile (sc_grid sc) c.1 c.2) as [tile|]; [|done].
    cbn [sc_grid]. rewrite getTile_modifyTile. rewrite decide_False; [done|].
    intros Heq. apply Hne. destruct c. simpl in Heq. congruence.
Qed.

Lemma getTile_scanGrid (reachable : gset Cell) (g : Grid) (x z : Z) :
  getTile (sc_grid (scanGrid reachable g)) x z
  = (if decide ((x, z) ∈ allCells) then ageTile else id) <$> getTile g x z.
Proof.
  unfold scanGrid.
  pose proof (NoDup_footprint 0 0 GRID_SIZE) as Hnd. fold allCells in Hnd.
  change g with (sc_grid (mkScan g 0 [] [] [] [] [])) at 2.
  generalize (mkScan g 0 [] [] [] [] []).
  revert Hnd. generalize allCells. intros cs Hnd.
  induction Hnd as [|c cs Hc Hnd IH]; intros sc.
  { cbn [foldl]. rewrite decide_False by apply not_elem_of_nil.
    by rewrite option_fmap_id. }
  cbn [foldl]. rewrite IH, getTile_scanStep.
  destruct (decide ((x, z) = c)) as [<-|Hne].
  - rewrite decide_False by done. rewrite decide_True by apply list_elem_of_here.
    by rewrite option_fmap_id.
  - rewrite option_fmap_id. destruct (decide ((x, z) ∈ cs)) as [Hin|Hnin].
    + rewrite decide_True; [done|]. by apply list_elem_of_further.
    + rewrite decide_False; [done|]. intros Hin.
      apply elem_of_cons in Hin as [?|?]; done.
Qed.

(** X6. The scan loop of a tick visits every tile of the 32 by 32 area
    once: it leaves the building and its hit points alone, lowers each
    positive service countdown by one, and sets each service flag to
    whether its countdown is still positive.  Tiles outside that area are
    not touched. *)
Theorem scanGrid_tiles (reachable : gset Cell) (g : Grid) (x z : Z) (tile : Tile) :
  getTile g x z = Some tile →
  ∃ tile' : Tile,
    getTile (sc_grid (scanGrid reachable g)) x z = Some tile' ∧
    ((x, z) ∉ allCells → tile' = tile) ∧
    ((x, z) ∈ allCells →
       tile_x tile' = tile_x tile ∧ tile_z tile' = tile_z tile ∧
       building tile' = building tile ∧ buildingHp tile' = buildingHp tile ∧
       waterTimer tile'
       = (if 0 <? waterTimer tile then waterTimer tile - 1 else waterTimer tile) ∧
       foodTimer tile'
       = (if 0 <? foodTimer tile then foodTimer tile - 1 else foodTimer tile) ∧
       (0 ≤ waterTimer tile → waterTimer tile' = Z.max 0 (waterTimer tile - 1)) ∧
       (0 ≤ foodTimer tile → foodTimer tile' = Z.max 0 (foodTimer tile - 1)) ∧
       (hasWater tile' = true ↔ 0 < waterTimer tile') ∧
       (hasFood tile' = true ↔ 0 < foodTimer tile')).
Proof.
  intros Hget. rewrite getTile_scanGrid, Hget. cbn [fmap option_fmap option_map].
  destruct (decide ((x, z) ∈ allCells)) as [Hin|Hout].
  - eexists. split; [reflexivity|]. split; [done|]. intros _.
    unfold ageTile. cbn.
    split; [done|]. split; [done|]. split; [done|]. split; [done|].
    split; [done|]. split; [done|].
    split; [intros ?; destruct (0 <? waterTimer tile) eqn:E; lia|].
    split; [intros ?; destruct (0 <? foodTimer tile) eqn:E; lia|].
    split; apply Z.ltb_lt.
  - exists tile. split; [done|]. split; [done|]. done.
Qed.

Lemma scanGrid_tiles_witness :
  ∃ tile', getTile (sc_grid (scanGrid ∅ roadGrid)) 1 0 = Some tile' ∧
           building tile' = Some road.
Proof.
  destruct (scanGrid_tiles ∅ roadGrid 1 0
              (setBuilding (Some road) 10 (newTile 1 0)))
    as (tile' & Hget & _ & Hin); [vm_compute; reflexivity|].
  exists tile'. split; [exact Hget|].
  destruct Hin as (_ & _ & Hb & _); [|exact Hb].
  unfold allCells. apply elem_of_footprint_box. unfold GRID_SIZE. lia.
Defined.

(** ** WalkerSystem.serviceNearbyHouses *)

Lemma serviceTile_idem (type : WalkerType) (t : Tile) :
  serviceTile type (serviceTile type t) = serviceTile type t.
Proof.
  unfold serviceTile.
  destruct (bool_decide (building t = Some house)) eqn:E; [|by rewrite E].
  destruct type; cbn; by rewrite ?E.
Qed.

Lemma serviceCells_near (walker : Walker) (x z : Z) :
  (x, z) ∈ (λ d : Z * Z, (gridX walker + d.1, gridZ walker + d.2))
             <$> [(0, 0); (1, 0); (-1, 0); (0, 1); (0, -1)] ↔
  Z.abs (x - gridX walker) + Z.abs (z - gridZ walker) ≤ 1.
Proof.
  cbn [fmap list_fmap fst snd]. rewrite !elem_of_cons, elem_of_nil. split.
  - intros [H|[H|[H|[H|[H|[]]]]]]; injection H; lia.
  - intros H.
    destruct (decide (x = gridX walker)), (decide (z = gridZ walker)).
    + left. f_equal; lia.
    + destruct (decide (z = gridZ walker + 1)).
      * do 3 right. left. f_equal; lia.
      * do 4 right. left. f_equal; lia.
    + destruct (decide (x = gridX walker + 1)).
      * right. left. f_equal; lia.
      * do 2 right. left. f_equal; lia.
    + lia.
Qed.

(** X7. [serviceNearbyHouses] touches only the tile under the walker and
    its four neighbours, and of those only houses: a water walker sets
    their water countdown to [SERVICE_DURATION], a food walker their food
    countdown, soldiers and farmers change nothing.  Buildings, hit points
    and the service flags themselves stay as they are. *)
Theorem serviceNearbyHouses_spec (walker : Walker) (g : Grid) (x z : Z) :
  let near := Z.abs (x - gridX walker) + Z.abs (z - gridZ walker) ≤ 1 in
  let g' := serviceNearbyHouses walker g in
  grid_size g' = grid_size g ∧
  (¬ near → getTile g' x z = getTile g x z) ∧
  (near → getTile g' x z = serviceTile (w_type walker) <$> getTile g x z) ∧
  (∀ tile : Tile,
     let tile' := serviceTile (w_type walker) tile in
     tile_x tile' = tile_x tile ∧ tile_z tile' = tile_z tile ∧
     building tile' = building tile ∧ buildingHp tile' = buildingHp tile ∧
     hasWater tile' = hasWater tile ∧ hasFood tile' = hasFood tile ∧
     (building tile ≠ Some house → tile' = tile) ∧
     (w_type walker = soldier ∨ w_type walker = farmer → tile' = tile) ∧
     (building tile = Some house → w_type walker = water →
        waterTimer tile' = SERVICE_DURATION ∧ foodTimer tile' = foodTimer tile) ∧
     (building tile = Some house → w_type walker = food →
        foodTimer tile' = SERVICE_DURATION ∧ waterTimer tile' = waterTimer tile)).
Proof.
  intros near g'. subst g'. unfold serviceNearbyHouses.
  pose proof (serviceCells_near walker x z) as Hnear. fold near in Hnear.
  split; [apply grid_size_sweep|]. split; [|split].
  - intros Hfar. apply getTile_sweep_notin. by rewrite Hnear.
  - intros Hn. apply getTile_sweep_in; [apply serviceTile_idem|by apply Hnear].
  - intros tile. unfold serviceTile.
    case_bool_decide as Hb.
    + destruct (w_type walker); cbn; repeat split; try done;
        try (intros [?|?]; done).
    + repeat split; try done.
Qed.

(** ** How long a service lasts *)

Lemma ageTile_iter (n : nat) (tile : Tile) :
  0 ≤ waterTimer tile → 0 ≤ foodTimer tile →
  building (Nat.iter (S n) ageTile tile) = building tile ∧
  waterTimer (Nat.iter (S n) ageTile tile) = Z.max 0 (waterTimer tile - Z.of_nat (S n)) ∧
  foodTimer (Nat.iter (S n) ageTile tile) = Z.max 0 (foodTimer tile - Z.of_nat (S n)) ∧
  hasWater (Nat.iter (S n) ageTile tile)
  = (0 <? waterTimer (Nat.iter (S n) ageTile tile)) ∧
  hasFood (Nat.iter (S n) ageTile tile)
  = (0 <? foodTimer (Nat.iter (S n) ageTile tile)).
Proof.
  intros Hw Hf. induction n as [|n (IHb & IHw & IHf & _)].
  - cbn [Nat.iter]. unfold ageTile. cbn.
    destruct (0 <? waterTimer tile) eqn:E1, (0 <? foodTimer tile) eqn:E2;
      repeat split; lia.
  - change (Nat.iter (S (S n)) ageTile tile)
      with (ageTile (Nat.iter (S n) ageTile tile)).
    generalize dependent (Nat.iter (S n) ageTile tile). intros t IHb IHw IHf.
    unfold ageTile. cbn.
    destruct (0 <? waterTimer t) eqn:E1, (0 <? foodTimer t) eqn:E2;
      repeat split; try done; lia.
Qed.

Lemma getTile_scans (reachable : gset Cell) (n : nat) (g : Grid) (x z : Z) :
  (x, z) ∈ allCells →
  getTile (scans reachable n g) x z = Nat.iter n ageTile <$> getTile g x z.
Proof.
  intros Hin. unfold scans. induction n as [|n IH].
  - change (getTile g x z = id <$> getTile g x z). by rewrite option_fmap_id.
  - rewrite !Nat.iter_succ, getTile_scanGrid, decide_True by done. rewrite IH.
    by rewrite <- option_fmap_compose.
Qed.

(** X8. A house on or next to the cell where a water walker arrives, in
    the 32 by 32 area, has its water countdown set to [SERVICE_DURATION];
    after [n >= 1] scan loops the countdown is [max 0 (10 - n)], so the
    house counts as supplied with water for the next 9 ticks and no longer
    from the 10th on, unless it is served again. *)
Theorem water_service_lasts (walker : Walker) (g : Grid) (reachable : gset Cell)
    (x z : Z) (tile : Tile) (n : nat) :
  w_type walker = water →
  Z.abs (x - gridX walker) + Z.abs (z - gridZ walker) ≤ 1 →
  (x, z) ∈ allCells →
  getTile g x z = Some tile → building tile = Some house →
  0 ≤ foodTimer tile → (0 < n)%nat →
  ∃ tile' : Tile,
    getTile (scans reachable n (serviceNearbyHouses walker g)) x z = Some tile' ∧
    building tile' = Some house ∧
    waterTimer tile' = Z.max 0 (SERVICE_DURATION - Z.of_nat n) ∧
    (hasWater tile' = true ↔ (n < 10)%nat).
Proof.
  intros Hty Hnear Hin Hget Hhouse Hfood Hn.
  assert (Hserved : getTile (serviceNearbyHouses walker g) x z
                    = serviceTile (w_type walker) <$> getTile g x z).
  { apply getTile_sweep_in; [apply serviceTile_idem|by apply serviceCells_near]. }
  assert (Hb : building (serviceTile (w_type walker) tile) = building tile).
  { unfold serviceTile. rewrite Hty. by case_bool_decide. }
  assert (Hw : waterTimer (serviceTile (w_type walker) tile) = SERVICE_DURATION).
  { unfold serviceTile. by rewrite Hty, bool_decide_eq_true_2. }
  assert (Hf : foodTimer (serviceTile (w_type walker) tile) = foodTimer tile).
  { unfold serviceTile. by rewrite Hty, bool_decide_eq_true_2. }
  rewrite getTile_scans, Hserved, Hget by done. cbn [fmap option_fmap option_map].
  eexists. split; [reflexivity|]. destruct n as [|n]; [lia|].
  destruct (ageTile_iter n (serviceTile (w_type walker) tile))
    as (Hb' & Hw' & _ & Hflag & _).
  { rewrite Hw. unfold SERVICE_DURATION. lia. }
  { by rewrite Hf. }
  split; [by rewrite Hb', Hb|]. split; [by rewrite Hw', Hw|].
  rewrite Hflag, Hw', Hw. unfold SERVICE_DURATION. rewrite Z.ltb_lt. lia.
Qed.

Lemma water_service_lasts_witness :
  ∃ tile', getTile (scans ∅ 9 (serviceNearbyHouses arrivedWalker houseGrid)) 0 1
           = Some tile' ∧
           waterTimer tile' = 1 ∧ (hasWater tile' = true ↔ (9 < 10)%nat).
Proof.
  destruct (water_service_lasts arrivedWalker houseGrid ∅ 0 1
              (setBuilding (Some house) 20 (newTile 0 1)) 9)
    as (tile' & Hget & _ & Hw & Hflag).
  - reflexivity.
  - cbn. lia.
  - unfold allCells. apply elem_of_footprint_box. unfold GRID_SIZE. lia.
  - vm_compute. reflexivity.
  - reflexivity.
  - cbn. lia.
  - lia.
  - exists tile'. split; [exact Hget|]. split; [exact Hw|exact Hflag].
Defined.

(** ** Blows: CombatSystem.update and the towers *)

Lemma findNearestInvader_lookup (invs : list Invader) (x z : Z) (range : Range)
    (i : nat) (inv : Invader) :
  findNearestInvader invs x z range = Some (i, inv) → invs !! i = Some inv.
Proof.
  unfold findNearestInvader.
  match goal with |- context [foldl ?f None _] => set (step := f) end.
  assert (H : ∀ d i inv, foldl step None (imap (λ i inv, (i, inv)) invs)
                         = Some (d, (i, inv)) → invs !! i = Some inv).
  { clear i inv. induction invs as [|e invs IH] using rev_ind; [done|].
    intros d i inv. rewrite imap_app, foldl_app. cbn [imap foldl].
    rewrite Nat.add_0_r. unfold step at 1. cbn [fst snd].
    case_bool_decide.
    { intros Hf. apply lookup_app_l_Some. by eapply IH. }
    destruct (_ && _).
    - intros [= <- <- <-]. rewrite lookup_app_r by done. by rewrite Nat.sub_diag.
    - intros Hf. apply lookup_app_l_Some. by eapply IH. }
  destruct (foldl step None (imap (λ i inv, (i, inv)) invs)) as [[d [j e]]|] eqn:Hf;
    [|done].
  cbn. intros [= <- <-]. by eapply H.
Qed.

Lemma hurt_refl inv : hurt inv inv.
Proof. unfold hurt. repeat split; try done. by left. Qed.

Lemma hurt_trans a b c : hurt a b → hurt b c → hurt a c.
Proof.
  unfold hurt. intros (?&?&?&?&?&?&?&?&?&Hs1) (?&?&?&?&?&?&?&?&?&Hs2).
  repeat split; try congruence; try lia.
  destruct Hs2 as [Hs2|[Hs2 ?]]; [|by right].
  destruct Hs1 as [Hs1|[Hs1 ?]]; [left; congruence|right; split; [congruence|lia]].
Qed.

Lemma hurt_blow (inv : Invader) (dmg : Z) :
  0 ≤ dmg →
  hurt inv (if inv_hp inv - dmg <=? 0
            then setState (setHp inv (inv_hp inv - dmg)) dead
            else setHp inv (inv_hp inv - dmg)).
Proof.
  intros Hd. unfold hurt. destruct (inv_hp inv - dmg <=? 0) eqn:E; cbn.
  - apply Z.leb_le in E. repeat split; try done; try lia. right. split; [done|lia].
  - repeat split; try done; try lia. by left.
Qed.

Lemma Forall2_hurt_refl invs : Forall2 hurt invs invs.
Proof. induction invs; constructor; [apply hurt_refl|done]. Qed.

Lemma Forall2_hurt_trans a b c :
  Forall2 hurt a b → Forall2 hurt b c → Forall2 hurt a c.
Proof.
  intros Hab. revert c. induction Hab as [|x y l k Hxy _ IH]; intros c Hbc.
  - by inversion Hbc.
  - inversion Hbc as [|? z ? k' Hyz Hk]; subst. constructor; [by eapply hurt_trans|eauto].
Qed.

Lemma Forall2_hurt_insert invs i inv inv' :
  invs !! i = Some inv → hurt inv inv' → Forall2 hurt invs (<[i := inv']> invs).
Proof.
  intros Hi Hh. rewrite <- (list_insert_id invs i inv Hi) at 1.
  apply Forall2_insert; [apply Forall2_hurt_refl|done].
Qed.

Lemma totalHp_insert invs i inv inv' :
  invs !! i = Some inv →
  totalHp (<[i := inv']> invs) = totalHp invs - inv_hp inv + inv_hp inv'.
Proof.
  revert i. unfold totalHp. induction invs as [|e invs IH]; intros i Hi; [done|].
  destruct i as [|i].
  - cbn in *. injection Hi as ->. lia.
  - change (inv_hp e + foldr (λ inv s, inv_hp inv + s) 0 (<[i := inv']> invs)
            = inv_hp e + foldr (λ inv s, inv_hp inv + s) 0 invs
              - inv_hp inv + inv_hp inv').
    rewrite (IH i Hi). lia.
Qed.

(** X9. Soldiers and towers only ever wound: [CombatSystem.update] and the
    tower loop keep the invader list as it is in length and order, leave
    every invader where it was with the same damage and path, never raise
    hit points, and change a state only to [dead], and only at 0 hit
    points or below.  Each tower takes at most [TOWER_DAMAGE] hit points
    from the invaders in all. *)
Theorem blows_only_wound (ws : list Walker) (towers : list Cell) (invs : list Invader) :
  Forall2 hurt invs (Combat_update ws invs).1 ∧
  Forall2 hurt invs (towersFire towers invs) ∧
  length (towersFire towers (Combat_update ws invs).1) = length invs ∧
  totalHp invs - TOWER_DAMAGE * Z.of_nat (length towers) ≤ totalHp (towersFire towers invs).
Proof.
  assert (Hcombat : ∀ ws st, Forall2 hurt st.1 (foldl combatStep st ws).1).
  { clear ws. induction ws as [|w ws IH]; intros st; [apply Forall2_hurt_refl|].
    cbn [foldl]. eapply Forall2_hurt_trans; [|apply IH].
    unfold combatStep. case_bool_decide; [apply Forall2_hurt_refl|].
    destruct (findNearestInvader _ _ _ _) as [[i target]|] eqn:Hfind;
      [|apply Forall2_hurt_refl].
    apply findNearestInvader_lookup in Hfind.
    destruct (_ <=? 1); [|apply Forall2_hurt_refl]. cbn [fst].
    eapply Forall2_hurt_insert; [exact Hfind|].
    apply (hurt_blow target SOLDIER_DAMAGE). unfold SOLDIER_DAMAGE. lia. }
  assert (Htowers : ∀ towers invs,
            Forall2 hurt invs (towersFire towers invs) ∧
            totalHp invs - TOWER_DAMAGE * Z.of_nat (length towers)
              ≤ totalHp (towersFire towers invs)).
  { clear. unfold towersFire. induction towers as [|t towers IH]; intros invs.
    { split; [apply Forall2_hurt_refl|]. cbn [foldl length]. unfold TOWER_DAMAGE. lia. }
    cbn [foldl length].
    destruct (findNearestInvader invs t.1 t.2 (Finite TOWER_RANGE))
      as [[i target]|] eqn:Hfind.
    - apply findNearestInvader_lookup in Hfind.
      destruct (IH (<[i := damageInvader target TOWER_DAMAGE]> invs)) as [Hh Hsum].
      split.
      + eapply Forall2_hurt_trans; [|exact Hh].
        eapply Forall2_hurt_insert; [exact Hfind|].
        apply (hurt_blow target TOWER_DAMAGE). unfold TOWER_DAMAGE. lia.
      + rewrite (totalHp_insert invs i target) in Hsum by done.
        assert (inv_hp (damageInvader target TOWER_DAMAGE) = inv_hp target - TOWER_DAMAGE).
        { unfold damageInvader. cbn. by destruct (_ <=? 0). }
        unfold TOWER_DAMAGE in *. lia.
    - destruct (IH invs) as [Hh Hsum]. split; [done|]. unfold TOWER_DAMAGE in *. lia. }
  split; [apply (Hcombat ws (invs, []))|]. split; [apply Htowers|]. split.
  - pose proof (Hcombat ws (invs, [])) as H1.
    destruct (Htowers towers (Combat_update ws invs).1) as [H2 _].
    apply Forall2_length in H1, H2. unfold Combat_update in *. cbn [fst] in H1. lia.
  - apply Htowers.
Qed.

(** ** InvasionSystem.tick: schedule and attacks *)

Lemma sameKinds_refl g : sameKinds g g.
Proof. by split. Qed.

Lemma sameKinds_trans g1 g2 g3 : sameKinds g1 g2 → sameKinds g2 g3 → sameKinds g1 g3.
Proof. intros [H1 H2] [H3 H4]. split; [congruence|]. intros x z. by rewrite H4. Qed.

Lemma sameKinds_modifyTile g x z (f : Tile → Tile) :
  (∀ t, building (f t) = building t) → sameKinds g (modifyTile g x z f).
Proof.
  intros Hf. split; [apply grid_size_modifyTile|]. intros x' z'.
  rewrite getTile_modifyTile. case_decide; [|done].
  destruct (getTile g x' z') as [t|]; [|done]. simpl. by rewrite Hf.
Qed.

Lemma attackBuilding_kinds (inv : Invader) (g : Grid) :
  sameKinds g (attackBuilding inv g).1.
Proof.
  unfold attackBuilding.
  destruct (getTile g (inv_x inv) (inv_z inv)) as [tile|]; [|apply sameKinds_refl].
  destruct (building tile) as [type|]; [|apply sameKinds_refl].
  destruct (_ <=? 0); [case_bool_decide|]; cbn [fst];
    by apply sameKinds_modifyTile.
Qed.

Lemma attackLoop_kinds (fp : Cell) (invs : list Invader) :
  ∀ st st' : AttackLoop,
    foldl (attackStep fp) (Some st) invs = Some st' →
    sameKinds (loop_grid st) (loop_grid st').
Proof.
  induction invs as [|inv invs IH]; intros st st' Hrun.
  { injection Hrun as <-. apply sameKinds_refl. }
  cbn [foldl] in Hrun.
  destruct (attackStep fp (Some st) inv) as [st1|] eqn:Hstep.
  2:{ exfalso. clear -Hrun. induction invs as [|i invs IH]; [done|].
      cbn [foldl] in Hrun. by apply IH. }
  eapply sameKinds_trans; [|by eapply IH].
  clear -Hstep. unfold attackStep in Hstep. cbn [mbind option_bind] in Hstep.
  case_bool_decide.
  2:{ injection Hstep as <-. apply sameKinds_refl. }
  destruct (_ <=? 0).
  2:{ injection Hstep as <-. apply sameKinds_refl. }
  pose proof (attackBuilding_kinds (setCooldown inv ATTACK_COOLDOWN) (loop_grid st)) as Hk.
  destruct (attackBuilding (setCooldown inv ATTACK_COOLDOWN) (loop_grid st))
    as [g' [dmg|]]; cbn [fst] in Hk.
  2:{ by injection Hstep as <-. }
  destruct dmg as [|x z type|x z ratio].
  - by injection Hstep as <-.
  - destruct (computePath fp _ g') as [inv'|]; [|done].
    cbn [mbind option_bind] in Hstep. by injection Hstep as <-.
  - by injection Hstep as <-.
Qed.

(** X10. [InvasionSystem.tick] always returns.  Between waves it lowers
    the countdown by one, keeps the wave number and draws no random
    number; in every case the countdown is positive afterwards and the
    wave number has grown by at most one.  The warning is on exactly when
    1 to 5 ticks are left.  No dead invader stays in the list, and the
    wave counts as active exactly while the list is not empty.  Attacks
    change hit points only: every tile keeps its building kind. *)
Theorem Invasion_tick_schedule (rng : Rng) (sys : InvasionSystem) (g : Grid) (k : nat) :
  ∃ (sys' : InvasionSystem) (g' : Grid) (k' : nat) (r : option TickResult),
    Invasion_tick rng sys g k = Some (sys', g', k', r) ∧
    inv_forumPos sys' = inv_forumPos sys ∧
    (0 < ticksUntilNextWave sys - 1 →
       waveNumber sys' = waveNumber sys ∧
       ticksUntilNextWave sys' = ticksUntilNextWave sys - 1 ∧ k' = k) ∧
    0 < ticksUntilNextWave sys' ∧
    waveNumber sys ≤ waveNumber sys' ≤ waveNumber sys + 1 ∧
    (warningActive sys' = true ↔ 1 ≤ ticksUntilNextWave sys - 1 ≤ 5) ∧
    Forall (λ inv, inv_state inv ≠ dead) (invaders sys') ∧
    activeWave sys' = bool_decide (invaders sys' ≠ []) ∧
    sameKinds g g'.
Proof.
  destruct (Invasion_tick_spec rng sys g k)
    as (sys' & g' & k' & r & Htick & Hfp & Hfire & Hwait & _).
  exists sys', g', k', r. split; [exact Htick|]. split; [exact Hfp|].
  split; [exact Hwait|].
  assert (Hsched : 0 < ticksUntilNextWave sys' ∧
                   waveNumber sys ≤ waveNumber sys' ≤ waveNumber sys + 1).
  { destruct (Z_le_gt_dec (ticksUntilNextWave sys - 1) 0) as [Hle|Hgt].
    - destruct (Hfire Hle) as [-> ->]. unfold MIN_WAVE_INTERVAL. lia.
    - destruct Hwait as (-> & -> & _); lia. }
  split; [apply Hsched|]. split; [apply Hsched|].
  unfold Invasion_tick in Htick.
  destruct (if ticksUntilNextWave sys - 1 <=? 0 then _ else _)
    as [[[[invs wave] ticks] k0]|]; [|done].
  cbn [mbind option_bind] in Htick.
  destruct (foldl (attackStep (inv_forumPos sys)) (Some (mkLoop g None [])) invs)
    as [st|] eqn:Hloop; [|done].
  cbn [mbind option_bind] in Htick. injection Htick as <- <- <- <-.
  cbn [warningActive invaders activeWave]. split; [|split; [|split; [done|]]].
  - rewrite andb_true_iff, Z.leb_le, Z.ltb_lt. lia.
  - apply Forall_forall. intros inv Hin. by apply list_elem_of_filter in Hin as [? _].
  - apply (attackLoop_kinds _ _ _ _ Hloop).
Qed.

(** ** Game.cleanGhostTiles and Game.rebuildRoadNetwork *)

(** X11. [cleanGhostTiles] keeps the size of the grid and, on every tile,
    the coordinates, service flags and countdowns.  A tile that is empty,
    or covered by a building record, or outside the 32 by 32 area, is not
    touched; any other tile loses its building and its hit points.
    Afterwards every tile of the area that holds a building is covered by
    a record, and cleaning again changes nothing. *)
Theorem cleanGhostTiles_spec (bs : list PlacedBuilding) (g : Grid) :
  let g' := cleanGhostTiles bs g in
  let covered := λ x z : Z, ∃ b, b ∈ bs ∧ covers b x z = true in
  grid_size g' = grid_size g ∧
  (∀ (x z : Z) (tile : Tile), getTile g x z = Some tile →
     ∃ tile', getTile g' x z = Some tile' ∧
       tile_x tile' = tile_x tile ∧ tile_z tile' = tile_z tile ∧
       hasWater tile' = hasWater tile ∧ hasFood tile' = hasFood tile ∧
       waterTimer tile' = waterTimer tile ∧ foodTimer tile' = foodTimer tile ∧
       (building tile = None ∨ covered x z ∨ (x, z) ∉ allCells → tile' = tile) ∧
       (building tile ≠ None → ¬ covered x z → (x, z) ∈ allCells →
          building tile' = None ∧ buildingHp tile' = 0)) ∧
  (∀ (x z : Z) (tile' : Tile), getTile g' x z = Some tile' → (x, z) ∈ allCells →
     building tile' ≠ None → covered x z) ∧
  (∀ x z : Z, getTile (cleanGhostTiles bs g') x z = getTile g' x z).
Proof.
  intros g' covered. subst g'.
  assert (Hcov : ∀ x z, existsb (λ b, covers b x z) bs = true ↔ covered x z).
  { intros x z. rewrite existsb_exists. unfold covered.
    split; intros (b & Hb & Hc); exists b; (split; [|done]); by apply list_elem_of_In. }
  split; [apply cleanGhostTiles_size|]. split; [|split].
  - intros x z tile Hget. rewrite getTile_cleanGhostTiles, Hget.
    cbn [fmap option_fmap option_map].
    destruct (decide ((x, z) ∈ allCells)) as [Hin|Hout].
    2:{ exists tile. do 7 (split; [done|]). split; [done|]. by intros _ _ ?. }
    eexists. split; [reflexivity|]. unfold cleanTile.
    case_bool_decide as Hb.
    { do 6 (split; [done|]). split; [done|]. by intros ?. }
    destruct (existsb (λ b, covers b x z) bs) eqn:E.
    { do 6 (split; [done|]). split; [done|]. intros _ Hno.
      destruct Hno. by apply Hcov. }
    cbn. do 6 (split; [done|]). split; [|done].
    intros [?|[Hc|?]]; [done| |done]. apply Hcov in Hc. congruence.
  - intros x z tile' Hget Hin Hb. rewrite getTile_cleanGhostTiles in Hget.
    rewrite decide_True in Hget by done.
    destruct (getTile g x z) as [tile|]; [|done]. injection Hget as <-.
    unfold cleanTile in Hb. case_bool_decide as Hb0; [done|].
    destruct (existsb (λ b, covers b x z) bs) eqn:E; [by apply Hcov|done].
  - intros x z. rewrite !getTile_cleanGhostTiles.
    destruct (decide ((x, z) ∈ allCells)); [|by rewrite !option_fmap_id].
    destruct (getTile g x z) as [tile|]; [|done]. cbn [fmap option_fmap option_map].
    f_equal. unfold cleanTile.
    destruct (bool_decide (building tile = None)) eqn:Hb.
    { cbv iota. by rewrite Hb. }
    destruct (existsb (λ b, covers b x z) bs) eqn:E.
    { cbv iota. by rewrite Hb. }
    cbv iota. cbn [building setBuilding]. by rewrite bool_decide_eq_true_2.
Qed.

(** X12. [rebuildRoadNetwork] always returns.  The grid is the cleaned
    one, and the reachable set holds exactly the cells linked, through
    neighbouring road or forum tiles of that grid, to one of the four cells
    of the forum footprint.  So [isBuildingConnected] accepts a building
    exactly when a cell next to its footprint is linked to the forum in
    that way. *)
Theorem rebuildRoadNetwork_spec (bs : list PlacedBuilding) (g : Grid) (fp : Cell) :
  ∃ reachable : gset Cell,
    rebuildRoadNetwork bs g fp = Some (cleanGhostTiles bs g, reachable) ∧
    (∀ c, c ∈ reachable ↔
          ∃ f, f ∈ footprint fp.1 fp.2 (def_size (BUILDINGS forum)) ∧
               roadLinked (cleanGhostTiles bs g) f c) ∧
    (∀ x z size, isBuildingConnected (cleanGhostTiles bs g) x z size reachable = true ↔
       ∃ c d f, c ∈ footprint x z size ∧ adjacent c d ∧
                f ∈ footprint fp.1 fp.2 (def_size (BUILDINGS forum)) ∧
                roadLinked (cleanGhostTiles bs g) f d).
Proof.
  unfold rebuildRoadNetwork. generalize (cleanGhostTiles bs g). intros g'.
  generalize (footprint fp.1 fp.2 (def_size (BUILDINGS forum))). intros cs.
  assert (H : ∀ (cs : list Cell) (acc : gset Cell),
    ∃ r, foldl (λ (acc : option (gset Cell)) (c : Cell),
                  acc ← acc; roads ← floodFillRoads g' c.1 c.2; Some (acc ∪ roads))
               (Some acc) cs = Some r ∧
         ∀ c, c ∈ r ↔ c ∈ acc ∨ ∃ f, f ∈ cs ∧ roadLinked g' f c).
  { clear cs. induction cs as [|[fx fz] cs IH]; intros acc.
    - exists acc. split; [done|]. intros c. split; [by left|].
      intros [?|(f & Hf & _)]; [done|]. by apply elem_of_nil in Hf.
    - cbn [foldl mbind option_bind fst snd].
      destruct (floodFillRoads_linked g' fx fz) as (roads & -> & Hroads).
      cbn [mbind option_bind].
      destruct (IH (acc ∪ roads)) as (r & -> & Hr). exists r. split; [done|].
      intros c. rewrite Hr, elem_of_union, Hroads. split.
      + intros [[?|Hl]|(f & Hf & Hl)]; [by left|right|right].
        * exists (fx, fz). split; [apply list_elem_of_here|done].
        * exists f. split; [by apply list_elem_of_further|done].
      + intros [?|(f & Hf & Hl)]; [by left; left|].
        apply elem_of_cons in Hf as [->|Hf]; [by left; right|].
        right. eauto. }
  destruct (H cs ∅) as (r & Hrun & Hr). exists r.
  assert (Hr' : ∀ c, c ∈ r ↔ ∃ f, f ∈ cs ∧ roadLinked g' f c).
  { intros c. rewrite Hr. split; [|by right].
    intros [Hc|?]; [by apply elem_of_empty in Hc|done]. }
  split; [by rewrite Hrun|]. split; [exact Hr'|].
  intros x z size. rewrite isBuildingConnected_spec. split.
  - intros (c & d & Hc & Hadj & Hd). apply Hr' in Hd as (f & Hf & Hl).
    exists c, d, f. done.
  - intros (c & d & f & Hc & Hadj & Hf & Hl). exists c, d.
    split; [done|]. split; [done|]. apply Hr'. eauto.
Qed.

(** ** Building and demolishing *)

(** X13. Building and then demolishing on the same cell gives nothing
    back: when [tryPlace] succeeds at [(x, z)], which no earlier record
    covers, [demolishAt] on that cell restores the building records and
    the building kind of every tile, marks the road network dirty and
    leaves the gold at what was left after paying the cost.  Walkers, the
    invasion, the score and the tick counter are not touched. *)
Theorem build_then_demolish (gm : Game) (type : BuildingType) (x z : Z) :
  (tryPlace gm type x z).1 = true →
  (∀ b, b ∈ placedBuildings gm → covers b x z = false) →
  let built := (tryPlace gm type x z).2 in
  let gm' := demolishAt built x z in
  placedBuildings built = placedBuildings gm ++ [mkPlaced type x z] ∧
  placedBuildings gm' = placedBuildings gm ∧
  res_gold (resources built) = res_gold (resources gm) - def_cost (BUILDINGS type) ∧
  resources gm' = resources built ∧
  roadsDirty gm' = true ∧
  sameKinds (grid gm) (grid gm') ∧
  walkers gm' = walkers gm ∧ invasionSystem gm' = invasionSystem gm ∧
  score gm' = score gm ∧ tickCount gm' = tickCount gm ∧ gameOver gm' = gameOver gm.
Proof.
  intros Hok Hfree built gm'. subst gm' built. revert Hok. unfold tryPlace, place.
  destruct (res_gold (resources gm) <? def_cost (BUILDINGS type)); [done|].
  destruct (canPlace (grid gm) type x z) eqn:Hcan; [|done]. cbn [negb fst snd].
  intros _.
  set (cells := footprint x z (def_size (BUILDINGS type))).
  set (g1 := sweep (setBuilding (Some type) (def_hp (BUILDINGS type))) (grid gm) cells).
  assert (Hsize : 1 ≤ def_size (BUILDINGS type)) by (by destruct type).
  assert (Hin : (x, z) ∈ cells).
  { apply elem_of_footprint_box. lia. }
  assert (Hempty : ∀ cx cz, (cx, cz) ∈ cells →
            ∃ t, getTile (grid gm) cx cz = Some t ∧ building t = None).
  { intros cx cz Hc. apply elem_of_footprint in Hc as (dx & dz & Hdx & Hdz & [= -> ->]).
    rewrite canPlace_spec in Hcan. by destruct (Hcan dx dz Hdx Hdz) as [_ ?]. }
  destruct (Hempty x z Hin) as (t & Ht & Hnone).
  unfold demolishAt. cbn [grid placedBuildings].
  assert (Hbuilt : getTile g1 x z
                   = Some (setBuilding (Some type) (def_hp (BUILDINGS type)) t)).
  { unfold g1. rewrite getTile_sweep_in by (done || apply setBuilding_idem).
    by rewrite Ht. }
  rewrite Hbuilt. cbn [building setBuilding].
  rewrite bool_decide_eq_false_2 by done.
  assert (Hfind : list_find (λ b, covers b x z = true)
                            (placedBuildings gm ++ [mkPlaced type x z])
                  = Some (length (placedBuildings gm), mkPlaced type x z)).
  { rewrite list_find_app_r.
    - cbn [list_find]. rewrite decide_True; [done|].
      apply covers_spec. cbn [pb_x pb_z pb_type]. lia.
    - apply list_find_None, Forall_forall. intros b Hb. by rewrite (Hfree b Hb). }
  unfold removeBuildingAt. rewrite Hfind. cbn [pb_type pb_x pb_z].
  cbn [placedBuildings resources res_gold roadsDirty walkers invasionSystem score
       tickCount gameOver grid].
  split; [done|]. split.
  { rewrite <- (app_nil_r (placedBuildings gm)) at 3. apply delete_middle. }
  split; [done|]. split; [done|]. split; [done|]. split; [|done].
  fold cells. split; [unfold g1; by rewrite !grid_size_sweep|]. intros cx cz.
  destruct (decide ((cx, cz) ∈ cells)) as [Hc|Hc].
  - rewrite getTile_sweep_in by (done || apply setBuilding_idem).
    unfold g1. rewrite getTile_sweep_in by (done || apply setBuilding_idem).
    destruct (Hempty cx cz Hc) as (t' & -> & Hn'). cbn. by rewrite Hn'.
  - rewrite getTile_sweep_notin by done. unfold g1.
    by rewrite getTile_sweep_notin.
Qed.

Lemma build_then_demolish_witness :
  placedBuildings (demolishAt (tryPlace startedGame well 3 3).2 3 3)
  = placedBuildings startedGame ∧
  res_gold (resources (demolishAt (tryPlace startedGame well 3 3).2 3 3))
  = res_gold (resources startedGame) - 20.
Proof.
  destruct (build_then_demolish startedGame well 3 3)
    as (_ & Hbs & Hgold & Hres & _).
  - vm_compute. reflexivity.
  - intros b Hb.
    assert (E : placedBuildings startedGame = [mkPlaced forum 15 15])
      by (vm_compute; reflexivity).
    rewrite E in Hb. apply list_elem_of_singleton in Hb as ->. reflexivity.
  - split; [exact Hbs|]. rewrite Hres. exact Hgold.
Defined.

(** ** Game.start and Game.restart *)

(** X14. [restart] always succeeds and, whatever the state it is called
    in, hands back the state in which a new game starts (only the random
    source is not rewound): no walkers, a new invasion system with the
    first wave 30 ticks away, the starting resources, a zero score, tick
    0, and an empty grid but for the forum, whose four tiles at (15, 15)
    to (16, 16) have 100 hit points and are the reachable set. *)
Theorem restart_is_start (gm : Game) :
  start newGame = Some startedGame ∧
  restart gm
  = Some (mkGame (grid startedGame) (placedBuildings startedGame)
                 (walkers startedGame) (invasionSystem startedGame)
                 (resources startedGame) (score startedGame)
                 (tickCount startedGame) (reachableRoads startedGame)
                 (roadsDirty startedGame) (forumPos startedGame)
                 (gameOver startedGame) (draws gm)) ∧
  walkers startedGame = [] ∧
  invasionSystem startedGame = mkInvasion [] 0 30 (15, 15) false false ∧
  resources startedGame = mkRes STARTING_GOLD 0 0 0 ∧
  score startedGame = mkScore 0 0 0 ∧
  tickCount startedGame = 0 ∧ gameOver startedGame = false ∧
  roadsDirty startedGame = false ∧ forumPos startedGame = (15, 15) ∧
  placedBuildings startedGame = [mkPlaced forum 15 15] ∧
  reachableRoads startedGame = list_to_set (footprint 15 15 2) ∧
  (∀ c : Cell, c ∈ footprint 15 15 2 →
     getTile (grid startedGame) c.1 c.2
     = Some (mkTile c.1 c.2 (Some forum) 100 false false 0 0)) ∧
  sameKinds (sweep (setBuilding (Some forum) 100) (newGrid GRID_SIZE)
                   (footprint 15 15 2))
            (grid startedGame).
Proof.
  assert (Hstart : start newGame = Some startedGame).
  { unfold startedGame. unfold start, placeForum. cbn [placedBuildings grid newGame].
    destruct (place [] (newGrid GRID_SIZE) forum (GRID_SIZE / 2 - 1)
                    (GRID_SIZE / 2 - 1) 0) as [ok [[bs g] gold]].
    destruct (rebuildRoadNetwork_total bs g (GRID_SIZE / 2 - 1, GRID_SIZE / 2 - 1))
      as (r & Hr).
    rewrite Hr. reflexivity. }
  split; [exact Hstart|]. split.
  { pose proof Hstart as Hs. unfold start, placeForum in Hs.
    unfold restart, placeForum. cbn [placedBuildings grid newGame] in Hs |- *.
    destruct (place [] (newGrid GRID_SIZE) forum (GRID_SIZE / 2 - 1)
                    (GRID_SIZE / 2 - 1) 0) as [ok [[bs g] gold]].
    destruct (rebuildRoadNetwork_total bs g (GRID_SIZE / 2 - 1, GRID_SIZE / 2 - 1))
      as (r & Hr).
    rewrite Hr in Hs |- *. cbn [mbind option_bind] in Hs |- *.
    apply (inj Some) in Hs. rewrite <- Hs.
    cbn [grid placedBuildings walkers invasionSystem resources score tickCount
         reachableRoads roadsDirty forumPos gameOver draws newGame
         res_food population maxPopulation].
    reflexivity. }
  split; [vm_compute; reflexivity|]. split; [vm_compute; reflexivity|].
  split; [vm_compute; reflexivity|]. split; [vm_compute; reflexivity|].
  split; [vm_compute; reflexivity|]. split; [vm_compute; reflexivity|].
  split; [vm_compute; reflexivity|]. split; [vm_compute; reflexivity|].
  split; [vm_compute; reflexivity|]. split; [vm_compute; reflexivity|].
  split.
  { intros [cx cz] Hc. apply elem_of_footprint_box in Hc as [Hx Hz].
    assert (Hcx : cx = 15 ∨ cx = 16) by lia.
    assert (Hcz : cz = 15 ∨ cz = 16) by lia.
    destruct Hcx as [Hcx|Hcx], Hcz as [Hcz|Hcz]; subst cx cz;
      vm_compute; reflexivity. }
  assert (Hg : grid startedGame
               = cleanGhostTiles [mkPlaced forum 15 15]
                   (sweep (setBuilding (Some forum) 100) (newGrid GRID_SIZE)
                          (footprint 15 15 2))).
  { vm_compute. reflexivity. }
  rewrite Hg. split; [apply cleanGhostTiles_size|]. intros x z.
  rewrite getTile_cleanGhostTiles.
  destruct (decide ((x, z) ∈ allCells)); [|by rewrite option_fmap_id].
  destruct (getTile _ x z) as [tile|] eqn:Ht; [|done].
  cbn [fmap option_fmap option_map]. f_equal. unfold cleanTile.
  case_bool_decide as Hb; [done|].
  destruct (existsb (λ b, covers b x z) [mkPlaced forum 15 15]) eqn:E; [done|].
  exfalso. destruct (decide ((x, z) ∈ footprint 15 15 2)) as [Hin|Hout].
  - apply elem_of_footprint_box in Hin.
    assert (Hc : covers (mkPlaced forum 15 15) x z = true).
    { apply covers_spec. cbn. lia. }
    cbn [existsb] in E. rewrite Hc in E. done.
  - rewrite getTile_sweep_notin in Ht by done.
    unfold newGrid, getTile in Ht. destruct (isInBounds _ x z); [|done].
    cbn [tiles] in Ht. rewrite list_lookup_fmap in Ht.
    destruct (seqZ 0 GRID_SIZE !! Z.to_nat x) as [x'|]; [|done].
    cbn in Ht. rewrite list_lookup_fmap in Ht.
    destruct (seqZ 0 GRID_SIZE !! Z.to_nat z) as [z'|]; [|done].
    cbn in Ht. injection Ht as <-. by apply Hb.
Qed.

(** ** Soldiers: WalkerSystem.moveSoldierToward and soldierPatrol *)

Lemma moveSoldierToward_cases (walker : Walker) (tx tz : Z) (g : Grid) :
  let x := gridX walker in
  let z := gridZ walker in
  let stepX : Cell := (x + Z.sgn (tx - x), z) in
  let stepZ : Cell := (x, z + Z.sgn (tz - z)) in
  let okX := tx ≠ x ∧ isSoldierWalkable g stepX.1 stepX.2 = true in
  let okZ := tz ≠ z ∧ isSoldierWalkable g stepZ.1 stepZ.2 = true in
  ∃ c : Cell,
    moveSoldierToward walker tx tz g = setTarget walker c.1 c.2 ∧
    (c = (x, z) ∧ ¬ okX ∧ ¬ okZ ∨
     c = stepX ∧ okX ∧ (Z.abs (tz - z) ≤ Z.abs (tx - x) ∨ ¬ okZ) ∨
     c = stepZ ∧ okZ ∧ (Z.abs (tx - x) < Z.abs (tz - z) ∨ ¬ okX)).
Proof.
  intros x z stepX stepZ okX okZ.
  assert (HsX : Z.sgn (tx - x) ≠ 0 ↔ tx ≠ x) by lia.
  assert (HsZ : Z.sgn (tz - z) ≠ 0 ↔ tz ≠ z) by lia.
  unfold moveSoldierToward. cbv zeta. fold x z.
  repeat match goal with
  | |- context [if bool_decide (Z.sgn (tx - x) ≠ 0) then ?a else ?b] =>
      replace (if bool_decide (Z.sgn (tx - x) ≠ 0) then a else b)
        with (if decide (tx = x) then b else a)
        by (destruct (decide (tx = x));
            [rewrite bool_decide_eq_false_2; [done|rewrite HsX; tauto]
            |rewrite bool_decide_eq_true_2; [done|by rewrite HsX]])
  | |- context [if bool_decide (Z.sgn (tz - z) ≠ 0) then ?a else ?b] =>
      replace (if bool_decide (Z.sgn (tz - z) ≠ 0) then a else b)
        with (if decide (tz = z) then b else a)
        by (destruct (decide (tz = z));
            [rewrite bool_decide_eq_false_2; [done|rewrite HsZ; tauto]
            |rewrite bool_decide_eq_true_2; [done|by rewrite HsZ]])
  end.
  unfold okX, okZ. cbn [fst snd].
  destruct (decide (tx = x)) as [Hx|Hx], (decide (tz = z)) as [Hz|Hz];
    destruct (isSoldierWalkable g (x + Z.sgn (tx - x)) z) eqn:EwX;
    destruct (isSoldierWalkable g x (z + Z.sgn (tz - z))) eqn:EwZ;
    destruct (Z.abs (tz - z) <=? Z.abs (tx - x)) eqn:Ecmp;
    try apply Z.leb_le in Ecmp; try apply Z.leb_gt in Ecmp;
    cbn [app list_find stepX stepZ fst snd];
    rewrite ?EwX, ?EwZ;
    repeat (first [rewrite decide_True by done | rewrite decide_False by done]);
    cbn [fmap option_fmap option_map prod_map fst snd].
  all: first
    [ exists (x, z); split; [reflexivity|]; left;
        split; [done|]; split; intros [? ?]; done
    | exists stepX; split; [reflexivity|]; right; left;
        split; [done|]; split; [done|]; first [left; lia | right; intros [? ?]; done]
    | exists stepZ; split; [reflexivity|]; right; right;
        split; [done|]; split; [done|]; first [left; lia | right; intros [? ?]; done] ].
Qed.

(** X15. [moveSoldierToward] changes the target of the soldier only.  The
    new target is the soldier's own cell or a walkable cell one step away,
    along one axis, that is one step closer to the goal [(tx, tz)].  The
    step along the axis with the greater distance is taken when that cell
    is walkable (the x axis on a tie), the step along the other axis when
    only that one is; the soldier stays where it is exactly when neither
    is possible. *)
Theorem moveSoldierToward_spec (walker : Walker) (tx tz : Z) (g : Grid) :
  let w' := moveSoldierToward walker tx tz g in
  let x := gridX walker in
  let z := gridZ walker in
  let t : Cell := (w_targetX w', w_targetZ w') in
  let stepX : Cell := (x + Z.sgn (tx - x), z) in
  let stepZ : Cell := (x, z + Z.sgn (tz - z)) in
  let okX := tx ≠ x ∧ isSoldierWalkable g stepX.1 stepX.2 = true in
  let okZ := tz ≠ z ∧ isSoldierWalkable g stepZ.1 stepZ.2 = true in
  w' = setTarget walker t.1 t.2 ∧
  (t = (x, z) ∨ t = stepX ∧ okX ∨ t = stepZ ∧ okZ) ∧
  (t ≠ (x, z) →
     Z.abs (t.1 - x) + Z.abs (t.2 - z) = 1 ∧
     isSoldierWalkable g t.1 t.2 = true ∧
     Z.abs (tx - t.1) + Z.abs (tz - t.2) = Z.abs (tx - x) + Z.abs (tz - z) - 1) ∧
  (t = (x, z) ↔ ¬ okX ∧ ¬ okZ) ∧
  (Z.abs (tz - z) ≤ Z.abs (tx - x) → okX → t = stepX) ∧
  (Z.abs (tx - x) < Z.abs (tz - z) → okZ → t = stepZ) ∧
  (okX → ¬ okZ → t = stepX) ∧ (okZ → ¬ okX → t = stepZ).
Proof.
  intros w' x z t stepX stepZ okX okZ.
  destruct (moveSoldierToward_cases walker tx tz g) as ([cx cz] & Heq & Hc).
  fold x z stepX stepZ okX okZ in Hc. fold w' in Heq.
  assert (Ht : t = (cx, cz)) by (unfold t; by rewrite Heq).
  rewrite Ht. clear Ht. cbn [fst snd] in *. split; [exact Heq|].
  assert (HnX : okX → stepX ≠ (x, z)).
  { intros [Hne _] Heq'. unfold stepX in Heq'. injection Heq'. lia. }
  assert (HnZ : okZ → stepZ ≠ (x, z)).
  { intros [Hne _] Heq'. unfold stepZ in Heq'. injection Heq'. lia. }
  assert (HnXZ : okX → okZ → stepX ≠ stepZ).
  { intros [Hne _] _ Heq'. unfold stepX, stepZ in Heq'. injection Heq'. lia. }
  destruct Hc as [(Hc & HoX & HoZ)|[(Hc & HoX & Hpref)|(Hc & HoZ & Hpref)]].
  - injection Hc as -> ->. split; [by left|]. split; [done|]. split; [done|].
    split; [tauto|]. split; [tauto|]. split; tauto.
  - unfold stepX in Hc. injection Hc as -> ->. fold stepX.
    split; [right; left; done|]. split.
    { intros _. destruct HoX as [Hne Hw]. unfold stepX in *. cbn [fst snd] in *.
      split; [lia|]. split; [done|]. lia. }
    split; [split; [intros E; by destruct (HnX HoX)|tauto]|].
    split; [done|]. split; [|split; [done|]].
    + intros Hlt HoZ. destruct Hpref; [lia|tauto].
    + intros HoZ HnoX. tauto.
  - unfold stepZ in Hc. injection Hc as -> ->. fold stepZ.
    split; [right; right; done|]. split.
    { intros _. destruct HoZ as [Hne Hw]. unfold stepZ in *. cbn [fst snd] in *.
      split; [lia|]. split; [done|]. lia. }
    split; [split; [intros E; by destruct (HnZ HoZ)|tauto]|].
    split; [|split; [done|split; [|done]]].
    + intros Hle HoX. destruct Hpref; [lia|tauto].
    + intros HoX HnoZ. tauto.
Qed.

(** ** WalkerSystem.spawn *)

Lemma elem_of_emptyPerimeter (g : Grid) (x z size : Z) (c : Cell) :
  c ∈ emptyPerimeter g x z size ↔
  (x - 1 ≤ c.1 ≤ x + size ∧ z - 1 ≤ c.2 ≤ z + size) ∧
  (c ∉ footprint x z size) ∧ isEmptyAt g c = true.
Proof.
  unfold emptyPerimeter. rewrite list_elem_of_filter, list_elem_of_bind.
  destruct c as [cx cz]. rewrite elem_of_footprint_box. cbn [fst snd]. split.
  - intros (He & dx & Hc & Hdx). apply list_elem_of_bind in Hc as (dz & Hc & Hdz).
    apply elem_of_seqZ in Hdx, Hdz.
    destruct ((0 <=? dx) && (dx <? size) && (0 <=? dz) && (dz <? size)) eqn:E;
      [by apply elem_of_nil in Hc|].
    apply list_elem_of_singleton in Hc as [= -> ->].
    rewrite !andb_false_iff, !Z.leb_gt, !Z.ltb_ge in E. split; [lia|]. split; [lia|done].
  - intros (Hring & Hout & He). split; [done|]. exists (cx - x). split.
    2:{ apply elem_of_seqZ. lia. }
    apply list_elem_of_bind. exists (cz - z). split.
    2:{ apply elem_of_seqZ. lia. }
    destruct ((0 <=? cx - x) && (cx - x <? size) && (0 <=? cz - z) && (cz - z <? size))
      eqn:E.
    + rewrite !andb_true_iff, !Z.leb_le, !Z.ltb_lt in E. lia.
    + apply list_elem_of_singleton. f_equal; lia.
Qed.

(** X16. [spawn] always returns.  Next to a road or forum tile it adds one
    walker, on one of the adjacent road tiles, for one random draw; with no
    such tile only a soldier is added, on an empty tile of the ring around
    the building if there is one (one draw), else on the building's own
    origin (no draw); any other walker is not spawned at all.  The new
    walker is at rest on its start cell with its full lifespan, 20 hit
    points for a soldier and 15 otherwise, and the building's origin as
    home and as previous cell. *)
Theorem Walker_spawn_where (rng : Rng) (k : nat) (ws : list Walker)
    (type : WalkerType) (x z : Z) (g : Grid) (size : Z) :
  rng_ok rng →
  let roads := getAdjacentRoadTiles g x z size in
  let empties := emptyPerimeter g x z size in
  ∃ (ws' : list Walker) (k' : nat),
    Walker_spawn rng k ws type x z g size = Some (ws', k') ∧
    (roads = [] → type ≠ soldier → ws' = ws ∧ k' = k) ∧
    (roads ≠ [] ∨ type = soldier →
       ∃ start : Cell,
         ws' = ws ++ [mkWalker type start.1 start.2 start.1 start.2 x z 0
                               WALKER_LIFESPAN
                               (if bool_decide (type = soldier) then 20 else 15)
                               x z] ∧
         (roads ≠ [] →
            k' = S k ∧ start ∈ roads ∧ (start ∉ footprint x z size) ∧
            isRoadOrForumAt g start = true ∧
            ∃ f, f ∈ footprint x z size ∧ adjacent f start) ∧
         (roads = [] → empties ≠ [] →
            k' = S k ∧ start ∈ empties ∧ (start ∉ footprint x z size) ∧
            isEmptyAt g start = true) ∧
         (roads = [] → empties = [] → k' = k ∧ start = (x, z))).
Proof.
  intros Hok roads empties. unfold Walker_spawn. fold roads.
  destruct (decide (roads = [])) as [Hr|Hr].
  - rewrite bool_decide_eq_false_2 by (intros H; by apply H).
    destruct (decide (type = soldier)) as [Ht|Ht].
    + rewrite (bool_decide_eq_true_2 (type = soldier)) by done.
      unfold findAdjacentEmptyTile. fold empties.
      destruct (decide (empties = [])) as [He|He].
      * rewrite bool_decide_eq_false_2 by (intros H; by apply H).
        cbn [mbind option_bind]. eexists _, _. split; [reflexivity|].
        split; [done|]. intros _. exists (x, z). split; [reflexivity|].
        split; [done|]. split; [done|]. done.
      * rewrite bool_decide_eq_true_2 by done.
        destruct (randomPick_Some rng k empties Hok He) as (c & -> & Hc & _).
        cbn [mbind option_bind]. eexists _, _. split; [reflexivity|].
        split; [done|]. intros _. exists c. split; [reflexivity|].
        split; [done|]. split; [|done]. intros _ _.
        assert (Hin : c ∈ empties) by (apply list_elem_of_lookup; eauto).
        split; [done|]. split; [done|].
        apply elem_of_emptyPerimeter in Hin as (_ & ? & ?). done.
    + rewrite (bool_decide_eq_false_2 (type = soldier)) by done.
      eexists _, _. split; [reflexivity|]. split; [done|].
      intros [?|?]; done.
  - rewrite bool_decide_eq_true_2 by done.
    destruct (randomPick_Some rng k roads Hok Hr) as (c & -> & Hc & _).
    cbn [mbind option_bind]. eexists _, _. split; [reflexivity|].
    split; [done|]. intros _. exists c. split; [reflexivity|].
    split; [|done]. intros _.
    assert (Hin : c ∈ roads) by (apply list_elem_of_lookup; eauto).
    split; [done|]. split; [done|].
    apply (getAdjacentRoadTiles_elem g x z size) in Hin as (Hf & Hout & Hroad). done.
Qed.

Lemma Walker_spawn_where_witness :
  ∃ ws' k', Walker_spawn rng_zero 0 [] water 0 0 roadGrid 1 = Some (ws', k') ∧
            length ws' = 1%nat.
Proof.
  destruct (Walker_spawn_where rng_zero 0 [] water 0 0 roadGrid 1 rng_zero_ok)
    as (ws' & k' & Hs & _ & Hadd).
  exists ws', k'. split; [exact Hs|].
  destruct Hadd as (start & -> & _); [|reflexivity].
  left. vm_compute. discriminate.
Defined.

(** ** Soldiers choosing their next tile *)

(** The choice of a soldier, with the new walker written as the update
    [setTarget] of the old one. *)
Lemma chooseNextTile_soldier_pick (rng : Rng) (k : nat) (walker : Walker) (g : Grid)
    (sys : option InvasionSystem) :
  rng_ok rng → w_type walker = soldier →
  let here : Cell := (gridX walker, gridZ walker) in
  let prev : Cell := (prevX walker, prevZ walker) in
  let nearest := sys ≫= λ s,
    findNearestInvader (invaders s) (gridX walker) (gridZ walker) Infinity in
  let candidates :=
    filter (λ n : Cell,
              n ≠ prev ∧ isSoldierWalkable g n.1 n.2 = true ∧
              Z.abs (n.1 - homeX walker) + Z.abs (n.2 - homeZ walker)
                ≤ SOLDIER_PATROL_RADIUS)
           (pathDirs here) in
  ∃ (target : Cell) (k' : nat),
    chooseNextTile rng k walker g sys = Some (setTarget walker target.1 target.2, k') ∧
    (∀ i t, nearest = Some (i, t) →
       setTarget walker target.1 target.2
       = moveSoldierToward walker (inv_x t) (inv_z t) g ∧ k' = k) ∧
    (nearest = None →
       (candidates ≠ [] → target ∈ candidates ∧ k' = S k) ∧
       (candidates = [] → isSoldierWalkable g prev.1 prev.2 = true →
          target = prev ∧ k' = k) ∧
       (candidates = [] → isSoldierWalkable g prev.1 prev.2 = false →
          target = here ∧ k' = k)).
Proof.
  intros Hok Hty here prev nearest candidates.
  unfold chooseNextTile. rewrite bool_decide_eq_true_2 by done.
  assert (Hnearest : match sys with
                     | Some s =>
                         if bool_decide (invaders s ≠ [])
                         then findNearestInvader (invaders s) (gridX walker)
                                                 (gridZ walker) Infinity
                         else None
                     | None => None
                     end = nearest).
  { unfold nearest. destruct sys as [s|]; [|done]. cbn [mbind option_bind].
    case_bool_decide as Hne; [done|].
    assert (invaders s = []) as -> by (destruct (invaders s); [done|by destruct Hne]).
    done. }
  rewrite Hnearest. destruct nearest as [[i t]|] eqn:Hn.
  - destruct (moveSoldierToward_cases walker (inv_x t) (inv_z t) g) as (c & Hc & _).
    exists c, k. split; [by rewrite Hc|]. split; [|done].
    intros i' t' [= <- <-]. by rewrite Hc.
  - unfold soldierPatrol.
    assert (Hcands : filter (λ n : Cell,
                ¬ (n.1 = prevX walker ∧ n.2 = prevZ walker) ∧
                isSoldierWalkable g n.1 n.2 = true ∧
                Z.abs (n.1 - homeX walker) + Z.abs (n.2 - homeZ walker)
                  ≤ SOLDIER_PATROL_RADIUS)
              ((λ d : Z * Z, (gridX walker + d.1, gridZ walker + d.2)) <$> DIRECTIONS)
            = candidates).
    { unfold candidates, pathDirs, here, DIRECTIONS. cbn [fmap list_fmap fst snd].
      replace (gridX walker + -1) with (gridX walker - 1) by lia.
      replace (gridZ walker + -1) with (gridZ walker - 1) by lia.
      replace (gridX walker + 0) with (gridX walker) by lia.
      replace (gridZ walker + 0) with (gridZ walker) by lia.
      apply list_filter_iff. intros [nx nz]. unfold prev. cbn [fst snd].
      split; intros (Hp & ? & ?); (split; [|done]).
      - intros [= -> ->]. by apply Hp.
      - intros [-> ->]. by apply Hp. }
    rewrite Hcands. destruct (decide (candidates = [])) as [He|He].
    + rewrite bool_decide_eq_false_2 by (intros H; by apply H).
      destruct (isSoldierWalkable g (prevX walker) (prevZ walker)) eqn:Ew.
      * exists prev, k. split; [done|]. split; [done|]. intros _.
        split; [done|]. split; [done|]. unfold prev. cbn [fst snd]. congruence.
      * exists here, k. split; [done|]. split; [done|]. intros _.
        split; [done|]. split; [|done]. unfold prev. cbn [fst snd]. congruence.
    + rewrite bool_decide_eq_true_2 by done.
      destruct (randomPick_Some rng k candidates Hok He) as (c & -> & Hc & _).
      cbn [mbind option_bind]. exists c, (S k). split; [done|]. split; [done|].
      intros _. split; [|done]. intros _. split; [|done].
      apply list_elem_of_lookup. eauto.
Qed.

(** X17. A soldier that arrives on a cell always gets a next target, read
    here from the fields [targetX], [targetZ] of the walker that
    [chooseNextTile] leaves; every other field of the walker is as before.
    While the invasion system has a living invader, the new walker is the
    one [moveSoldierToward] gives for the nearest invader's cell, without a
    random draw and whatever the distance from its barracks.  Otherwise it
    patrols: with one draw its target is one of the four neighbours that
    are walkable, within [SOLDIER_PATROL_RADIUS] of its home and not the
    cell it came from; with no such neighbour it turns back if the previous
    cell is walkable, and its target is its own cell if not. *)
Theorem chooseNextTile_soldier (rng : Rng) (k : nat) (walker : Walker) (g : Grid)
    (sys : option InvasionSystem) :
  rng_ok rng → w_type walker = soldier →
  let here : Cell := (gridX walker, gridZ walker) in
  let prev : Cell := (prevX walker, prevZ walker) in
  let nearest := sys ≫= λ s,
    findNearestInvader (invaders s) (gridX walker) (gridZ walker) Infinity in
  let candidates :=
    filter (λ n : Cell,
              n ≠ prev ∧ isSoldierWalkable g n.1 n.2 = true ∧
              Z.abs (n.1 - homeX walker) + Z.abs (n.2 - homeZ walker)
                ≤ SOLDIER_PATROL_RADIUS)
           [(here.1 + 1, here.2); (here.1 - 1, here.2);
            (here.1, here.2 + 1); (here.1, here.2 - 1)] in
  ∃ (walker' : Walker) (k' : nat),
    chooseNextTile rng k walker g sys = Some (walker', k') ∧
    let target : Cell := (w_targetX walker', w_targetZ walker') in
    (w_type walker' = w_type walker ∧
     gridX walker' = gridX walker ∧ gridZ walker' = gridZ walker ∧
     prevX walker' = prevX walker ∧ prevZ walker' = prevZ walker ∧
     w_progress walker' = w_progress walker ∧ lifespan walker' = lifespan walker ∧
     w_hp walker' = w_hp walker ∧
     homeX walker' = homeX walker ∧ homeZ walker' = homeZ walker) ∧
    (∀ i t, nearest = Some (i, t) →
       walker' = moveSoldierToward walker (inv_x t) (inv_z t) g ∧ k' = k) ∧
    (nearest = None →
       (candidates ≠ [] → target ∈ candidates ∧ k' = S k) ∧
       (candidates = [] → isSoldierWalkable g prev.1 prev.2 = true →
          target = prev ∧ k' = k) ∧
       (candidates = [] → isSoldierWalkable g prev.1 prev.2 = false →
          target = here ∧ k' = k)).
Proof.
  intros Hok Hty here prev nearest candidates.
  destruct (chooseNextTile_soldier_pick rng k walker g sys Hok Hty)
    as ([tx tz] & k' & Heq & Hchase & Hpatrol).
  exists (setTarget walker tx tz), k'. split; [exact Heq|].
  cbn [setTarget w_type gridX gridZ w_targetX w_targetZ prevX prevZ w_progress
       lifespan w_hp homeX homeZ].
  split; [repeat split|]. split; [exact Hchase|exact Hpatrol].
Qed.

(** On the cross of roads: with no invader about, the soldier at the centre
    draws one of the three arms it did not come from; with a barbarian on
    (2, 2) it steps to (2, 1) and draws nothing. *)
Lemma chooseNextTile_soldier_witness :
  (∃ w', chooseNextTile rng_half 0 crossSoldier crossGrid None = Some (w', 1%nat) ∧
         (w_targetX w', w_targetZ w') ∈ [(2, 1); (0, 1); (1, 2)] ∧
         (gridX w', gridZ w', prevX w', prevZ w') = (1, 1, 1, 0)) ∧
  (∃ w', chooseNextTile rng_half 0 crossSoldier crossGrid (Some raid)
         = Some (w', 0%nat) ∧
         (w_targetX w', w_targetZ w') = (2, 1)).
Proof.
  split.
  - destruct (chooseNextTile_soldier rng_half 0 crossSoldier crossGrid None
                rng_half_ok eq_refl)
      as (w' & k' & Heq & Hkeep & _ & Hpatrol).
    destruct (Hpatrol eq_refl) as (Hpick & _).
    assert (Hc : filter (λ n : Cell,
                n ≠ (prevX crossSoldier, prevZ crossSoldier) ∧
                isSoldierWalkable crossGrid n.1 n.2 = true ∧
                Z.abs (n.1 - homeX crossSoldier) + Z.abs (n.2 - homeZ crossSoldier)
                  ≤ SOLDIER_PATROL_RADIUS)
              [((gridX crossSoldier, gridZ crossSoldier).1 + 1,
                (gridX crossSoldier, gridZ crossSoldier).2);
               ((gridX crossSoldier, gridZ crossSoldier).1 - 1,
                (gridX crossSoldier, gridZ crossSoldier).2);
               ((gridX crossSoldier, gridZ crossSoldier).1,
                (gridX crossSoldier, gridZ crossSoldier).2 + 1);
               ((gridX crossSoldier, gridZ crossSoldier).1,
                (gridX crossSoldier, gridZ crossSoldier).2 - 1)]
            = [(2, 1); (0, 1); (1, 2)]) by (vm_compute; reflexivity).
    rewrite Hc in Hpick. destruct Hpick as [Hin ->]; [discriminate|].
    exists w'. split; [exact Heq|]. split; [exact Hin|].
    destruct Hkeep as (_ & -> & -> & -> & -> & _). reflexivity.
  - destruct (chooseNextTile_soldier rng_half 0 crossSoldier crossGrid (Some raid)
                rng_half_ok eq_refl)
      as (w' & k' & Heq & _ & Hchase & _).
    destruct (Hchase 0%nat (mkInvader 2 2 2 2 0 8 8 2 moving 0 [] 0))
      as [-> ->]; [vm_compute; reflexivity|].
    eexists. split; [exact Heq|]. vm_compute. reflexivity.
Defined.

(** ** InvasionSystem.update: invaders on their path *)

Lemma Invader_update_arrive (dt : Q) (g : Grid) (inv : Invader) :
  (1 <= dt * INVADER_SPEED)%Q → inv_state inv = moving → inv_progress inv = 0%Q →
  let x := inv_targetX inv in
  let z := inv_targetZ inv in
  let inv' := Invader_update dt g inv in
  inv_x inv' = x ∧ inv_z inv' = z ∧ inv_progress inv' = 0%Q ∧
  inv_hp inv' = inv_hp inv ∧ maxHp inv' = maxHp inv ∧ damage inv' = damage inv ∧
  path inv' = path inv ∧
  (blocksInvader g (x, z) = true →
     inv_state inv' = attacking ∧ attackCooldown inv' = 1 ∧
     pathIndex inv' = pathIndex inv) ∧
  (blocksInvader g (x, z) = false →
     inv_state inv' = moving ∧ pathIndex inv' = pathIndex inv + 1 ∧
     (∀ c, nthZ (path inv) (pathIndex inv + 1) = Some c →
           (inv_targetX inv', inv_targetZ inv') = c) ∧
     (nthZ (path inv) (pathIndex inv + 1) = None →
           (inv_targetX inv', inv_targetZ inv') = (x, z))).
Proof.
  intros Hdt Hst Hp x z inv'. subst inv'. unfold Invader_update.
  rewrite bool_decide_eq_false_2 by (intros H; by apply H).
  assert (Hgo : Qle_bool 1 (inv_progress inv + dt * INVADER_SPEED) = true).
  { apply Qle_bool_iff. rewrite Hp, Qplus_0_l. exact Hdt. }
  rewrite Hgo. fold x z. change (match getTile g x z with
    | Some tile => match building tile with
                   | Some b => bool_decide (b ≠ road)
                   | None => false
                   end
    | None => false
    end) with (blocksInvader g (x, z)).
  destruct (blocksInvader g (x, z)).
  - cbn. repeat split; try done.
  - destruct (nthZ (path inv) (pathIndex inv + 1)) as [[cx cz]|]; cbn;
      repeat split; try done.
    + intros c [= <-]. done.
Qed.

(** X18. An invader on its way walks its path cell by cell.  With frames
    long enough for one step each, an invader at rest that heads for the
    second cell of its path, as [computePath] leaves it, is after [n]
    frames on the cell of index [n], heading for the next one, as long as
    none of the cells up to there holds a building other than a road; on
    the first cell that does, it stops and turns to attacking, its first
    blow due at the next tick.  Its hit points, damage and path do not
    change on the way. *)
Theorem invader_follows_path (dt : Q) (g : Grid) (inv : Invader) (n : nat) :
  (1 <= dt * INVADER_SPEED)%Q →
  inv_state inv = moving → inv_progress inv = 0%Q → pathIndex inv = 1 →
  path inv !! 1%nat = Some (inv_targetX inv, inv_targetZ inv) →
  (S n < length (path inv))%nat →
  (∀ (j : nat) (c : Cell), (1 ≤ j ≤ n)%nat → path inv !! j = Some c →
                           blocksInvader g c = false) →
  let inv' := Nat.iter n (Invader_update dt g) inv in
  ((1 ≤ n)%nat → path inv !! n = Some (inv_x inv', inv_z inv')) ∧
  inv_state inv' = moving ∧ pathIndex inv' = Z.of_nat (S n) ∧
  path inv !! S n = Some (inv_targetX inv', inv_targetZ inv') ∧
  inv_hp inv' = inv_hp inv ∧ damage inv' = damage inv ∧ path inv' = path inv ∧
  (blocksInvader g (inv_targetX inv', inv_targetZ inv') = true →
     let inv'' := Invader_update dt g inv' in
     path inv !! S n = Some (inv_x inv'', inv_z inv'') ∧
     inv_state inv'' = attacking ∧ attackCooldown inv'' = 1 ∧
     inv_hp inv'' = inv_hp inv).
Proof.
  intros Hdt Hst Hp Hidx Htarget Hlen Hfree inv'. subst inv'.
  assert (Hinv : inv_progress (Nat.iter n (Invader_update dt g) inv) = 0%Q ∧
    ((1 ≤ n)%nat → path inv !! n
                   = Some (inv_x (Nat.iter n (Invader_update dt g) inv),
                           inv_z (Nat.iter n (Invader_update dt g) inv))) ∧
    inv_state (Nat.iter n (Invader_update dt g) inv) = moving ∧
    pathIndex (Nat.iter n (Invader_update dt g) inv) = Z.of_nat (S n) ∧
    path inv !! S n
    = Some (inv_targetX (Nat.iter n (Invader_update dt g) inv),
            inv_targetZ (Nat.iter n (Invader_update dt g) inv)) ∧
    inv_hp (Nat.iter n (Invader_update dt g) inv) = inv_hp inv ∧
    damage (Nat.iter n (Invader_update dt g) inv) = damage inv ∧
    path (Nat.iter n (Invader_update dt g) inv) = path inv).
  { induction n as [|n IH].
    - cbn [Nat.iter]. change (Nat.iter 0 (Invader_update dt g) inv) with inv.
      split; [done|]. split; [lia|]. split; [done|]. split; [by rewrite Hidx|].
      done.
    - rewrite Nat.iter_succ.
      destruct IH as (IHp & IHpos & IHst & IHidx & IHt & IHhp & IHd & IHpath);
        [lia|intros j c Hj; apply Hfree; lia|].
      generalize dependent (Nat.iter n (Invader_update dt g) inv). intros cur.
      intros IHp IHpos IHst IHidx IHt IHhp IHd IHpath.
      destruct (Invader_update_arrive dt g cur Hdt IHst IHp)
        as (Hx & Hz & Hp' & Hhp & _ & Hd & Hpath & _ & Hmove).
      destruct Hmove as (Hst' & Hidx' & Hnext & _).
      { apply (Hfree (S n)); [lia|done]. }
      split; [done|]. split; [intros _; by rewrite Hx, Hz|]. split; [done|].
      split; [rewrite Hidx', IHidx; lia|]. split; [|by rewrite Hhp, Hd, Hpath].
      destruct (lookup_lt_is_Some_2 (path inv) (S (S n)) Hlen) as [c Hc].
      transitivity (Some c); [exact Hc|]. f_equal. symmetry. apply Hnext.
      rewrite IHpath, IHidx. unfold nthZ.
      assert ((Z.of_nat (S n) + 1 <? 0) = false) as -> by (apply Z.ltb_ge; lia).
      replace (Z.to_nat (Z.of_nat (S n) + 1)) with (S (S n)) by lia. done. }
  destruct Hinv as (Hp' & Hpos & Hst' & Hidx' & Ht & Hhp & Hd & Hpath).
  split; [done|]. split; [done|]. split; [done|]. split; [done|].
  split; [done|]. split; [done|]. split; [done|].
  intros Hblocked.
  destruct (Invader_update_arrive dt g _ Hdt Hst' Hp')
    as (Hx & Hz & _ & Hhp' & _ & _ & _ & Hstop & _).
  destruct (Hstop Hblocked) as (? & ? & _).
  split; [by rewrite Hx, Hz|]. split; [done|]. split; [done|]. congruence.
Qed.

Lemma invader_follows_path_witness :
  inv_state (Nat.iter 1 (Invader_update 1 (newGrid GRID_SIZE))
               (mkInvader 12 0 13 0 0 8 8 2 moving 0 [(12, 0); (13, 0); (14, 0)] 1))
  = moving.
Proof.
  destruct (invader_follows_path 1 (newGrid GRID_SIZE)
              (mkInvader 12 0 13 0 0 8 8 2 moving 0 [(12, 0); (13, 0); (14, 0)] 1)
              1) as (_ & H & _).
  - vm_compute. discriminate.
  - reflexivity.
  - reflexivity.
  - reflexivity.
  - reflexivity.
  - cbn. lia.
  - intros j c Hj Hc. assert (j = 1%nat) as -> by lia.
    injection Hc as <-. vm_compute. reflexivity.
  - exact H.
Defined.

(** ** Capacity *)

(** X19. The capacity counted by a tick is [MAX_POP_PER_HOUSE] for every
    house tile of the 32 by 32 area that has both water and food at that
    moment: a house with only one of the services, or none, houses nobody.
    It lies between 0 and 10240. *)
Theorem countMaxPop_spec (g : Grid) :
  countMaxPop g = MAX_POP_PER_HOUSE * Z.of_nat (length (servedHouses g)) ∧
  0 ≤ countMaxPop g ≤ MAX_POP_PER_HOUSE * (GRID_SIZE * GRID_SIZE) ∧
  MAX_POP_PER_HOUSE * (GRID_SIZE * GRID_SIZE) = 10240.
Proof.
  assert (Hcount : countMaxPop g
                   = MAX_POP_PER_HOUSE * Z.of_nat (length (servedHouses g))).
  { unfold countMaxPop, servedHouses. generalize allCells. intros cs.
    assert (H : ∀ acc, foldl (λ (maxPop : Z) (c : Cell),
                match getTile g c.1 c.2 with
                | Some tile =>
                    if bool_decide (building tile = Some house)
                       && hasWater tile && hasFood tile
                    then maxPop + MAX_POP_PER_HOUSE else maxPop
                | None => maxPop
                end) acc cs
              = acc + MAX_POP_PER_HOUSE
                      * Z.of_nat (length (filter (λ c : Cell, isServedHouse g c) cs))).
    { induction cs as [|c cs IH]; intros acc.
      - cbn [foldl]. rewrite filter_nil. cbn. lia.
      - cbn [foldl]. rewrite IH.
        destruct (isServedHouse g c) eqn:E.
        + rewrite filter_cons_True by (by apply Is_true_true_2). cbn [length].
          unfold isServedHouse in E. destruct (getTile g c.1 c.2) as [tile|]; [|done].
          rewrite E. unfold MAX_POP_PER_HOUSE. lia.
        + rewrite filter_cons_False by (by apply Is_true_false_2).
          unfold isServedHouse in E. destruct (getTile g c.1 c.2) as [tile|]; [|done].
          by rewrite E. }
    rewrite H. lia. }
  split; [exact Hcount|]. split; [|reflexivity].
  rewrite Hcount. unfold servedHouses.
  pose proof (length_filter (λ c : Cell, isServedHouse g c) allCells) as Hle.
  assert (Hall : length allCells = 1024%nat) by (vm_compute; reflexivity).
  unfold MAX_POP_PER_HOUSE, GRID_SIZE. lia.
Qed.
